(** * Row storage of a terminal screen buffer: column lookup and
      damage-aware overwrite

    Shallow embedding of [ROW] (src/buffer/out/Row.hpp): the text of one
    line ([_data], UTF-16 code units), its column index ([_cwid], a
    run-length map giving the number of columns of every code unit) and
    the methods [_indicesForCol], [GlyphAt], [WriteGlyphAtMeasured],
    [DbcsAttrAt], [DelimiterClassAt] and [MeasureRight]. *)

From Stdlib Require Import ZArith List Bool Lia.
Import ListNotations.
Local Open Scope Z_scope.

(** ** Machine integers

    [size_t] is a 64-bit unsigned integer: its values are kept in [Z] and
    every addition and subtraction the source performs on it is reduced
    modulo [2^64].  [gsl::narrow_cast] is an unchecked [static_cast]: it
    keeps the low bits. *)

Definition SIZE_MOD : Z := 2 ^ 64.

Definition add_sz (a b : Z) : Z := (a + b) mod SIZE_MOD.
Definition sub_sz (a b : Z) : Z := (a - b) mod SIZE_MOD.

Definition narrow_u8 (x : Z) : Z := x mod 2 ^ 8.
Definition narrow_u16 (x : Z) : Z := x mod 2 ^ 16.

Definition is_size_t (x : Z) : Prop := 0 <= x < SIZE_MOD.

(** ** Results of a call

    A method returns, throws, is still running when the fuel given to its
    loop is used up, or has no defined behaviour (a read outside the
    string). *)

Inductive exception : Type :=
| E_INVALIDARG
| std_out_of_range.

Inductive outcome (A : Type) : Type :=
| Returned (a : A)
| Thrown (e : exception)
| OutOfFuel
| Undefined.

Arguments Returned {A} a.
Arguments Thrown {A} e.
Arguments OutOfFuel {A}.
Arguments Undefined {A}.

Definition bind {A B : Type} (m : outcome A) (k : A -> outcome B) : outcome B :=
  match m with
  | Returned a => k a
  | Thrown e => Thrown e
  | OutOfFuel => OutOfFuel
  | Undefined => Undefined
  end.

Notation "x <- m ;; k" := (bind m (fun x => k))
  (at level 61, m at next level, right associativity).

(** ** Strings of code units *)

Definition wchar_t : Type := Z.
Definition wstring : Type := list wchar_t.

(** Lengths are compared with [size_t] values: they are measured in [Z]. *)
Definition zlen {A : Type} (l : list A) : Z := Z.of_nat (List.length l).

(** [s.size()]. *)
Abbreviation wsize := (@zlen wchar_t) (only parsing).

(** Modelled from the spec: the constant [UNICODE_SPACE] of unicode.hpp,
    the blank (U+0020) used for padding and compared against by
    [DelimiterClassAt]. *)
Definition UNICODE_SPACE : wchar_t := 32.

(** [std::wstring(n, ch)].  Failure to allocate and the
    [std::length_error] for [n] above [max_size()] are not modelled. *)
Definition wstring_fill (n : Z) (ch : wchar_t) : wstring :=
  repeat ch (Z.to_nat n).

(** [s.replace(pos, len, str)] of the C++ standard library: throws
    [std::out_of_range] when [pos > s.size()], otherwise replaces the
    [min(len, s.size() - pos)] code units from [pos] on by [str]. *)
Definition wstring_replace (s : wstring) (pos len : Z) (str : wstring)
  : outcome wstring :=
  if wsize s <? pos then Thrown std_out_of_range
  else
    let rlen := Z.min len (wsize s - pos) in
    Returned (firstn (Z.to_nat pos) s ++ str ++ skipn (Z.to_nat (pos + rlen)) s).

(** [sv.find(ch)]: index of the first occurrence, [None] for [npos]. *)
Fixpoint wstring_find (sv : wstring) (ch : wchar_t) : option Z :=
  match sv with
  | [] => None
  | c :: rest =>
      if c =? ch then Some 0
      else match wstring_find rest ch with
           | Some i => Some (i + 1)
           | None => None
           end
  end.

(** ** The run-length map [til::small_rle<uint8_t, uint16_t, 3>] *)

Module til.

(** Modelled from the spec: the run type of til/rle.h, a [value]
    (columns per code unit, [uint8_t]) repeated [length] times
    ([uint16_t]). *)
Record rle_type : Type := mk_run { value : Z; length : Z }.

(** Modelled from the spec: the map is its sequence of runs, iterated in
    order by [runs()]. *)
Definition small_rle : Type := list rle_type.

(** Modelled from the spec: [size()] returns the total of [length].  The
    total is not cut to the 16 bits of the [uint16_t] the map counts in:
    [size] stands for [size()] on maps of fewer than [2 ^ 16] entries
    ([wf]), and the properties of the column index after a write assume
    a new text of fewer than [2 ^ 16] code units. *)
Fixpoint size (c : small_rle) : Z :=
  match c with
  | [] => 0
  | r :: rs => length r + size rs
  end.

(** The value of every code-unit position, in order. *)
Fixpoint expand (c : small_rle) : list Z :=
  match c with
  | [] => []
  | r :: rs => repeat (value r) (Z.to_nat (length r)) ++ expand rs
  end.

(** Canonical form of a sequence of values: no empty run, no two
    adjacent runs of the same value. *)
Fixpoint compress (l : list Z) : small_rle :=
  match l with
  | [] => []
  | v :: tl =>
      match compress tl with
      | r :: rs =>
          if value r =? v then mk_run v (length r + 1) :: rs
          else mk_run v 1 :: r :: rs
      | [] => [mk_run v 1]
      end
  end.

(** Modelled from the spec: [replace(cuBegin, cuEnd, newRuns)] of
    til/rle.h substitutes the code-unit range with the concatenation of
    [newRuns], merging with neighbours when values match, so that the
    result is in canonical form. *)
Definition replace (c : small_rle) (cuBegin cuEnd : Z) (newRuns : small_rle)
  : small_rle :=
  compress (firstn (Z.to_nat cuBegin) (expand c)
              ++ expand newRuns
              ++ skipn (Z.to_nat cuEnd) (expand c)).

Fixpoint truncate (c : small_rle) (n : Z) : small_rle :=
  match c with
  | [] => []
  | r :: rs =>
      if n <=? 0 then []
      else if n <=? length r then [mk_run (value r) n]
      else r :: truncate rs (n - length r)
  end.

Fixpoint extend_last (c : small_rle) (d : Z) : small_rle :=
  match c with
  | [] => []
  | r :: rs =>
      match rs with
      | [] => [mk_run (value r) (length r + d)]
      | _ :: _ => r :: extend_last rs d
      end
  end.

(** Modelled from the spec: [resize_trailing_extent(newTotalLength)] of
    til/rle.h extends or truncates the last run so that the total length
    equals [newTotalLength]; when extending, the value of the last run
    is reused. *)
Definition resize_trailing_extent (c : small_rle) (newTotalLength : Z)
  : small_rle :=
  if newTotalLength <? size c then truncate c newTotalLength
  else extend_last c (newTotalLength - size c).

(** Columns covered by a sequence of runs. *)
Fixpoint columns (c : small_rle) : Z :=
  match c with
  | [] => 0
  | r :: rs => value r * length r + columns rs
  end.

(** Runs without a negative value or length. *)
Definition nonneg (r : rle_type) : Prop := 0 <= value r /\ 0 <= length r.

(** Range of the stored types: [uint8_t] values, [uint16_t] lengths and
    a [uint16_t] total length. *)
Definition run_ok (r : rle_type) : Prop :=
  0 <= value r < 2 ^ 8 /\ 0 <= length r < 2 ^ 16.

Definition wf (c : small_rle) : Prop :=
  Forall run_ok c /\ size c < 2 ^ 16.

End til.

(** ** The row *)

(** Modelled from the spec: the enumerators of [LineRendition]
    (LineRendition.hpp). *)
Inductive LineRendition : Type :=
| SingleWidthSingleHeight
| DoubleWidthSingleHeight
| DoubleHeightTop
| DoubleHeightBottom.

Inductive DelimiterClass : Type :=
| ControlChar
| DelimiterChar
| RegularChar.

(** Modelled from the spec: the attributes of [DbcsAttribute]
    (DbcsAttribute.hpp) that [DbcsAttrAt] returns. *)
Inductive DbcsAttribute : Type :=
| Single
| Leading
| Trailing.

(** The members of [ROW] that the methods below read or write ([_attrRow]
    belongs to the attribute row and is touched by none of them). *)
Record ROW : Type := mk_ROW {
  _lineRendition : LineRendition;
  _rowWidth : Z;
  _wrapForced : bool;
  _doubleBytePadded : bool;
  _data : wstring;
  _cwid : til.small_rle;
  _maxc : Z
}.

Record ColumnLookupResult : Type := mk_lookup {
  dataOffset : Z;
  dataLength : Z;
  columnOffsetWithinGlyph : Z;
  numberOfColumns : Z
}.

(** The first loop of [_indicesForCol]: skip the runs that end at or
    before [col]; returns [currentCol], [currentWchar] and the runs from
    the iterator on (empty when [it == cend()]). *)
Fixpoint walk_runs (runs : til.small_rle) (col currentCol currentWchar : Z)
  : Z * Z * til.small_rle :=
  match runs with
  | [] => (currentCol, currentWchar, [])
  | it :: rest =>
      let colsCoveredByRun := til.value it * til.length it in
      if col <? add_sz currentCol colsCoveredByRun
      then (currentCol, currentWchar, runs)
      else walk_runs rest col
             (add_sz currentCol colsCoveredByRun)
             (add_sz currentWchar (til.length it))
  end.

(** The lookup proper.  After the walk the iterator is either [cend()]
    (no run holds [col]) or at the run that holds it; in the second
    conjunct of the source's test, [it != cend()], is then true. *)
Definition _indicesForCol (r : ROW) (col : Z) : ColumnLookupResult :=
  match walk_runs (_cwid r) col 0 0 with
  | (currentCol, currentWchar, []) =>
      mk_lookup currentWchar (sub_sz (wsize (_data r)) currentWchar) 0 0
  | (currentCol, currentWchar, it :: rest) =>
      let colsLeftToCountInCurrentRun := sub_sz col currentCol in
      let currentWchar :=
        add_sz currentWchar (colsLeftToCountInCurrentRun / til.value it) in
      let colsConsumedFromRun :=
        add_sz colsLeftToCountInCurrentRun (til.value it) in
      let colsCoveredByRun := til.value it * til.length it in
      let lenInWchars :=
        if colsCoveredByRun <=? colsConsumedFromRun then
          match rest with
          | nextRun :: _ =>
              if til.value nextRun =? 0 then add_sz 1 (til.length nextRun)
              else 1
          | [] => 1
          end
        else 1 in
      mk_lookup currentWchar lenInWchars
        (narrow_u8 (colsLeftToCountInCurrentRun mod til.value it))
        (til.value it)
  end.

(** A [std::wstring_view] into [_data]: offset of its first code unit and
    its length. *)
Record wstring_view : Type := mk_view { view_begin : Z; view_size : Z }.

Definition GlyphAt (r : ROW) (col : Z) : wstring_view :=
  let lookup := _indicesForCol r col in
  mk_view (dataOffset lookup) (dataLength lookup).

(** The code units a view denotes. *)
Definition view_text (r : ROW) (v : wstring_view) : wstring :=
  firstn (Z.to_nat (view_size v)) (skipn (Z.to_nat (view_begin v)) (_data r)).

(** The damage loop of [WriteGlyphAtMeasured]: while
    [maxDamageColumnExclusive < col + ncols], add the length of the glyph
    found there to [len] and its columns to [maxDamageColumnExclusive]. *)
Fixpoint damage_scan (fuel : nat) (r : ROW) (colEnd len maxDamageColumnExclusive : Z)
  : option (Z * Z) :=
  if maxDamageColumnExclusive <? colEnd then
    match fuel with
    | O => None
    | S fuel' =>
        let next := _indicesForCol r maxDamageColumnExclusive in
        damage_scan fuel' r colEnd
          (add_sz len (dataLength next))
          (add_sz maxDamageColumnExclusive (numberOfColumns next))
    end
  else Some (len, maxDamageColumnExclusive).

Definition WriteGlyphAtMeasured (fuel : nat) (r : ROW) (col ncols : Z) (glyph : wstring)
  : outcome (ROW * (Z * Z)) :=
  let lookup := _indicesForCol r col in
  let begin := dataOffset lookup in
  let minDamageColumn := sub_sz col (columnOffsetWithinGlyph lookup) in
  match damage_scan fuel r (add_sz col ncols) (dataLength lookup)
          (add_sz minDamageColumn (numberOfColumns lookup)) with
  | None => OutOfFuel
  | Some (len, maxDamageColumnExclusive) =>
      written <-
        (if (minDamageColumn =? col) && (maxDamageColumnExclusive =? add_sz col ncols)
         then
           data' <- wstring_replace (_data r) begin len glyph ;;
           let newRuns :=
             [ til.mk_run (narrow_u8 ncols) 1;
               til.mk_run 0 (narrow_u16 (sub_sz (wsize glyph) 1)) ] in
           Returned
             (data',
              til.replace (_cwid r) (narrow_u16 begin) (narrow_u16 (add_sz begin len))
                (firstn (if wsize glyph =? 1 then 1 else 2) newRuns))
         else
           let leftPad := sub_sz col minDamageColumn in
           let rightPad := sub_sz maxDamageColumnExclusive (add_sz col ncols) in
           let replacementCodeUnits := add_sz (add_sz leftPad (wsize glyph)) rightPad in
           replacement <-
             wstring_replace (wstring_fill replacementCodeUnits UNICODE_SPACE)
               leftPad (wsize glyph) glyph ;;
           let newRuns :=
             (if leftPad =? 0 then [] else [til.mk_run 1 (narrow_u16 leftPad)])
               ++ [til.mk_run (narrow_u8 ncols) 1]
               ++ (if 1 <? wsize glyph
                   then [til.mk_run 0 (narrow_u16 (sub_sz (wsize glyph) 1))] else [])
               ++ (if rightPad =? 0 then [] else [til.mk_run 1 (narrow_u16 rightPad)]) in
           data' <- wstring_replace (_data r) begin len replacement ;;
           Returned
             (data',
              til.replace (_cwid r) (narrow_u16 begin) (narrow_u16 (add_sz begin len))
                newRuns)) ;;
      let data' := fst written in
      let cwid' :=
        if til.size (snd written) =? wsize data' then snd written
        else til.resize_trailing_extent (snd written) (narrow_u16 (wsize data')) in
      Returned
        (mk_ROW (_lineRendition r) (_rowWidth r) (_wrapForced r) (_doubleBytePadded r)
           data' cwid' (Z.max (_maxc r) maxDamageColumnExclusive),
         (add_sz begin (wsize glyph), add_sz col ncols))
  end.

Definition DbcsAttrAt (r : ROW) (col : Z) : DbcsAttribute :=
  let lookup := _indicesForCol r col in
  if numberOfColumns lookup =? 1 then Single
  else if 1 <=? columnOffsetWithinGlyph lookup then Trailing
  else if columnOffsetWithinGlyph lookup =? 0 then Leading
  else Single.

(** [*GlyphAt(column).begin()]: the first code unit of the view.  An
    empty view has no first element, and neither has a view that starts
    outside the text: dereferencing its [begin()] is undefined. *)
Definition view_front (r : ROW) (v : wstring_view) : outcome wchar_t :=
  if (view_size v =? 0) || (view_begin v <? 0) then Undefined
  else match nth_error (_data r) (Z.to_nat (view_begin v)) with
       | Some ch => Returned ch
       | None => Undefined
       end.

(** [THROW_HR_IF(E_INVALIDARG, column >= _rowWidth)], then the class of
    the first code unit of the glyph.  The method is [const]: it is a
    function of the row and returns no new row. *)
Definition DelimiterClassAt (r : ROW) (column : Z) (wordDelimiters : wstring)
  : outcome DelimiterClass :=
  if _rowWidth r <=? column then Thrown E_INVALIDARG
  else
    glyph <- view_front r (GlyphAt r column) ;;
    if glyph <=? UNICODE_SPACE then Returned ControlChar
    else match wstring_find wordDelimiters glyph with
         | Some _ => Returned DelimiterChar
         | None => Returned RegularChar
         end.

Definition MeasureRight (r : ROW) : Z := _maxc r.

(** Modelled from the spec: the row as its constructor and [Reset]
    (Row.cpp) leave it, [width] blanks of one column each, a single run
    [(1, width)] and a cleared watermark. *)
Definition blank_row (width : Z) : ROW :=
  mk_ROW SingleWidthSingleHeight width false false
    (wstring_fill width UNICODE_SPACE) [til.mk_run 1 width] 0.

(** ** Auxiliary definitions used to state the properties *)

(** The glyph length computed for a hit in run [it], [colsLeft] columns
    into it, followed by the runs [rest]. *)
Definition trailer_extent (it : til.rle_type) (rest : til.small_rle) (colsLeft : Z) : Z :=
  if til.value it * til.length it <=? colsLeft + til.value it then
    match rest with
    | nextRun :: _ => if til.value nextRun =? 0 then 1 + til.length nextRun else 1
    | [] => 1
    end
  else 1.

(** [l] with the positions from [b] up to [e] replaced by [new]. *)
Definition splice {A : Type} (l : list A) (b e : Z) (new : list A) : list A :=
  firstn (Z.to_nat b) l ++ new ++ skipn (Z.to_nat e) l.

(** The text written over the damaged glyphs: the glyph between the blanks
    that repair the columns it does not cover. *)
Definition damaged_text (glyph : wstring) (leftPad rightPad : Z) : wstring :=
  repeat UNICODE_SPACE (Z.to_nat leftPad) ++ glyph
    ++ repeat UNICODE_SPACE (Z.to_nat rightPad).

(** The columns of these code units. *)
Definition damaged_widths (ncols g leftPad rightPad : Z) : list Z :=
  repeat 1 (Z.to_nat leftPad) ++ (ncols :: repeat 0 (Z.to_nat (g - 1)))
    ++ repeat 1 (Z.to_nat rightPad).

(** The row left by an overwrite at [col] that replaces [len] code units
    and repairs the columns up to [maxD]. *)
Definition overwritten (r : ROW) (col ncols : Z) (glyph : wstring) (len maxD : Z) : ROW :=
  let L := _indicesForCol r col in
  let leftPad := columnOffsetWithinGlyph L in
  let rightPad := maxD - (col + ncols) in
  mk_ROW (_lineRendition r) (_rowWidth r) (_wrapForced r) (_doubleBytePadded r)
    (splice (_data r) (dataOffset L) (dataOffset L + len)
       (damaged_text glyph leftPad rightPad))
    (til.compress
       (splice (til.expand (_cwid r)) (dataOffset L) (dataOffset L + len)
          (damaged_widths ncols (wsize glyph) leftPad rightPad)))
    (Z.max (_maxc r) maxD).

(** ** Example rows *)

(** The ideograph U+6F22, two columns wide. *)
Definition han : wchar_t := 28450.

(** A blank row of ten columns with the ideograph written at column 3. *)
Definition wide_row : ROW :=
  mk_ROW SingleWidthSingleHeight 10 false false
    [32; 32; 32; han; 32; 32; 32; 32; 32]
    [til.mk_run 1 3; til.mk_run 2 1; til.mk_run 1 5] 5.

(** A blank row of ten columns with "e" and a combining acute accent
    written at column 0. *)
Definition combining_row : ROW :=
  mk_ROW SingleWidthSingleHeight 10 false false
    [101; 769; 32; 32; 32; 32; 32; 32; 32; 32; 32]
    [til.mk_run 1 1; til.mk_run 0 1; til.mk_run 1 9] 1.

(** The row of [wide_row] after "x" is written over the first column of
    the ideograph: its second column is repaired with a blank. *)
Definition right_damaged_row : ROW :=
  mk_ROW SingleWidthSingleHeight 10 false false
    [32; 32; 32; 120; 32; 32; 32; 32; 32; 32] [til.mk_run 1 10] 5.

(** The row of [wide_row] after "x" is written over the second column of
    the ideograph: its first column is repaired with a blank. *)
Definition left_damaged_row : ROW :=
  mk_ROW SingleWidthSingleHeight 10 false false
    [32; 32; 32; 32; 120; 32; 32; 32; 32; 32] [til.mk_run 1 10] 5.


(** The row left by [WriteGlyphAtMeasured(0, 256, "x")] on a blank row of
    300 columns. *)
Definition truncated_row : ROW :=
  mk_ROW SingleWidthSingleHeight 300 false false
    (120 :: repeat 32 44) [til.mk_run 0 1; til.mk_run 1 44] 256.


(** A row of ten columns that holds the ideograph at columns 3 and 5 and
    whose watermark is at column 0; and the row a write of the ideograph
    at column 4 leaves: the write covers the second column of the first
    ideograph and the first column of the second one. *)
Definition two_wide_row : ROW :=
  mk_ROW SingleWidthSingleHeight 10 false false
    [32; 32; 32; han; han; 32; 32; 32]
    [til.mk_run 1 3; til.mk_run 2 2; til.mk_run 1 3] 0.

Definition two_wide_row_written : ROW :=
  mk_ROW SingleWidthSingleHeight 10 false false
    [32; 32; 32; 32; han; 32; 32; 32; 32]
    [til.mk_run 1 4; til.mk_run 2 1; til.mk_run 1 4] 7.



(** ** The column index position by position *)

(** [_indicesForCol] started with the accumulators [currentCol] and
    [currentWchar] on the runs [runs] of a text of [dataSize] code units. *)
Definition lookup_from (runs : til.small_rle) (dataSize col currentCol currentWchar : Z)
  : ColumnLookupResult :=
  match walk_runs runs col currentCol currentWchar with
  | (currentCol, currentWchar, []) =>
      mk_lookup currentWchar (sub_sz dataSize currentWchar) 0 0
  | (currentCol, currentWchar, it :: rest) =>
      let colsLeftToCountInCurrentRun := sub_sz col currentCol in
      let currentWchar :=
        add_sz currentWchar (colsLeftToCountInCurrentRun / til.value it) in
      let colsConsumedFromRun :=
        add_sz colsLeftToCountInCurrentRun (til.value it) in
      let colsCoveredByRun := til.value it * til.length it in
      let lenInWchars :=
        if colsCoveredByRun <=? colsConsumedFromRun then
          match rest with
          | nextRun :: _ =>
              if til.value nextRun =? 0 then add_sz 1 (til.length nextRun)
              else 1
          | [] => 1
          end
        else 1 in
      mk_lookup currentWchar lenInWchars
        (narrow_u8 (colsLeftToCountInCurrentRun mod til.value it))
        (til.value it)
  end.

(** The zero entries at the head of a sequence of column values: the
    trailers of the code unit before it. *)
Fixpoint leading_zeros (l : list Z) : Z :=
  match l with
  | [] => 0
  | v :: tl => if v =? 0 then 1 + leading_zeros tl else 0
  end.

(** The glyph that holds column [col] in a sequence of per-code-unit
    column values: its first code unit, its length with trailers, the
    offset of [col] in it and its width; [None] past the last column. *)
Fixpoint glyph_at (l : list Z) (col : Z) : option ColumnLookupResult :=
  match l with
  | [] => None
  | v :: tl =>
      if col <? v then Some (mk_lookup 0 (1 + leading_zeros tl) col v)
      else match glyph_at tl (col - v) with
           | Some L =>
               Some (mk_lookup (1 + dataOffset L) (dataLength L)
                       (columnOffsetWithinGlyph L) (numberOfColumns L))
           | None => None
           end
  end.

(** The columns of a sequence of column values. *)
Fixpoint widths_sum (l : list Z) : Z :=
  match l with
  | [] => 0
  | v :: tl => v + widths_sum tl
  end.

(** A column index in canonical form: no empty run, no two adjacent runs
    of the same value. *)
Definition canonical (c : til.small_rle) : Prop := til.compress (til.expand c) = c.

(** Column values as [uint8_t] holds them. *)
Definition byte_values (l : list Z) : Prop := Forall (fun v => 0 <= v < 256) l.

(** A lookup result moved [d] code units to the right. *)
Definition shift_lookup (d : Z) (o : option ColumnLookupResult) : option ColumnLookupResult :=
  match o with
  | Some L =>
      Some (mk_lookup (d + dataOffset L) (dataLength L)
              (columnOffsetWithinGlyph L) (numberOfColumns L))
  | None => None
  end.

(** Every glyph of [l] that holds a column below [bound] starts before
    column [colEnd]. *)
Definition starts_before (l : list Z) (bound colEnd : Z) : Prop :=
  forall c L, 0 <= c < bound -> glyph_at l c = Some L ->
              c - columnOffsetWithinGlyph L < colEnd.

(** What a returning write of [glyph] over [ncols] columns at [col] does to
    a row [r], in terms of the column values of its code units: [A] are
    those left of the damage, [M] the overwritten ones, [S] those right of
    the damage, which ends at column [maxD]. *)
Record write_effect (r r' : ROW) (col ncols : Z) (glyph : wstring)
       (A M S : list Z) (maxD : Z) : Prop := mk_write_effect {
  we_expand : til.expand (_cwid r) = A ++ M ++ S;
  we_bytes : byte_values A /\ byte_values M /\ byte_values S;
  we_offset : zlen A = dataOffset (_indicesForCol r col);
  we_left : widths_sum A = col - columnOffsetWithinGlyph (_indicesForCol r col);
  we_pad : 0 <= columnOffsetWithinGlyph (_indicesForCol r col);
  we_right : widths_sum (A ++ M) = maxD;
  we_end : col + ncols <= maxD;
  we_head : leading_zeros (M ++ S) = 0;
  we_tail : leading_zeros S = 0;
  we_starts : starts_before (til.expand (_cwid r)) maxD (col + ncols);
  we_len : zlen A + zlen M + zlen S = zlen (_data r);
  we_cwid :
    _cwid r'
    = til.compress
        (A ++ damaged_widths ncols (zlen glyph)
                (columnOffsetWithinGlyph (_indicesForCol r col))
                (maxD - (col + ncols)) ++ S);
  we_data :
    _data r'
    = firstn (Z.to_nat (zlen A)) (_data r)
        ++ damaged_text glyph (columnOffsetWithinGlyph (_indicesForCol r col))
             (maxD - (col + ncols))
        ++ skipn (Z.to_nat (zlen A + zlen M)) (_data r);
  we_maxc : _maxc r' = Z.max (_maxc r) maxD
}.

(** * vtpipeterm: one batch of console input *)

(** The [case WAIT_OBJECT_0 + 0] arm of the loop of [run]
    (tools/vtpipeterm/main.cpp).  The calls into the operating system are
    the variables of the section; each takes the state of the world and
    returns its answer and the next state. *)
Module vtpipeterm.

Definition COORD : Type := (Z * Z)%type.

Record SMALL_RECT : Type := mk_rect { Left : Z; Top : Z; Right : Z; Bottom : Z }.

(** [INPUT_RECORD] with the members of the union the loop reads. *)
Inductive INPUT_RECORD : Type :=
| KEY_EVENT (bKeyDown : bool) (AsciiChar : Z)
| WINDOW_BUFFER_SIZE_EVENT (dwSize : COORD)
| OTHER_EVENT.

(** [ARRAYSIZE(records)], also the size of [inputConptyBuffer]. *)
Definition ARRAYSIZE_records : Z := 4096.

(** Conversion of an [int] to [SHORT]. *)
Definition to_SHORT (x : Z) : Z := (x + 2 ^ 15) mod 2 ^ 16 - 2 ^ 15.

(** What a piece of [run] does: it goes on with a value, throws a
    [wil::ResultException], or stores outside [inputConptyBuffer]. *)
Inductive result (A : Type) : Type :=
| Done (a : A)
| Throws
| OutOfBounds.
Arguments Done {A} a.
Arguments Throws {A}.
Arguments OutOfBounds {A}.

(** How the arm leaves the [switch]: [break], back to the wait; [return]
    from [run]; an exception; a store outside the buffer. *)
Inductive step : Type :=
| Break (viewportSize : COORD) (inputConptyBuffer : list Z)
| Return
| Throw
| Undefined_store.

Section Console.

Variable World : Type.
(** [GetConsoleScreenBufferInfoEx]: [srWindow], or failure. *)
Variable GetConsoleScreenBufferInfoEx : World -> option SMALL_RECT * World.
(** [ConptyResizePseudoConsole]: the [HRESULT]. *)
Variable ConptyResizePseudoConsole : COORD -> World -> Z * World.
(** [pReadConsoleInputExA] with [nLength]: success and the records read. *)
Variable ReadConsoleInputExA : Z -> World -> bool * list INPUT_RECORD * World.
(** [WriteFile] with the bytes to write: success and the count written. *)
Variable WriteFile : list Z -> World -> bool * Z * World.

(** [THROW_IF_WIN32_BOOL_FALSE(GetConsoleScreenBufferInfoEx(...))], then
    width and height of [srWindow] as [SHORT]. *)
Definition getViewportSize (w : World) : result COORD * World :=
  match GetConsoleScreenBufferInfoEx w with
  | (Some csbiex, w') =>
      (Done (to_SHORT (Right csbiex - Left csbiex + 1),
             to_SHORT (Bottom csbiex - Top csbiex + 1)), w')
  | (None, w') => (Throws, w')
  end.

(** [memcmp(&viewportSize, &size, sizeof(COORD)) != 0]. *)
Definition COORD_differ (a b : COORD) : bool :=
  negb ((fst a =? fst b) && (snd a =? snd b)).

(** [inputConptyBuffer[write] = c]: defined for [write] below the size of
    the array. *)
Definition store (buffer : list Z) (write : Z) (c : Z) : option (list Z) :=
  if (0 <=? write) && (write <? zlen buffer)
  then Some (firstn (Z.to_nat write) buffer ++ c :: skipn (Z.to_nat write + 1) buffer)
  else None.

(** The loop [for (DWORD i = 0; i < read; ++i)] over the records read,
    from the state ([write], [inputConptyBuffer], [viewportSize]). *)
Fixpoint scan_records (records : list INPUT_RECORD) (write : Z) (buffer : list Z)
         (viewportSize : COORD) (w : World) : result (Z * list Z * COORD) * World :=
  match records with
  | [] => (Done (write, buffer, viewportSize), w)
  | KEY_EVENT bKeyDown AsciiChar :: rest =>
      if bKeyDown then
        match store buffer write AsciiChar with
        | Some buffer' => scan_records rest (write + 1) buffer' viewportSize w
        | None => (OutOfBounds, w)
        end
      else scan_records rest write buffer viewportSize w
  | WINDOW_BUFFER_SIZE_EVENT dwSize :: rest =>
      match getViewportSize w with
      | (Done size, w1) =>
          if COORD_differ viewportSize size then
            match ConptyResizePseudoConsole dwSize w1 with
            | (hr, w2) =>
                if hr <? 0 then (Throws, w2)
                else scan_records rest write buffer size w2
            end
          else scan_records rest write buffer viewportSize w1
      | (Throws, w1) => (Throws, w1)
      | (OutOfBounds, w1) => (OutOfBounds, w1)
      end
  | OTHER_EVENT :: rest => scan_records rest write buffer viewportSize w
  end.

(** The arm: read the records, collect the characters of the key-down
    events, write them to the pipe. *)
Definition on_input (viewportSize : COORD) (inputConptyBuffer : list Z) (w : World)
  : step * World :=
  match ReadConsoleInputExA ARRAYSIZE_records w with
  | (ok, records, w1) =>
      let read := zlen records in
      if negb ok || (read =? 0) then (Return, w1)
      else
        match scan_records records 0 inputConptyBuffer viewportSize w1 with
        | (Done (write, buffer, viewportSize'), w2) =>
            if write =? 0 then (Break viewportSize' buffer, w2)
            else
              match WriteFile (firstn (Z.to_nat write) buffer) w2 with
              | (ok', written, w3) =>
                  if negb ok' || negb (written =? read) then (Return, w3)
                  else (Break viewportSize' buffer, w3)
              end
        | (Throws, w2) => (Throw, w2)
        | (OutOfBounds, w2) => (Undefined_store, w2)
        end
  end.

End Console.

(** The characters of the key-down events of a batch, in order. *)
Fixpoint key_down_chars (records : list INPUT_RECORD) : list Z :=
  match records with
  | [] => []
  | KEY_EVENT true c :: rest => c :: key_down_chars rest
  | _ :: rest => key_down_chars rest
  end.

End vtpipeterm.

(** * Properties *)

(** ** Arithmetic without wrap-around *)

Lemma add_sz_exact (a b : Z) : 0 <= a + b < SIZE_MOD -> add_sz a b = a + b.
Proof. intros H. unfold add_sz. now apply Z.mod_small. Qed.

Lemma sub_sz_exact (a b : Z) : 0 <= a - b < SIZE_MOD -> sub_sz a b = a - b.
Proof. intros H. unfold sub_sz. now apply Z.mod_small. Qed.

Lemma narrow_u8_exact (x : Z) : 0 <= x < 2 ^ 8 -> narrow_u8 x = x.
Proof. intros H. unfold narrow_u8. now apply Z.mod_small. Qed.

Lemma narrow_u16_exact (x : Z) : 0 <= x < 2 ^ 16 -> narrow_u16 x = x.
Proof. intros H. unfold narrow_u16. now apply Z.mod_small. Qed.

Lemma SIZE_MOD_eq : SIZE_MOD = 18446744073709551616.
Proof. reflexivity. Qed.

Lemma pow_2_8 : 2 ^ 8 = 256.
Proof. reflexivity. Qed.

Lemma pow_2_16 : 2 ^ 16 = 65536.
Proof. reflexivity. Qed.

Ltac unpow := rewrite ?SIZE_MOD_eq, ?pow_2_8, ?pow_2_16 in *.

(** ** Lists measured in [Z] *)

Section ZLists.
Context {A : Type}.
Implicit Types l : list A.

Lemma zlen_nonneg l : 0 <= zlen l.
Proof. unfold zlen. lia. Qed.

Lemma zlen_app l1 l2 : zlen (l1 ++ l2) = zlen l1 + zlen l2.
Proof. unfold zlen. rewrite length_app. lia. Qed.

Lemma zlen_cons a l : zlen (a :: l) = 1 + zlen l.
Proof. unfold zlen. simpl List.length. lia. Qed.

Lemma zlen_repeat (a : A) (n : Z) : 0 <= n -> zlen (repeat a (Z.to_nat n)) = n.
Proof. intros H. unfold zlen. rewrite repeat_length. lia. Qed.

Lemma zlen_firstn (n : Z) l : 0 <= n <= zlen l -> zlen (firstn (Z.to_nat n) l) = n.
Proof. unfold zlen. intros H. rewrite length_firstn. lia. Qed.

Lemma zlen_skipn (n : Z) l : 0 <= n <= zlen l -> zlen (skipn (Z.to_nat n) l) = zlen l - n.
Proof. unfold zlen. intros H. rewrite length_skipn. lia. Qed.
End ZLists.

(** ** The run-length map *)

Module til_facts.
Import til.

Lemma run_ok_nonneg (r : rle_type) : run_ok r -> nonneg r.
Proof. unfold run_ok, nonneg. lia. Qed.

Lemma wf_nonneg (c : small_rle) : wf c -> Forall nonneg c.
Proof.
  intros [H _]. eapply Forall_impl; [|exact H]. exact run_ok_nonneg.
Qed.

Lemma size_app (c1 c2 : small_rle) : size (c1 ++ c2) = size c1 + size c2.
Proof. induction c1 as [|r c1 IH]; simpl; lia. Qed.

Lemma columns_app (c1 c2 : small_rle) : columns (c1 ++ c2) = columns c1 + columns c2.
Proof. induction c1 as [|r c1 IH]; simpl; lia. Qed.

Lemma size_nonneg (c : small_rle) : Forall nonneg c -> 0 <= size c.
Proof.
  induction 1 as [|r c [Hv Hl] _ IH]; simpl; lia.
Qed.

Lemma columns_nonneg (c : small_rle) : Forall nonneg c -> 0 <= columns c.
Proof.
  induction 1 as [|r c [Hv Hl] _ IH]; simpl; nia.
Qed.

Lemma columns_le_size (c : small_rle) : Forall run_ok c -> columns c <= 255 * size c.
Proof.
  induction 1 as [|r c [Hv Hl] _ IH]; cbn [columns size]; [lia|].
  unpow. nia.
Qed.

Lemma wf_columns_bound (c : small_rle) : wf c -> 0 <= columns c < 2 ^ 24.
Proof.
  intros Hwf. pose proof (columns_nonneg c (wf_nonneg c Hwf)) as H0.
  destruct Hwf as [Hok Hsz]. pose proof (columns_le_size c Hok) as H1.
  unpow. change (2 ^ 24) with 16777216. lia.
Qed.

Lemma zlen_expand (c : small_rle) : Forall nonneg c -> zlen (expand c) = size c.
Proof.
  induction 1 as [|r c [Hv Hl] _ IH]; simpl; [reflexivity|].
  rewrite zlen_app, zlen_repeat, IH by lia. reflexivity.
Qed.

Lemma expand_app (c1 c2 : small_rle) : expand (c1 ++ c2) = expand c1 ++ expand c2.
Proof.
  induction c1 as [|r c1 IH]; simpl; [reflexivity|].
  now rewrite IH, app_assoc.
Qed.

(** [compress] loses nothing and counts every position once. *)

Lemma compress_lengths (l : list Z) : Forall (fun r => 1 <= length r) (compress l).
Proof.
  induction l as [|v tl IH]; simpl; [constructor|].
  destruct (compress tl) as [|r rs].
  - repeat constructor. simpl. lia.
  - inversion IH as [|? ? Hr Hrs]; subst.
    destruct (value r =? v); repeat constructor; simpl; try lia; assumption.
Qed.

Lemma expand_compress (l : list Z) : expand (compress l) = l.
Proof.
  induction l as [|v tl IH]; simpl; [reflexivity|].
  pose proof (compress_lengths tl) as Hlen.
  destruct (compress tl) as [|r rs] eqn:E.
  - simpl in *. now rewrite <- IH.
  - apply Forall_inv in Hlen.
    destruct (Z.eqb_spec (value r) v) as [Hv|Hv].
    + simpl in *. rewrite <- IH, <- Hv.
      replace (Z.to_nat (length r + 1)) with (S (Z.to_nat (length r))) by lia.
      reflexivity.
    + simpl in *. now rewrite <- IH.
Qed.

Lemma size_compress (l : list Z) : size (compress l) = zlen l.
Proof.
  induction l as [|v tl IH]; simpl; [reflexivity|].
  rewrite zlen_cons, <- IH.
  destruct (compress tl) as [|r rs]; [reflexivity|].
  destruct (value r =? v); cbn [size length]; lia.
Qed.

Lemma compress_nil_inv (l : list Z) : compress l = [] -> l = [].
Proof.
  intros H. rewrite <- (expand_compress l), H. reflexivity.
Qed.

(** [resize_trailing_extent] reaches the requested total. *)




End til_facts.

(** ** The column lookup *)

Section Lookup.
Import til til_facts.

(** Runs that end at or before [col] are skipped. *)
Lemma walk_runs_skip (pre suffix : small_rle) (col cc cw : Z) :
  Forall nonneg pre -> 0 <= cc -> 0 <= cw ->
  cc + columns pre <= col -> col < SIZE_MOD -> cw + size pre < SIZE_MOD ->
  walk_runs (pre ++ suffix) col cc cw
  = walk_runs suffix col (cc + columns pre) (cw + size pre).
Proof.
  intros Hpre. revert cc cw.
  induction Hpre as [|it pre [Hv Hl] Hpre IH]; intros cc cw Hcc Hcw Hcol Hlt Hsz.
  - cbn [app columns size]. now rewrite !Z.add_0_r.
  - pose proof (columns_nonneg pre Hpre) as Hc0.
    pose proof (size_nonneg pre Hpre) as Hs0.
    cbn [app walk_runs columns size] in *.
    assert (Hcov : 0 <= value it * length it) by nia.
    rewrite add_sz_exact by lia.
    destruct (Z.ltb_spec col (cc + value it * length it)) as [Hlt'|_]; [lia|].
    rewrite add_sz_exact by lia.
    rewrite IH by lia. f_equal; lia.
Qed.

(** Where the walk stops. *)
Lemma walk_runs_inv (c : small_rle) (col cc cw : Z) :
  Forall nonneg c -> 0 <= cc <= col -> 0 <= cw -> col < SIZE_MOD ->
  cc + columns c < SIZE_MOD -> cw + size c < SIZE_MOD ->
  exists pre suffix,
    c = pre ++ suffix
    /\ walk_runs c col cc cw = (cc + columns pre, cw + size pre, suffix)
    /\ cc + columns pre <= col
    /\ match suffix with
       | [] => True
       | it :: _ => col < cc + columns pre + value it * length it
       end.
Proof.
  intros Hc. revert cc cw.
  induction Hc as [|it c [Hv Hl] Hc IH]; intros cc cw Hcc Hcw Hlt Hcb Hsb.
  - exists [], []. cbn [app walk_runs columns size].
    rewrite !Z.add_0_r. repeat split; lia.
  - pose proof (columns_nonneg c Hc) as Hc0.
    pose proof (size_nonneg c Hc) as Hs0.
    cbn [columns size] in Hcb, Hsb.
    assert (Hcov : 0 <= value it * length it) by nia.
    cbn [walk_runs]. rewrite add_sz_exact by lia.
    destruct (Z.ltb_spec col (cc + value it * length it)) as [Hhit|Hskip].
    + exists [], (it :: c). cbn [app columns size].
      rewrite !Z.add_0_r. repeat split; lia.
    + rewrite add_sz_exact by lia.
      destruct (IH (cc + value it * length it) (cw + length it))
        as (pre & suffix & -> & Hw & Hle & Hsuf); try lia.
      exists (it :: pre), suffix. cbn [app columns size].
      rewrite Hw. repeat split.
      * now rewrite !Z.add_assoc.
      * lia.
      * destruct suffix; [exact I|lia].
Qed.

(** Every column below the total lies in exactly one run. *)
Lemma columns_split (c : small_rle) (col : Z) :
  Forall nonneg c -> 0 <= col < columns c ->
  exists pre it rest,
    c = pre ++ it :: rest
    /\ columns pre <= col < columns pre + value it * length it.
Proof.
  intros Hc. revert col.
  induction Hc as [|it c [Hv Hl] Hc IH]; intros col Hcol; cbn [columns] in Hcol.
  - lia.
  - destruct (Z.lt_ge_cases col (value it * length it)) as [Hin|Hout].
    + exists [], it, c. cbn [app columns]. split; [reflexivity|lia].
    + destruct (IH (col - value it * length it) ltac:(lia))
        as (pre & it' & rest & -> & Hr).
      exists (it :: pre), it', rest. cbn [app columns]. split; [reflexivity|lia].
Qed.

(** The run that is hit has a positive value, and the hit glyph lies
    inside it. *)
Lemma hit_run_facts (it : rle_type) (colsLeft : Z) :
  run_ok it -> 0 <= colsLeft < value it * length it ->
  1 <= value it
  /\ 0 <= colsLeft / value it < length it
  /\ 0 <= colsLeft mod value it < value it.
Proof.
  intros [Hv Hl] Hc.
  assert (Hv1 : 1 <= value it) by nia.
  split; [assumption|]. split.
  - split; [apply Z.div_pos; lia|apply Z.div_lt_upper_bound; lia].
  - apply Z.mod_pos_bound. lia.
Qed.

Variable r : ROW.
Hypothesis Hwf : wf (_cwid r).

Lemma indicesForCol_hit (pre : small_rle) (it : rle_type) (rest : small_rle) (col : Z) :
  _cwid r = pre ++ it :: rest ->
  columns pre <= col < columns pre + value it * length it ->
  _indicesForCol r col
  = mk_lookup (size pre + (col - columns pre) / value it)
      (trailer_extent it rest (col - columns pre))
      ((col - columns pre) mod value it)
      (value it).
Proof.
  intros Hc Hcol.
  pose proof (wf_columns_bound _ Hwf) as Hcb.
  pose proof (wf_nonneg _ Hwf) as Hnn.
  destruct Hwf as [Hok Hsz]. rewrite Hc in *.
  apply Forall_app in Hok as [Hokpre Hokit].
  apply Forall_app in Hnn as [Hnnpre Hnnit].
  pose proof (Forall_inv Hokit) as Hit.
  apply Forall_inv_tail in Hokit. apply Forall_inv_tail in Hnnit.
  pose proof (columns_nonneg _ Hnnpre) as Hp0.
  pose proof (size_nonneg _ Hnnpre) as Hs0.
  pose proof (columns_nonneg _ Hnnit) as Hr0.
  pose proof (size_nonneg _ Hnnit) as Hrs0.
  rewrite columns_app, size_app in *. cbn [columns size] in *.
  destruct (hit_run_facts it (col - columns pre) Hit ltac:(lia)) as (Hv1 & Hdiv & Hmod).
  destruct Hit as [Hv Hl]. unpow. change (2 ^ 24) with 16777216 in Hcb.
  unfold _indicesForCol. rewrite Hc.
  rewrite walk_runs_skip by (unpow; assumption || lia).
  cbn [walk_runs]. rewrite !Z.add_0_l.
  rewrite add_sz_exact by (unpow; lia).
  destruct (Z.ltb_spec col (columns pre + value it * length it)) as [_|Hge]; [|lia].
  rewrite sub_sz_exact by (unpow; lia).
  rewrite (add_sz_exact (size pre)) by (unpow; lia).
  rewrite (add_sz_exact (col - columns pre)) by (unpow; lia).
  rewrite narrow_u8_exact by (unpow; lia).
  unfold trailer_extent.
  destruct (value it * length it <=? col - columns pre + value it); [|reflexivity].
  destruct rest as [|nextRun rest']; [reflexivity|].
  destruct (value nextRun =? 0); [|reflexivity].
  apply Forall_inv in Hokit. destruct Hokit as [_ Hnl]. unpow.
  rewrite add_sz_exact by (unpow; lia). reflexivity.
Qed.

Lemma indicesForCol_oob (col : Z) :
  columns (_cwid r) <= col -> col < SIZE_MOD ->
  _indicesForCol r col
  = mk_lookup (size (_cwid r)) (sub_sz (wsize (_data r)) (size (_cwid r))) 0 0.
Proof.
  intros Hcol Hlt.
  pose proof (wf_nonneg _ Hwf) as Hnn.
  unfold _indicesForCol.
  rewrite <- (app_nil_r (_cwid r)) at 1.
  rewrite walk_runs_skip; try assumption; try lia.
  - cbn [walk_runs]. rewrite !Z.add_0_l. reflexivity.
  - destruct Hwf as [_ Hsz]. unpow. lia.
Qed.

(** Either answer of the lookup. *)
Lemma indicesForCol_cases (col : Z) :
  is_size_t col ->
  (columns (_cwid r) <= col
   /\ _indicesForCol r col
      = mk_lookup (size (_cwid r)) (sub_sz (wsize (_data r)) (size (_cwid r))) 0 0)
  \/ (exists pre it rest,
        _cwid r = pre ++ it :: rest
        /\ columns pre <= col < columns pre + value it * length it
        /\ _indicesForCol r col
           = mk_lookup (size pre + (col - columns pre) / value it)
               (trailer_extent it rest (col - columns pre))
               ((col - columns pre) mod value it)
               (value it)).
Proof.
  intros [Hc0 Hc1].
  destruct (Z.le_gt_cases (columns (_cwid r)) col) as [Hoob|Hin].
  - left. split; [assumption|]. now apply indicesForCol_oob.
  - right.
    destruct (columns_split (_cwid r) col (wf_nonneg _ Hwf) ltac:(lia))
      as (pre & it & rest & Hc & Hr).
    exists pre, it, rest. repeat split; try lia; try assumption.
    now apply indicesForCol_hit.
Qed.

End Lookup.

(** ** Glyphs: what consecutive lookups see *)

Section Glyphs.
Import til til_facts.

(** A prefix of the runs that ends at or before [col] is a prefix of the
    runs skipped on the way to [col]. *)
Lemma split_prefix (p s pre : small_rle) (it : rle_type) (rest : small_rle) (col : Z) :
  Forall nonneg p ->
  p ++ s = pre ++ it :: rest ->
  columns p <= col -> col < columns pre + value it * length it ->
  exists mid, pre = p ++ mid.
Proof.
  intros Hp. revert pre col.
  induction Hp as [|a p [Hv Hl] Hp IH]; intros pre col Heq Hle Hlt.
  - exists pre. reflexivity.
  - pose proof (columns_nonneg p Hp) as Hp0.
    destruct pre as [|b pre]; cbn [app columns] in *.
    + injection Heq as -> _. lia.
    + injection Heq as -> Heq.
      destruct (IH pre (col - value b * length b) Heq) as [mid ->]; [lia|lia|].
      exists mid. reflexivity.
Qed.

Variable r : ROW.
Hypothesis Hwf : wf (_cwid r).

Lemma cwid_size_bound : 0 <= size (_cwid r) < 2 ^ 16.
Proof.
  split; [apply size_nonneg, wf_nonneg, Hwf|apply Hwf].
Qed.

Lemma trailer_extent_bounds (it : rle_type) (rest : small_rle) (colsLeft : Z) :
  Forall run_ok rest ->
  1 <= trailer_extent it rest colsLeft
  /\ trailer_extent it rest colsLeft
     <= 1 + match rest with
            | nextRun :: _ => if value nextRun =? 0 then length nextRun else 0
            | [] => 0
            end
  /\ (colsLeft + value it < value it * length it ->
      trailer_extent it rest colsLeft = 1).
Proof.
  intros Hrest. unfold trailer_extent.
  destruct (Z.leb_spec (value it * length it) (colsLeft + value it)) as [Hlast|Hin].
  - destruct rest as [|nextRun rest']; [lia|].
    apply Forall_inv in Hrest. destruct Hrest as [_ Hl].
    destruct (value nextRun =? 0); lia.
  - destruct rest as [|nextRun rest']; [lia|].
    apply Forall_inv in Hrest. destruct Hrest as [_ Hl].
    destruct (value nextRun =? 0); lia.
Qed.

(** The fields of an in-bounds lookup. *)
Lemma lookup_inb (col : Z) :
  0 <= col < columns (_cwid r) ->
  let L := _indicesForCol r col in
  1 <= numberOfColumns L <= 255
  /\ 0 <= columnOffsetWithinGlyph L < numberOfColumns L
  /\ columnOffsetWithinGlyph L <= col
  /\ 0 <= dataOffset L
  /\ 1 <= dataLength L
  /\ dataOffset L + dataLength L <= size (_cwid r)
  /\ col - columnOffsetWithinGlyph L + numberOfColumns L <= columns (_cwid r).
Proof.
  intros Hcol L. subst L.
  pose proof (wf_nonneg _ Hwf) as Hnn.
  destruct (columns_split (_cwid r) col Hnn Hcol) as (pre & it & rest & Hc & Hr).
  rewrite (indicesForCol_hit r Hwf pre it rest col Hc Hr).
  cbn [dataOffset dataLength columnOffsetWithinGlyph numberOfColumns].
  destruct Hwf as [Hok _]. rewrite Hc in *.
  apply Forall_app in Hok as [Hokpre Hokit].
  apply Forall_app in Hnn as [Hnnpre Hnnit].
  pose proof (Forall_inv Hokit) as Hit. apply Forall_inv_tail in Hokit.
  apply Forall_inv_tail in Hnnit.
  pose proof (columns_nonneg _ Hnnpre) as Hp0.
  pose proof (size_nonneg _ Hnnpre) as Hs0.
  pose proof (columns_nonneg _ Hnnit) as Hr0.
  pose proof (size_nonneg _ Hnnit) as Hrs0.
  destruct (hit_run_facts it (col - columns pre) Hit ltac:(lia)) as (Hv1 & Hdiv & Hmod).
  destruct (trailer_extent_bounds it rest (col - columns pre) Hokit) as (Ht1 & Ht2 & Ht3).
  pose proof (Z.div_mod (col - columns pre) (value it) ltac:(lia)) as Hdm.
  destruct Hit as [Hv Hl]. unpow.
  rewrite columns_app, size_app. cbn [columns size].
  set (i := (col - columns pre) / value it) in *.
  set (o := (col - columns pre) mod value it) in *.
  repeat split; try lia.
  - destruct (Z.lt_ge_cases (i + 1) (length it)) as [Hin|Hlast].
    + rewrite Ht3 by nia. lia.
    + destruct rest as [|nextRun rest']; cbn [size] in *; [lia|].
      apply Forall_inv_tail in Hnnit. pose proof (size_nonneg _ Hnnit).
      destruct (value nextRun =? 0); lia.
  - nia.
Qed.

Lemma lookup_offset_le (col : Z) :
  is_size_t col -> 0 <= dataOffset (_indicesForCol r col) <= size (_cwid r).
Proof.
  intros [H0 H1]. pose proof cwid_size_bound as Hsb.
  destruct (Z.le_gt_cases (columns (_cwid r)) col) as [Hoob|Hin].
  - rewrite indicesForCol_oob by assumption. cbn [dataOffset]. lia.
  - pose proof (lookup_inb col ltac:(lia)) as H. cbv zeta in H. lia.
Qed.

(** A lookup past a prefix of the runs starts after the code units of
    that prefix. *)
Lemma lookup_offset_ge (p s : small_rle) (col : Z) :
  _cwid r = p ++ s -> columns p <= col -> col < SIZE_MOD ->
  size p <= dataOffset (_indicesForCol r col).
Proof.
  intros Hc Hle Hlt.
  pose proof (wf_nonneg _ Hwf) as Hnn.
  assert (Hnnp : Forall nonneg p /\ Forall nonneg s).
  { rewrite Hc in Hnn. now apply Forall_app in Hnn. }
  destruct Hnnp as [Hnnp Hnns].
  pose proof (columns_nonneg _ Hnnp) as Hp0.
  pose proof (size_nonneg _ Hnns) as Hs0.
  destruct (Z.le_gt_cases (columns (_cwid r)) col) as [Hoob|Hin].
  - rewrite indicesForCol_oob by assumption. cbn [dataOffset].
    rewrite Hc, size_app. lia.
  - destruct (columns_split (_cwid r) col Hnn ltac:(lia)) as (pre & it & rest & Hc' & Hr).
    rewrite (indicesForCol_hit r Hwf pre it rest col Hc' Hr). cbn [dataOffset].
    destruct (split_prefix p s pre it rest col Hnnp) as [mid ->]; try lia.
    { now rewrite <- Hc. }
    assert (Hok : run_ok it).
    { destruct Hwf as [Hok _]. rewrite Hc' in Hok.
      apply Forall_app in Hok as [_ Hok]. now apply Forall_inv in Hok. }
    destruct (hit_run_facts it (col - columns (p ++ mid)) Hok ltac:(lia))
      as (_ & Hdiv & _).
    rewrite size_app.
    assert (0 <= size mid).
    { apply size_nonneg. rewrite Hc' in Hnn.
      apply Forall_app in Hnn as [Hnn _]. now apply Forall_app in Hnn. }
    lia.
Qed.

(** The glyph found at or after the end of the glyph at [col] starts
    after the code units of the glyph at [col]. *)
Lemma lookup_next (col col' : Z) :
  0 <= col < columns (_cwid r) ->
  let L := _indicesForCol r col in
  col - columnOffsetWithinGlyph L + numberOfColumns L <= col' -> col' < SIZE_MOD ->
  dataOffset L + dataLength L <= dataOffset (_indicesForCol r col').
Proof.
  intros Hcol L. subst L.
  pose proof (wf_nonneg _ Hwf) as Hnn.
  destruct (columns_split (_cwid r) col Hnn Hcol) as (pre & it & rest & Hc & Hr).
  rewrite (indicesForCol_hit r Hwf pre it rest col Hc Hr).
  cbn [dataOffset dataLength columnOffsetWithinGlyph numberOfColumns].
  intros Hend Hlt.
  assert (Hoks : Forall run_ok pre /\ Forall run_ok (it :: rest)).
  { destruct Hwf as [Hok _]. rewrite Hc in Hok. now apply Forall_app in Hok. }
  destruct Hoks as [Hokpre Hokit].
  pose proof (Forall_inv Hokit) as Hit. apply Forall_inv_tail in Hokit.
  assert (Hnnpre : Forall nonneg pre).
  { rewrite Hc in Hnn. now apply Forall_app in Hnn. }
  pose proof (columns_nonneg _ Hnnpre) as Hp0.
  pose proof (size_nonneg _ Hnnpre) as Hs0.
  destruct (hit_run_facts it (col - columns pre) Hit ltac:(lia)) as (Hv1 & Hdiv & Hmod).
  destruct (trailer_extent_bounds it rest (col - columns pre) Hokit) as (Ht1 & Ht2 & Ht3).
  pose proof (Z.div_mod (col - columns pre) (value it) ltac:(lia)) as Hdm.
  set (i := (col - columns pre) / value it) in *.
  set (o := (col - columns pre) mod value it) in *.
  destruct (Z.lt_ge_cases col' (columns pre + value it * length it)) as [Hsame|Hpast].
  - (* the next lookup stays in the same run *)
    rewrite (indicesForCol_hit r Hwf pre it rest col' Hc) by lia.
    cbn [dataOffset].
    assert (Hq : i + 1 <= (col' - columns pre) / value it).
    { apply Z.div_le_lower_bound; [lia|]. nia. }
    assert (Hq' : (col' - columns pre) / value it < length it).
    { apply Z.div_lt_upper_bound; lia. }
    rewrite Ht3 by nia. lia.
  - (* the next lookup is past the run, and past its trailers *)
    destruct rest as [|nextRun rest'].
    + pose proof (lookup_offset_ge (pre ++ [it]) [] col') as Hge.
      rewrite <- app_assoc in Hge. cbn [app] in Hge.
      rewrite columns_app, size_app in Hge. cbn [columns size] in Hge.
      specialize (Hge Hc ltac:(lia) Hlt). lia.
    + destruct (Z.eqb_spec (value nextRun) 0) as [Hz|Hnz].
      * pose proof (lookup_offset_ge (pre ++ [it; nextRun]) rest' col') as Hge.
        rewrite <- app_assoc in Hge. cbn [app] in Hge.
        rewrite columns_app, size_app in Hge. cbn [columns size] in Hge.
        specialize (Hge Hc ltac:(nia) Hlt). lia.
      * pose proof (lookup_offset_ge (pre ++ [it]) (nextRun :: rest') col') as Hge.
        rewrite <- app_assoc in Hge. cbn [app] in Hge.
        rewrite columns_app, size_app in Hge. cbn [columns size] in Hge.
        specialize (Hge Hc ltac:(lia) Hlt). lia.
Qed.

(** The end of a glyph is the first column of the next one. *)
Lemma lookup_glyph_end_aligned (col : Z) :
  0 <= col < columns (_cwid r) ->
  let L := _indicesForCol r col in
  columnOffsetWithinGlyph
    (_indicesForCol r (col - columnOffsetWithinGlyph L + numberOfColumns L)) = 0.
Proof.
  intros Hcol L.
  pose proof (lookup_inb col Hcol) as Hinb. cbv zeta in Hinb. fold L in Hinb.
  pose proof (wf_columns_bound _ Hwf) as Hcb. change (2 ^ 24) with 16777216 in Hcb.
  pose proof (wf_nonneg _ Hwf) as Hnn.
  destruct (columns_split (_cwid r) col Hnn Hcol) as (pre & it & rest & Hc & Hr).
  pose proof (indicesForCol_hit r Hwf pre it rest col Hc Hr) as HL. fold L in HL.
  assert (Hit : run_ok it).
  { destruct Hwf as [Hok _]. rewrite Hc in Hok.
    apply Forall_app in Hok as [_ Hok]. now apply Forall_inv in Hok. }
  assert (Hnnpre : Forall nonneg pre).
  { rewrite Hc in Hnn. now apply Forall_app in Hnn. }
  destruct (hit_run_facts it (col - columns pre) Hit ltac:(lia)) as (Hv1 & Hdiv & Hmod).
  pose proof (Z.div_mod (col - columns pre) (value it) ltac:(lia)) as Hdm.
  set (e := col - columnOffsetWithinGlyph L + numberOfColumns L) in *.
  assert (He : e = columns pre + value it * ((col - columns pre) / value it + 1)).
  { unfold e. rewrite HL. cbn [columnOffsetWithinGlyph numberOfColumns]. lia. }
  set (i := (col - columns pre) / value it) in *.
  destruct (Z.lt_ge_cases e (columns pre + value it * length it)) as [Hsame|Hpast].
  - (* the next glyph of the same run *)
    rewrite (indicesForCol_hit r Hwf pre it rest e Hc) by nia.
    cbn [columnOffsetWithinGlyph].
    replace (e - columns pre) with ((i + 1) * value it) by lia.
    apply Z_mod_mult.
  - (* the first column after the run *)
    destruct (indicesForCol_cases r Hwf e)
      as [[_ ->]|(pre' & it' & rest' & Hc' & Hr' & ->)];
      [unfold is_size_t; unpow; lia|reflexivity|].
    cbn [columnOffsetWithinGlyph].
    assert (Hpre : exists mid, pre' = (pre ++ [it]) ++ mid).
    { apply (split_prefix (pre ++ [it]) rest pre' it' rest' e).
      - rewrite Hc in Hnn. apply Forall_app in Hnn as [H1 H2].
        apply Forall_app. split; [assumption|].
        constructor; [now apply Forall_inv in H2|constructor].
      - rewrite <- app_assoc. cbn [app]. now rewrite <- Hc.
      - rewrite columns_app. cbn [columns]. nia.
      - lia. }
    destruct Hpre as [mid ->].
    rewrite !columns_app in Hr'. cbn [columns] in Hr'.
    assert (Hmid0 : 0 <= columns mid).
    { apply columns_nonneg. rewrite Hc' in Hnn.
      apply Forall_app in Hnn as [Hnn _]. now apply Forall_app in Hnn. }
    rewrite !columns_app. cbn [columns].
    replace (e - (columns pre + (value it * length it + 0) + columns mid)) with 0 by nia.
    apply Z.mod_0_l.
    assert (Hit' : run_ok it').
    { destruct Hwf as [Hok _]. rewrite Hc' in Hok.
      apply Forall_app in Hok as [_ Hok]. now apply Forall_inv in Hok. }
    destruct Hit' as [? ?]. nia.
Qed.

End Glyphs.

(** ** The damage loop *)

Section DamageLoop.
Import til til_facts.

Variable r : ROW.

(** The loop test failed when the loop was left. *)
Lemma damage_scan_exit (fuel : nat) (colEnd len maxD len' maxD' : Z) :
  damage_scan fuel r colEnd len maxD = Some (len', maxD') -> colEnd <= maxD'.
Proof.
  revert len maxD.
  induction fuel as [|fuel IH]; intros len maxD; cbn [damage_scan];
    destruct (Z.ltb_spec maxD colEnd) as [Hlt|Hge]; intros H;
    try discriminate; try (injection H as <- <-; assumption).
  eapply IH, H.
Qed.

(** Without an iteration the state is returned as it is. *)
Lemma damage_scan_done (fuel : nat) (colEnd len maxD : Z) :
  colEnd <= maxD -> damage_scan fuel r colEnd len maxD = Some (len, maxD).
Proof.
  intros H. destruct fuel; cbn [damage_scan];
    destruct (Z.ltb_spec maxD colEnd); try lia; reflexivity.
Qed.

(** A lookup that covers no column leaves [maxDamageColumnExclusive]
    where it is: the loop cannot be left. *)
Lemma damage_scan_stuck (fuel : nat) (colEnd len maxD : Z) :
  numberOfColumns (_indicesForCol r maxD) = 0 ->
  is_size_t maxD -> maxD < colEnd ->
  damage_scan fuel r colEnd len maxD = None.
Proof.
  intros Hcols Hsz Hlt. revert len.
  induction fuel as [|fuel IH]; intros len; cbn [damage_scan];
    destruct (Z.ltb_spec maxD colEnd); try lia; [reflexivity|].
  rewrite Hcols. rewrite (add_sz_exact maxD 0) by (unfold is_size_t in Hsz; lia).
  rewrite Z.add_0_r. apply IH.
Qed.

Hypothesis Hwf : wf (_cwid r).

(** With more fuel than columns to cover, the loop is left when every
    column up to [colEnd] is stored in [_cwid]. *)
Lemma damage_scan_terminates (fuel : nat) (colEnd len maxD : Z) :
  colEnd <= columns (_cwid r) -> 0 <= maxD ->
  columnOffsetWithinGlyph (_indicesForCol r maxD) = 0 ->
  (Z.to_nat (colEnd - maxD) <= fuel)%nat ->
  exists len' maxD', damage_scan fuel r colEnd len maxD = Some (len', maxD').
Proof.
  intros Hend. revert len maxD.
  induction fuel as [|fuel IH]; intros len maxD H0 Hal Hfuel; cbn [damage_scan];
    destruct (Z.ltb_spec maxD colEnd) as [Hlt|Hge]; try (eexists _, _; reflexivity);
    [lia|].
  pose proof (wf_columns_bound _ Hwf) as Hcb. change (2 ^ 24) with 16777216 in Hcb.
  pose proof (lookup_inb r Hwf maxD ltac:(lia)) as Hinb. cbv zeta in Hinb.
  pose proof (lookup_glyph_end_aligned r Hwf maxD ltac:(lia)) as Hnext.
  cbv zeta in Hnext. rewrite Hal, Z.sub_0_r in Hnext.
  rewrite (add_sz_exact maxD) by (unpow; lia).
  apply IH; [lia|assumption|lia].
Qed.

(** When some column below [colEnd] is not stored in [_cwid], the loop
    reaches the end of the stored columns and stays there. *)
Lemma damage_scan_diverges (fuel : nat) (colEnd len maxD : Z) :
  columns (_cwid r) < colEnd -> is_size_t maxD -> maxD < colEnd ->
  columnOffsetWithinGlyph (_indicesForCol r maxD) = 0 ->
  damage_scan fuel r colEnd len maxD = None.
Proof.
  intros Hend. revert len maxD.
  induction fuel as [|fuel IH]; intros len maxD Hsz Hlt Hal; cbn [damage_scan];
    destruct (Z.ltb_spec maxD colEnd) as [_|Hge]; try lia; [reflexivity|].
  pose proof (wf_columns_bound _ Hwf) as Hcb. change (2 ^ 24) with 16777216 in Hcb.
  destruct (Z.le_gt_cases (columns (_cwid r)) maxD) as [Hoob|Hin].
  - rewrite (indicesForCol_oob r Hwf maxD Hoob) by apply Hsz.
    cbn [numberOfColumns dataLength].
    rewrite (add_sz_exact maxD 0) by (unfold is_size_t in Hsz; lia).
    rewrite Z.add_0_r.
    apply damage_scan_stuck; try assumption.
    now rewrite (indicesForCol_oob r Hwf maxD Hoob) by apply Hsz.
  - destruct Hsz as [H0 H1].
    pose proof (lookup_inb r Hwf maxD ltac:(lia)) as Hinb. cbv zeta in Hinb.
    pose proof (lookup_glyph_end_aligned r Hwf maxD ltac:(lia)) as Hnext.
    cbv zeta in Hnext. rewrite Hal, Z.sub_0_r in Hnext.
    rewrite (add_sz_exact maxD) by (unpow; lia).
    apply IH; [unfold is_size_t; unpow; lia|lia|assumption].
Qed.

Hypothesis HI1 : size (_cwid r) = wsize (_data r).

(** The code units counted by the loop are those of consecutive glyphs:
    they end inside the row, and the loop overshoots [colEnd] by less
    than one glyph. *)
Lemma damage_scan_range (fuel : nat) (begin colEnd len maxD len' maxD' : Z) :
  0 <= begin -> 0 <= len -> is_size_t maxD ->
  begin + len <= dataOffset (_indicesForCol r maxD) ->
  damage_scan fuel r colEnd len maxD = Some (len', maxD') ->
  len <= len'
  /\ begin + len' <= size (_cwid r)
  /\ (maxD' = maxD \/ maxD' <= colEnd + 254).
Proof.
  intros Hb. revert len maxD.
  induction fuel as [|fuel IH]; intros len maxD Hl Hsz Hinv; cbn [damage_scan];
    destruct (Z.ltb_spec maxD colEnd) as [Hlt|Hge]; intros H;
    try discriminate;
    try (injection H as <- <-;
         pose proof (lookup_offset_le r Hwf maxD Hsz); lia).
  pose proof (wf_columns_bound _ Hwf) as Hcb. change (2 ^ 24) with 16777216 in Hcb.
  pose proof (cwid_size_bound r Hwf) as Hsb.
  destruct (Z.le_gt_cases (columns (_cwid r)) maxD) as [Hoob|Hin].
  - exfalso. revert H.
    rewrite (indicesForCol_oob r Hwf maxD Hoob) by apply Hsz.
    cbn [numberOfColumns dataLength].
    rewrite (add_sz_exact maxD 0) by (unfold is_size_t in Hsz; lia).
    rewrite Z.add_0_r.
    rewrite damage_scan_stuck; try assumption; [discriminate|].
    now rewrite (indicesForCol_oob r Hwf maxD Hoob) by apply Hsz.
  - destruct Hsz as [H0 H1].
    pose proof (lookup_inb r Hwf maxD ltac:(lia)) as Hinb. cbv zeta in Hinb.
    pose proof (lookup_next r Hwf maxD
                  (maxD + numberOfColumns (_indicesForCol r maxD)) ltac:(lia)) as Hnext.
    cbv zeta in Hnext.
    specialize (Hnext ltac:(lia) ltac:(unpow; lia)).
    revert H.
    rewrite (add_sz_exact maxD) by (unpow; lia).
    rewrite (add_sz_exact len) by (unpow; lia).
    intros H. apply IH in H; try lia.
    unfold is_size_t. unpow. lia.
Qed.

End DamageLoop.

(** ** The overwrite *)

Lemma zlen_splice {A : Type} (l : list A) (b e : Z) (new : list A) :
  0 <= b <= e -> e <= zlen l -> zlen (splice l b e new) = zlen l - (e - b) + zlen new.
Proof.
  intros Hb He. unfold splice.
  rewrite !zlen_app, zlen_firstn, zlen_skipn by lia. lia.
Qed.

Lemma zlen_damaged_text (glyph : wstring) (leftPad rightPad : Z) :
  0 <= leftPad -> 0 <= rightPad ->
  zlen (damaged_text glyph leftPad rightPad) = leftPad + wsize glyph + rightPad.
Proof.
  intros Hl Hr. unfold damaged_text.
  rewrite !zlen_app, !zlen_repeat by lia. lia.
Qed.

Lemma zlen_damaged_widths (ncols g leftPad rightPad : Z) :
  0 <= leftPad -> 0 <= rightPad -> 1 <= g ->
  zlen (damaged_widths ncols g leftPad rightPad) = leftPad + g + rightPad.
Proof.
  intros Hl Hr Hg. unfold damaged_widths.
  rewrite !zlen_app, zlen_cons, !zlen_repeat by lia. lia.
Qed.

Lemma wstring_replace_inside (s : wstring) (pos len : Z) (str : wstring) :
  0 <= pos -> 0 <= len -> pos + len <= wsize s ->
  wstring_replace s pos len str = Returned (splice s pos (pos + len) str).
Proof.
  intros Hp Hl Hs. unfold wstring_replace.
  destruct (Z.ltb_spec (wsize s) pos); [lia|].
  rewrite Z.min_l by lia. reflexivity.
Qed.

(** The replacement string of the damage branch. *)
Lemma replacement_text (glyph : wstring) (leftPad rightPad : Z) :
  0 <= leftPad -> 0 <= rightPad ->
  wstring_replace (wstring_fill (leftPad + wsize glyph + rightPad) UNICODE_SPACE)
    leftPad (wsize glyph) glyph
  = Returned (damaged_text glyph leftPad rightPad).
Proof.
  intros Hl Hr.
  pose proof (zlen_nonneg glyph) as Hg.
  rewrite wstring_replace_inside; try lia.
  - unfold splice, damaged_text, wstring_fill. f_equal.
    replace (Z.to_nat (leftPad + wsize glyph + rightPad))
      with (Z.to_nat leftPad + (Z.to_nat (wsize glyph) + Z.to_nat rightPad))%nat by lia.
    rewrite !repeat_app.
    rewrite firstn_app, repeat_length, Nat.sub_diag. cbn [firstn].
    rewrite app_nil_r, firstn_all2 by (rewrite repeat_length; lia).
    f_equal. f_equal.
    replace (Z.to_nat (leftPad + wsize glyph))
      with (Z.to_nat leftPad + Z.to_nat (wsize glyph))%nat by lia.
    rewrite skipn_app, repeat_length.
    rewrite skipn_all2 by (rewrite repeat_length; lia). cbn [app].
    replace (Z.to_nat leftPad + Z.to_nat (wsize glyph) - Z.to_nat leftPad)%nat
      with (Z.to_nat (wsize glyph)) by lia.
    rewrite skipn_app, repeat_length, Nat.sub_diag. cbn [skipn].
    rewrite skipn_all2 by (rewrite repeat_length; lia). reflexivity.
  - unfold wstring_fill, zlen in *. rewrite repeat_length. lia.
Qed.

(** The new runs of the damage branch, position by position. *)
Lemma expand_damage_runs (ncols g leftPad rightPad : Z) :
  0 <= leftPad -> 0 <= rightPad -> 1 <= g ->
  til.expand
    ((if leftPad =? 0 then [] else [til.mk_run 1 leftPad])
       ++ [til.mk_run ncols 1]
       ++ (if 1 <? g then [til.mk_run 0 (g - 1)] else [])
       ++ (if rightPad =? 0 then [] else [til.mk_run 1 rightPad]))
  = damaged_widths ncols g leftPad rightPad.
Proof.
  intros Hl Hr Hg. unfold damaged_widths.
  assert (Epad : forall n, 0 <= n ->
            til.expand (if n =? 0 then [] else [til.mk_run 1 n]) = repeat 1 (Z.to_nat n)).
  { intros n Hn. destruct (Z.eqb_spec n 0) as [->|_]; [reflexivity|].
    cbn [til.expand til.value til.length]. apply app_nil_r. }
  rewrite !til_facts.expand_app, !Epad by assumption.
  f_equal.
  destruct (Z.ltb_spec 1 g) as [_|Hle].
  - cbn [til.expand til.value til.length].
    change (Z.to_nat 1) with 1%nat. cbn [repeat].
    now rewrite !app_nil_r.
  - replace g with 1 by lia. reflexivity.
Qed.

(** The new runs of the exact branch. *)
Lemma expand_exact_runs (ncols g : Z) :
  1 <= g ->
  til.expand
    (firstn (if g =? 1 then 1 else 2) [til.mk_run ncols 1; til.mk_run 0 (g - 1)])
  = damaged_widths ncols g 0 0.
Proof.
  intros Hg. unfold damaged_widths. cbn [Z.to_nat repeat app].
  rewrite app_nil_r.
  destruct (Z.eqb_spec g 1) as [->|_]; [reflexivity|].
  cbn [firstn til.expand til.value til.length]. now rewrite app_nil_r.
Qed.

Lemma damaged_text_exact (glyph : wstring) : damaged_text glyph 0 0 = glyph.
Proof. unfold damaged_text. cbn [Z.to_nat repeat app]. apply app_nil_r. Qed.

(** Both damage branches of [WriteGlyphAtMeasured] reduce alike once the
    arithmetic is known not to wrap. *)
Ltac damage_branch col ncols glyph len maxD L Hsame :=
  rewrite (sub_sz_exact col) by (unpow; lia);
  rewrite (sub_sz_exact maxD) by (unpow; lia);
  replace (col - (col - columnOffsetWithinGlyph L)) with (columnOffsetWithinGlyph L) by lia;
  rewrite (add_sz_exact (columnOffsetWithinGlyph L)) by (unpow; lia);
  rewrite (add_sz_exact (columnOffsetWithinGlyph L + zlen glyph)) by (unpow; lia);
  rewrite replacement_text by lia; cbn [bind fst snd];
  rewrite wstring_replace_inside by lia; cbn [bind fst snd];
  rewrite !narrow_u16_exact by (unpow; lia);
  unfold til.replace; rewrite expand_damage_runs by lia;
  match goal with
  | |- context [til.compress (firstn ?b ?e ++ ?w ++ skipn ?c ?e)] =>
      change (firstn b e ++ w ++ skipn c e) with (splice e (dataOffset L) (dataOffset L + len) w)
  end;
  rewrite Hsame, Z.eqb_refl by lia; reflexivity.

Section Overwrite.
Import til til_facts.

Variable r : ROW.
Hypothesis Hwf : wf (_cwid r).
Hypothesis HI1 : size (_cwid r) = wsize (_data r).

(** What the damage loop returns for an in-bounds column. *)
Lemma damage_scan_from_lookup (fuel : nat) (col ncols len maxD : Z) :
  0 <= col < columns (_cwid r) -> 0 <= ncols <= 255 ->
  let L := _indicesForCol r col in
  damage_scan fuel r (col + ncols) (dataLength L)
    (col - columnOffsetWithinGlyph L + numberOfColumns L) = Some (len, maxD) ->
  1 <= len
  /\ dataOffset L + len <= size (_cwid r)
  /\ col + ncols <= maxD <= col + ncols + 255.
Proof.
  intros Hcol Hn L Hscan.
  pose proof (wf_columns_bound _ Hwf) as Hcb. change (2 ^ 24) with 16777216 in Hcb.
  pose proof (lookup_inb r Hwf col Hcol) as Hinb. cbv zeta in Hinb. fold L in Hinb.
  pose proof (lookup_next r Hwf col
                (col - columnOffsetWithinGlyph L + numberOfColumns L) Hcol) as Hnext.
  cbv zeta in Hnext. fold L in Hnext.
  specialize (Hnext ltac:(lia) ltac:(unpow; lia)).
  pose proof (damage_scan_exit r _ _ _ _ _ _ Hscan) as Hexit.
  apply (damage_scan_range r Hwf fuel (dataOffset L)) in Hscan;
    [|lia|lia|unfold is_size_t; unpow; lia|exact Hnext].
  lia.
Qed.

Lemma WriteGlyphAtMeasured_result (fuel : nat) (col ncols : Z) (glyph : wstring)
      (len maxD : Z) :
  0 <= col < columns (_cwid r) -> 0 <= ncols <= 255 -> 1 <= wsize glyph <= 2 ^ 16 ->
  let L := _indicesForCol r col in
  damage_scan fuel r (col + ncols) (dataLength L)
    (col - columnOffsetWithinGlyph L + numberOfColumns L) = Some (len, maxD) ->
  WriteGlyphAtMeasured fuel r col ncols glyph
  = Returned (overwritten r col ncols glyph len maxD,
              (dataOffset L + wsize glyph, col + ncols)).
Proof.
  intros Hcol Hn Hg L Hscan.
  pose proof (wf_columns_bound _ Hwf) as Hcb. change (2 ^ 24) with 16777216 in Hcb.
  pose proof (cwid_size_bound r Hwf) as Hsb.
  pose proof (lookup_inb r Hwf col Hcol) as Hinb. cbv zeta in Hinb. fold L in Hinb.
  pose proof (damage_scan_from_lookup fuel col ncols len maxD Hcol Hn Hscan) as Hrange.
  fold L in Hrange.
  pose proof (zlen_expand _ (wf_nonneg _ Hwf)) as Hexp.
  unfold WriteGlyphAtMeasured, overwritten. cbv zeta. fold L.
  unpow.
  rewrite (sub_sz_exact col) by (unpow; lia).
  rewrite (add_sz_exact (col - columnOffsetWithinGlyph L)) by (unpow; lia).
  rewrite (add_sz_exact col ncols) by (unpow; lia).
  rewrite Hscan.
  rewrite (add_sz_exact (dataOffset L) (wsize glyph)) by (unpow; lia).
  rewrite !(add_sz_exact (dataOffset L) len) by (unpow; lia).
  rewrite (sub_sz_exact (wsize glyph)) by (unpow; lia).
  rewrite !(narrow_u16_exact (dataOffset L)) by (unpow; lia).
  rewrite !(narrow_u16_exact (dataOffset L + len)) by (unpow; lia).
  rewrite !(narrow_u16_exact (wsize glyph - 1)) by (unpow; lia).
  rewrite !(narrow_u8_exact ncols) by (unpow; lia).
  rewrite (wstring_replace_inside (_data r) (dataOffset L) len) by lia.
  assert (Hsame : forall lp rp,
             0 <= lp -> 0 <= rp ->
             size (compress
                     (splice (expand (_cwid r)) (dataOffset L) (dataOffset L + len)
                        (damaged_widths ncols (wsize glyph) lp rp)))
             = wsize (splice (_data r) (dataOffset L) (dataOffset L + len)
                        (damaged_text glyph lp rp))).
  { intros lp rp Hlp Hrp. rewrite size_compress.
    rewrite !zlen_splice by (rewrite ?Hexp; lia).
    rewrite zlen_damaged_widths, zlen_damaged_text, Hexp by lia.
    lia. }
  destruct (Z.eqb_spec (col - columnOffsetWithinGlyph L) col) as [Hmin|Hmin];
    [destruct (Z.eqb_spec maxD (col + ncols)) as [Hmax|Hmax]|]; cbn [andb bind fst snd].
  - (* exact overwrite *)
    unfold replace. rewrite expand_exact_runs by lia.
    replace (columnOffsetWithinGlyph L) with 0 by lia.
    replace (maxD - (col + ncols)) with 0 by lia.
    fold (splice (expand (_cwid r)) (dataOffset L) (dataOffset L + len)
            (damaged_widths ncols (wsize glyph) 0 0)).
    pose proof (Hsame 0 0 ltac:(lia) ltac:(lia)) as Hsame0.
    rewrite damaged_text_exact in *.
    rewrite Hsame0, Z.eqb_refl. reflexivity.
  - (* damage on the right only *)
    damage_branch col ncols glyph len maxD L Hsame.
  - (* damage on the left *)
    damage_branch col ncols glyph len maxD L Hsame.
Qed.

End Overwrite.

(** ** Ground facts about the example rows *)

Ltac solve_wf :=
  split; [repeat constructor; cbn; lia | cbn; lia].

Lemma blank_row_wf : til.wf (_cwid (blank_row 10)).
Proof. solve_wf. Defined.

Lemma wide_row_wf : til.wf (_cwid wide_row).
Proof. solve_wf. Defined.

(** The wide write of the specification: the ideograph at column 3 of a
    blank row. *)
Example wide_row_written :
  WriteGlyphAtMeasured 1 (blank_row 10) 3 2 [han] = Returned (wide_row, (4, 5))
  /\ view_text wide_row (GlyphAt wide_row 3) = [han]
  /\ view_text wide_row (GlyphAt wide_row 4) = [han]
  /\ DbcsAttrAt wide_row 3 = Leading
  /\ DbcsAttrAt wide_row 4 = Trailing
  /\ MeasureRight wide_row = 5.
Proof. repeat split. Qed.

(** Left damage: "x" over the second column of the ideograph. *)
Example left_damage_written :
  WriteGlyphAtMeasured 0 wide_row 4 1 [120]
  = Returned (left_damaged_row, (4, 5))
  /\ _cwid left_damaged_row = [til.mk_run 1 10]
  /\ view_text left_damaged_row (GlyphAt left_damaged_row 3) = [UNICODE_SPACE]
  /\ view_text left_damaged_row (GlyphAt left_damaged_row 4) = [120].
Proof. repeat split. Qed.

(** Right damage: the ideograph at column 2, then again at column 3. *)
Example right_damage_written :
  (written <- WriteGlyphAtMeasured 1 (blank_row 10) 2 2 [han] ;;
   WriteGlyphAtMeasured 1 (fst written) 3 2 [han])
  = Returned (wide_row, (3, 5)).
Proof. reflexivity. Qed.

(** A combining mark: one column, two code units. *)
Example combining_row_written :
  WriteGlyphAtMeasured 0 (blank_row 10) 0 1 [101; 769]
  = Returned (combining_row, (2, 1))
  /\ view_text combining_row (GlyphAt combining_row 0) = [101; 769]
  /\ DbcsAttrAt combining_row 0 = Single
  /\ GlyphAt combining_row 1 = mk_view 2 1.
Proof. repeat split. Qed.

(** ** Lookups: trailers, wide glyphs, columns past the end *)

(** C3: for an in-bounds column (the column lies in run [it], after the runs
    [pre]), the lookup extends the code-unit length by the length of the
    run that follows exactly when the column is on the last glyph of its
    run ([colsLeft + value >= value * length]) and the following run exists
    and has value 0; in every other case the length is 1. *)
Theorem indicesForCol_trailers (r : ROW) (pre : til.small_rle) (it : til.rle_type)
        (rest : til.small_rle) (col : Z) :
  til.wf (_cwid r) ->
  _cwid r = pre ++ it :: rest ->
  til.columns pre <= col < til.columns pre + til.value it * til.length it ->
  let colsLeft := col - til.columns pre in
  let lenCU := dataLength (_indicesForCol r col) in
  (colsLeft + til.value it >= til.value it * til.length it
   /\ exists next rest',
       rest = next :: rest' /\ til.value next = 0 /\ lenCU = 1 + til.length next)
  \/ (~ (colsLeft + til.value it >= til.value it * til.length it
         /\ exists next rest', rest = next :: rest' /\ til.value next = 0)
      /\ lenCU = 1).
Proof.
  intros Hwf Hc Hcol colsLeft lenCU. subst lenCU.
  rewrite (indicesForCol_hit r Hwf pre it rest col Hc Hcol).
  cbn [dataLength]. unfold trailer_extent. fold colsLeft.
  destruct (Z.leb_spec (til.value it * til.length it) (colsLeft + til.value it))
    as [Hlast|Hin].
  - destruct rest as [|next rest'].
    + right. split; [|reflexivity].
      intros (_ & next & rest' & Heq & _). discriminate.
    + destruct (Z.eqb_spec (til.value next) 0) as [Hz|Hnz].
      * left. split; [lia|]. exists next, rest'. repeat split. exact Hz.
      * right. split; [|reflexivity].
        intros (_ & next' & rest'' & Heq & Hz). injection Heq as <- _. contradiction.
  - right. split; [|reflexivity]. intros (Hlast & _). lia.
Qed.

Lemma indicesForCol_trailers_witness :
  let it := til.mk_run 1 1 in
  let rest := [til.mk_run 0 1; til.mk_run 1 9] in
  let lenCU := dataLength (_indicesForCol combining_row 0) in
  (0 - 0 + til.value it >= til.value it * til.length it
   /\ exists next rest',
       rest = next :: rest' /\ til.value next = 0 /\ lenCU = 1 + til.length next)
  \/ (~ (0 - 0 + til.value it >= til.value it * til.length it
         /\ exists next rest', rest = next :: rest' /\ til.value next = 0)
      /\ lenCU = 1).
Proof.
  apply (indicesForCol_trailers combining_row
           [] (til.mk_run 1 1) [til.mk_run 0 1; til.mk_run 1 9] 0).
  - solve_wf.
  - reflexivity.
  - cbn. lia.
Defined.

(** C6: a glyph of width [w >= 2] whose first code unit is the [i]-th of
    run [it] starts at column [k]; [GlyphAt] returns the same view, the
    leading code unit and the zero-valued trailers that follow it, for
    each of the columns [k], ..., [k + w - 1]. *)
Theorem GlyphAt_same_view (r : ROW) (pre : til.small_rle) (it : til.rle_type)
        (rest : til.small_rle) (i j : Z) :
  til.wf (_cwid r) ->
  _cwid r = pre ++ it :: rest ->
  2 <= til.value it -> 0 <= i < til.length it -> 0 <= j < til.value it ->
  let k := til.columns pre + til.value it * i in
  GlyphAt r (k + j) = GlyphAt r k
  /\ view_begin (GlyphAt r k) = til.size pre + i
  /\ view_size (GlyphAt r k)
     = 1 + (if i + 1 <? til.length it then 0
            else match rest with
                 | next :: _ => if til.value next =? 0 then til.length next else 0
                 | [] => 0
                 end).
Proof.
  intros Hwf Hc Hw Hi Hj k.
  assert (Hnn : Forall til.nonneg pre).
  { pose proof (til_facts.wf_nonneg _ Hwf) as Hnn. rewrite Hc in Hnn.
    now apply Forall_app in Hnn. }
  pose proof (til_facts.columns_nonneg _ Hnn) as Hp0.
  assert (Hk : til.columns pre <= k /\ k + j < til.columns pre + til.value it * til.length it).
  { unfold k. nia. }
  unfold GlyphAt.
  rewrite (indicesForCol_hit r Hwf pre it rest (k + j) Hc) by lia.
  rewrite (indicesForCol_hit r Hwf pre it rest k Hc) by lia.
  cbn [dataOffset dataLength view_begin view_size].
  assert (Hdiv : forall j', 0 <= j' < til.value it -> (k + j' - til.columns pre) / til.value it = i).
  { intros j' Hj'. unfold k.
    replace (til.columns pre + til.value it * i + j' - til.columns pre)
      with (i * til.value it + j') by lia.
    rewrite Z.div_add_l by lia. rewrite Z.div_small by lia. lia. }
  assert (Hext : forall j', 0 <= j' < til.value it ->
            trailer_extent it rest (k + j' - til.columns pre)
            = 1 + (if i + 1 <? til.length it then 0
                   else match rest with
                        | next :: _ => if til.value next =? 0 then til.length next else 0
                        | [] => 0
                        end)).
  { intros j' Hj'. unfold trailer_extent, k.
    destruct (Z.ltb_spec (i + 1) (til.length it)) as [Hin|Hlast].
    - destruct (Z.leb_spec (til.value it * til.length it)
                  (til.columns pre + til.value it * i + j' - til.columns pre + til.value it));
        [nia|reflexivity].
    - destruct (Z.leb_spec (til.value it * til.length it)
                  (til.columns pre + til.value it * i + j' - til.columns pre + til.value it));
        [|nia].
      destruct rest as [|next rest']; [reflexivity|].
      destruct (til.value next =? 0); lia. }
  pose proof (Hdiv j Hj) as Hdj. pose proof (Hdiv 0 ltac:(lia)) as Hd0.
  pose proof (Hext j Hj) as Hej. pose proof (Hext 0 ltac:(lia)) as He0.
  rewrite Z.add_0_r in Hd0, He0.
  rewrite Hdj, Hd0, Hej, He0. repeat split.
Qed.

Lemma GlyphAt_same_view_witness :
  GlyphAt wide_row 4 = GlyphAt wide_row 3.
Proof.
  apply (GlyphAt_same_view wide_row [til.mk_run 1 3] (til.mk_run 2 1) [til.mk_run 1 5] 0 1).
  - solve_wf.
  - reflexivity.
  - cbn. lia.
  - cbn. lia.
  - cbn. lia.
Defined.

(** C10: for a column past the last run of [_cwid] the lookup answers with
    no columns and offset 0 in the glyph, and [DbcsAttrAt] returns
    [Leading]. *)
Theorem DbcsAttrAt_past_last_run (r : ROW) (col : Z) :
  til.wf (_cwid r) -> is_size_t col -> til.columns (_cwid r) <= col ->
  numberOfColumns (_indicesForCol r col) = 0
  /\ columnOffsetWithinGlyph (_indicesForCol r col) = 0
  /\ DbcsAttrAt r col = Leading.
Proof.
  intros Hwf [H0 H1] Hcol. unfold DbcsAttrAt.
  rewrite (indicesForCol_oob r Hwf col Hcol H1).
  cbn [numberOfColumns columnOffsetWithinGlyph]. repeat split.
Qed.

Lemma DbcsAttrAt_past_last_run_witness : DbcsAttrAt (blank_row 10) 12 = Leading.
Proof.
  apply (DbcsAttrAt_past_last_run (blank_row 10) 12).
  - solve_wf.
  - unfold is_size_t, SIZE_MOD. lia.
  - cbn. lia.
Defined.

(** ** Delimiter classes *)

Lemma wstring_find_None (sv : wstring) (ch : wchar_t) :
  wstring_find sv ch = None <-> ~ In ch sv.
Proof.
  induction sv as [|c rest IH]; cbn [wstring_find In].
  - split; [intros _ []|reflexivity].
  - destruct (Z.eqb_spec c ch) as [->|Hne].
    + split; [discriminate|]. intros H. exfalso. apply H. now left.
    + destruct (wstring_find rest ch) as [i|].
      * split; [discriminate|]. intros H. exfalso.
        assert (Hin : ~ In ch rest) by (intros Hin; apply H; now right).
        apply IH in Hin. discriminate.
      * split; [|reflexivity]. intros _ [Heq|Hin]; [contradiction|].
        now apply (proj1 IH).
Qed.

(** In a row whose column index is as long as its text, the glyph of every
    stored column has a first code unit. *)
Lemma view_front_defined (r : ROW) (col : Z) :
  til.wf (_cwid r) -> til.size (_cwid r) = wsize (_data r) ->
  0 <= col < til.columns (_cwid r) ->
  exists glyph, view_front r (GlyphAt r col) = Returned glyph.
Proof.
  intros Hwf HI1 Hcol. unfold view_front, GlyphAt. cbn [view_begin view_size].
  pose proof (lookup_inb r Hwf col Hcol) as Hinb. cbv zeta in Hinb.
  destruct (Z.eqb_spec (dataLength (_indicesForCol r col)) 0) as [Hz|_]; [lia|].
  destruct (Z.ltb_spec (dataOffset (_indicesForCol r col)) 0) as [Hneg|_]; [lia|].
  cbn [orb].
  destruct (nth_error (_data r) (Z.to_nat (dataOffset (_indicesForCol r col))))
    as [ch|] eqn:Hnth.
  - now exists ch.
  - apply nth_error_None in Hnth. unfold zlen in *. lia.
Qed.

Lemma view_front_no_throw (r : ROW) (v : wstring_view) (e : exception) :
  view_front r v <> Thrown e.
Proof.
  unfold view_front.
  destruct ((view_size v =? 0) || (view_begin v <? 0)); [discriminate|].
  destruct (nth_error (_data r) (Z.to_nat (view_begin v))); discriminate.
Qed.

(** C7: [DelimiterClassAt] fails with [E_INVALIDARG] exactly when
    [col >= width]; for [col < width] the class follows from the first code
    unit of the glyph at [col]: [ControlChar] when it is at most U+0020,
    else [DelimiterChar] when it occurs in the delimiters, else
    [RegularChar].  The method is const: it reads the row and returns no
    new one.  On a row whose column index is as long as its text every
    stored column has a glyph with a first code unit. *)
Theorem DelimiterClassAt_spec (r : ROW) (col : Z) (wordDelimiters : wstring) :
  (DelimiterClassAt r col wordDelimiters = Thrown E_INVALIDARG <-> _rowWidth r <= col)
  /\ (col < _rowWidth r ->
      forall glyph,
        view_front r (GlyphAt r col) = Returned glyph ->
        (glyph <= 32 -> DelimiterClassAt r col wordDelimiters = Returned ControlChar)
        /\ (32 < glyph -> In glyph wordDelimiters ->
            DelimiterClassAt r col wordDelimiters = Returned DelimiterChar)
        /\ (32 < glyph -> ~ In glyph wordDelimiters ->
            DelimiterClassAt r col wordDelimiters = Returned RegularChar))
  /\ (til.wf (_cwid r) -> til.size (_cwid r) = wsize (_data r) ->
      0 <= col < til.columns (_cwid r) ->
      exists glyph, view_front r (GlyphAt r col) = Returned glyph).
Proof.
  split; [|split].
  - unfold DelimiterClassAt.
    destruct (Z.leb_spec (_rowWidth r) col) as [Hge|Hlt].
    + split; [intros _; assumption|reflexivity].
    + split; [|lia].
      pose proof (view_front_no_throw r (GlyphAt r col)) as Hnt.
      destruct (view_front r (GlyphAt r col)) as [glyph|e| |]; cbn [bind];
        try discriminate; [|now destruct (Hnt e)].
      destruct (glyph <=? UNICODE_SPACE); [discriminate|].
      destruct (wstring_find wordDelimiters glyph); discriminate.
  - intros Hlt glyph Hfront. unfold DelimiterClassAt.
    destruct (Z.leb_spec (_rowWidth r) col) as [Hge|_]; [lia|].
    rewrite Hfront. cbn [bind]. unfold UNICODE_SPACE.
    destruct (Z.leb_spec glyph 32) as [Hctl|Hvis].
    + repeat split; intros; try lia.
    + destruct (wstring_find wordDelimiters glyph) as [i|] eqn:Hfind.
      * repeat split; intros; try lia.
        exfalso. apply wstring_find_None in H0. congruence.
      * apply wstring_find_None in Hfind.
        repeat split; intros; try lia. contradiction.
  - apply view_front_defined.
Qed.

Lemma DelimiterClassAt_spec_witness :
  DelimiterClassAt wide_row 10 [45] = Thrown E_INVALIDARG
  /\ DelimiterClassAt wide_row 0 [45; han] = Returned ControlChar
  /\ DelimiterClassAt wide_row 4 [45; han] = Returned DelimiterChar
  /\ DelimiterClassAt wide_row 4 [45] = Returned RegularChar.
Proof.
  split; [|split; [|split]].
  - apply (DelimiterClassAt_spec wide_row 10 [45]). cbn. lia.
  - apply (DelimiterClassAt_spec wide_row 0 [45; han]) with (glyph := 32);
      [cbn; lia|reflexivity|lia].
  - apply (DelimiterClassAt_spec wide_row 4 [45; han]) with (glyph := han);
      [cbn; lia|reflexivity|unfold han; lia|cbn; tauto].
  - apply (DelimiterClassAt_spec wide_row 4 [45]) with (glyph := han);
      [cbn; lia|reflexivity|unfold han; lia|].
    unfold han. cbn. intros [H|[]]. discriminate.
Defined.

(** ** What a call of [WriteGlyphAtMeasured] leaves *)

Lemma replace_shape (c : til.small_rle) (b e : Z) (runs : til.small_rle) :
  til.expand runs <> [] ->
  til.replace c b e runs <> []
  /\ Forall (fun run => 1 <= til.length run) (til.replace c b e runs).
Proof.
  intros Hne. unfold til.replace. split; [|apply til_facts.compress_lengths].
  intros Hnil. apply til_facts.compress_nil_inv in Hnil.
  apply app_eq_nil in Hnil as [_ Hnil]. apply app_eq_nil in Hnil as [Hnil _].
  contradiction.
Qed.

(** A call that returns went through the damage loop, replaced text and
    column index, repaired the length of the column index where needed,
    and raised the watermark. *)
Lemma WriteGlyphAtMeasured_inv (fuel : nat) (r : ROW) (col ncols : Z) (glyph : wstring)
      (r' : ROW) (res : Z * Z) :
  WriteGlyphAtMeasured fuel r col ncols glyph = Returned (r', res) ->
  let L := _indicesForCol r col in
  exists len maxD data' cw,
    damage_scan fuel r (add_sz col ncols) (dataLength L)
      (add_sz (sub_sz col (columnOffsetWithinGlyph L)) (numberOfColumns L))
    = Some (len, maxD)
    /\ r' = mk_ROW (_lineRendition r) (_rowWidth r) (_wrapForced r) (_doubleBytePadded r)
              data'
              (if til.size cw =? wsize data' then cw
               else til.resize_trailing_extent cw (narrow_u16 (wsize data')))
              (Z.max (_maxc r) maxD)
    /\ res = (add_sz (dataOffset L) (wsize glyph), add_sz col ncols)
    /\ cw <> []
    /\ Forall (fun run => 1 <= til.length run) cw.
Proof.
  unfold WriteGlyphAtMeasured. cbv zeta.
  set (L := _indicesForCol r col).
  destruct (damage_scan fuel r (add_sz col ncols) (dataLength L)
              (add_sz (sub_sz col (columnOffsetWithinGlyph L)) (numberOfColumns L)))
    as [[len maxD]|]; [|discriminate].
  destruct ((sub_sz col (columnOffsetWithinGlyph L) =? col) && (maxD =? add_sz col ncols)).
  - destruct (wstring_replace (_data r) (dataOffset L) len glyph) as [data'| | |];
      cbn [bind fst snd]; try discriminate.
    intros H. injection H as <- <-.
    eexists len, maxD, data', _. repeat split; try reflexivity.
    + apply replace_shape. destruct (zlen glyph =? 1); discriminate.
    + apply replace_shape. destruct (zlen glyph =? 1); discriminate.
  - destruct (wstring_replace _ _ (zlen glyph) glyph) as [replacement| | |];
      cbn [bind fst snd]; try discriminate.
    destruct (wstring_replace (_data r) (dataOffset L) len replacement) as [data'| | |];
      cbn [bind fst snd]; try discriminate.
    intros H. injection H as <- <-.
    assert (Hne : forall p q : til.small_rle,
               til.expand (p ++ [til.mk_run (narrow_u8 ncols) 1] ++ q) <> []).
    { intros p q. rewrite !til_facts.expand_app. intros Hnil.
      apply app_eq_nil in Hnil as [_ Hnil]. apply app_eq_nil in Hnil as [Hnil _].
      discriminate. }
    eexists len, maxD, data', _. repeat split; try reflexivity.
    + apply replace_shape, Hne.
    + apply replace_shape, Hne.
Qed.


(** ** Termination of the overwrite *)

(** A write that ends within the stored columns returns, with one unit of
    fuel per written column. *)
Lemma WriteGlyphAtMeasured_returns (fuel : nat) (r : ROW) (col ncols : Z) (glyph : wstring) :
  til.wf (_cwid r) -> til.size (_cwid r) = wsize (_data r) ->
  0 <= col < til.columns (_cwid r) -> 0 <= ncols <= 255 ->
  col + ncols <= til.columns (_cwid r) ->
  1 <= wsize glyph <= 2 ^ 16 ->
  (Z.to_nat ncols <= fuel)%nat ->
  exists len maxD,
    WriteGlyphAtMeasured fuel r col ncols glyph
    = Returned (overwritten r col ncols glyph len maxD,
                (dataOffset (_indicesForCol r col) + wsize glyph, col + ncols)).
Proof.
  intros Hwf HI1 Hcol Hn Hend Hg Hfuel.
  pose proof (lookup_inb r Hwf col Hcol) as Hinb. cbv zeta in Hinb.
  pose proof (lookup_glyph_end_aligned r Hwf col Hcol) as Hal. cbv zeta in Hal.
  destruct (damage_scan_terminates r Hwf fuel (col + ncols)
              (dataLength (_indicesForCol r col))
              (col - columnOffsetWithinGlyph (_indicesForCol r col)
               + numberOfColumns (_indicesForCol r col)))
    as (len & maxD & Hscan); [assumption|lia|assumption|lia|].
  exists len, maxD.
  now apply WriteGlyphAtMeasured_result.
Qed.

(** A write that ends past the stored columns never leaves the damage
    loop, whatever the fuel. *)
Lemma WriteGlyphAtMeasured_diverges (fuel : nat) (r : ROW) (col ncols : Z) (glyph : wstring) :
  til.wf (_cwid r) -> is_size_t col -> 1 <= ncols -> col + ncols < SIZE_MOD ->
  til.columns (_cwid r) < col + ncols ->
  WriteGlyphAtMeasured fuel r col ncols glyph = OutOfFuel.
Proof.
  intros Hwf [Hc0 Hc1] Hn Hsum Hpast.
  pose proof (til_facts.wf_columns_bound _ Hwf) as Hcb.
  change (2 ^ 24) with 16777216 in Hcb.
  unfold WriteGlyphAtMeasured. cbv zeta.
  rewrite (add_sz_exact col ncols) by lia.
  destruct (Z.le_gt_cases (til.columns (_cwid r)) col) as [Hoob|Hin].
  - rewrite (indicesForCol_oob r Hwf col Hoob Hc1).
    cbn [dataOffset dataLength columnOffsetWithinGlyph numberOfColumns].
    rewrite (sub_sz_exact col 0), Z.sub_0_r by lia.
    rewrite (add_sz_exact col 0), Z.add_0_r by lia.
    rewrite damage_scan_stuck; [reflexivity| |split; lia|lia].
    now rewrite (indicesForCol_oob r Hwf col Hoob Hc1).
  - pose proof (lookup_inb r Hwf col ltac:(lia)) as Hinb. cbv zeta in Hinb.
    pose proof (lookup_glyph_end_aligned r Hwf col ltac:(lia)) as Hal. cbv zeta in Hal.
    rewrite (sub_sz_exact col) by (unpow; lia).
    rewrite (add_sz_exact (col - _)) by (unpow; lia).
    rewrite (damage_scan_diverges r Hwf); [reflexivity|lia| |lia|assumption].
    unfold is_size_t. unpow. lia.
Qed.

(** C5: the call [WriteGlyphAtMeasured(9, 2, glyph)] on a blank row of ten
    columns ends one column past the stored columns: the lookup of column
    10 covers no column, the damage loop stays at column 10, and no amount
    of fuel lets the call return. *)
Theorem WriteGlyphAtMeasured_past_end_never_returns :
  forall fuel : nat, WriteGlyphAtMeasured fuel (blank_row 10) 9 2 [han] = OutOfFuel.
Proof.
  intros fuel. apply WriteGlyphAtMeasured_diverges.
  - exact blank_row_wf.
  - unfold is_size_t, SIZE_MOD. lia.
  - lia.
  - unfold SIZE_MOD. lia.
  - cbn. lia.
Qed.

(** ** The watermark *)

(** The columns of one glyph give the same width, and offsets that count
    from its first column. *)
Lemma lookup_same_glyph (r : ROW) (c c' : Z) :
  til.wf (_cwid r) -> 0 <= c < til.columns (_cwid r) ->
  let L := _indicesForCol r c in
  c - columnOffsetWithinGlyph L <= c' < c - columnOffsetWithinGlyph L + numberOfColumns L ->
  numberOfColumns (_indicesForCol r c') = numberOfColumns L
  /\ columnOffsetWithinGlyph (_indicesForCol r c') = c' - (c - columnOffsetWithinGlyph L)
  /\ 0 <= c' < til.columns (_cwid r).
Proof.
  intros Hwf Hc L.
  destruct (columns_split (_cwid r) c (til_facts.wf_nonneg _ Hwf) Hc)
    as (pre & it & rest & Hcw & Hrange).
  assert (Hok : til.run_ok it).
  { pose proof (proj1 Hwf) as Hall. rewrite Hcw in Hall.
    apply Forall_app in Hall. destruct Hall as [_ Hall]. now apply Forall_inv in Hall. }
  assert (Hnn : Forall til.nonneg pre /\ Forall til.nonneg rest).
  { pose proof (til_facts.wf_nonneg _ Hwf) as Hall. rewrite Hcw in Hall.
    apply Forall_app in Hall. destruct Hall as [Hp Hall].
    split; [assumption|now apply Forall_inv_tail in Hall]. }
  pose proof (til_facts.columns_nonneg _ (proj1 Hnn)) as Hp0.
  pose proof (til_facts.columns_nonneg _ (proj2 Hnn)) as Hr0.
  pose proof (til_facts.columns_app pre (it :: rest)) as Happ.
  rewrite <- Hcw in Happ. cbn [til.columns] in Happ.
  set (cl := c - til.columns pre) in *.
  assert (Hcl : 0 <= cl < til.value it * til.length it) by (unfold cl; lia).
  destruct (hit_run_facts it cl Hok Hcl) as (Hv & Hq & Hm).
  pose proof (Z.div_mod cl (til.value it) ltac:(lia)) as Hdm.
  assert (Hhere : L = mk_lookup (til.size pre + cl / til.value it)
                        (trailer_extent it rest cl) (cl mod til.value it)
                        (til.value it)).
  { apply (indicesForCol_hit r Hwf pre it rest c Hcw). lia. }
  rewrite Hhere. cbn [columnOffsetWithinGlyph numberOfColumns]. intros Hc'.
  set (e := c' - (c - cl mod til.value it)) in *.
  assert (He : 0 <= e < til.value it) by (unfold e; lia).
  assert (Hcl' : c' - til.columns pre = til.value it * (cl / til.value it) + e)
    by (unfold e, cl in *; lia).
  assert (Hqr : (c' - til.columns pre) / til.value it = cl / til.value it
                /\ (c' - til.columns pre) mod til.value it = e).
  { destruct (Z.div_mod_unique (til.value it) ((c' - til.columns pre) / til.value it)
                (cl / til.value it) ((c' - til.columns pre) mod til.value it) e)
      as [Hq1 Hr1].
    - left. apply Z.mod_pos_bound. lia.
    - left. lia.
    - rewrite <- Z.div_mod by lia. exact Hcl'.
    - split; assumption. }
  assert (Hfit : 0 <= c' - til.columns pre < til.value it * til.length it) by nia.
  rewrite (indicesForCol_hit r Hwf pre it rest c' Hcw) by lia.
  cbn [columnOffsetWithinGlyph numberOfColumns].
  split; [reflexivity|]. split; [exact (proj2 Hqr)|]. lia.
Qed.

(** The damage loop moves from the end of one glyph to the end of the
    next: it is left at the end of the glyph that holds the last column
    written. *)
Lemma damage_scan_glyph_end (r : ROW) (colEnd cstar : Z) (fuel : nat) :
  til.wf (_cwid r) -> colEnd <= til.columns (_cwid r) ->
  cstar < til.columns (_cwid r) -> colEnd - 1 <= cstar ->
  forall len maxD len' maxD',
    (exists c, 0 <= c <= cstar
               /\ maxD = c - columnOffsetWithinGlyph (_indicesForCol r c)
                         + numberOfColumns (_indicesForCol r c)) ->
    cstar < maxD \/ cstar = colEnd - 1 ->
    damage_scan fuel r colEnd len maxD = Some (len', maxD') ->
    maxD' = cstar - columnOffsetWithinGlyph (_indicesForCol r cstar)
            + numberOfColumns (_indicesForCol r cstar).
Proof.
  intros Hwf Hfit Hstar Hlast.
  pose proof (til_facts.wf_columns_bound _ Hwf) as Hcb.
  change (2 ^ 24) with 16777216 in Hcb.
  pose proof SIZE_MOD_eq as HS.
  induction fuel as [|fuel IH]; intros len maxD len' maxD' (c & Hc & HmaxD) Hlo;
    cbn [damage_scan]; destruct (Z.ltb_spec maxD colEnd) as [Hlt|Hge]; intros H;
    try discriminate.
  1, 3: injection H as <- <-;
    pose proof (lookup_inb r Hwf c ltac:(lia)) as Hinb; cbv zeta in Hinb;
    destruct (lookup_same_glyph r c cstar Hwf ltac:(lia) ltac:(lia)) as (Hw & Ho & _);
    lia.
  pose proof (lookup_inb r Hwf c ltac:(lia)) as Hinb. cbv zeta in Hinb.
  pose proof (lookup_glyph_end_aligned r Hwf c ltac:(lia)) as Hal. cbv zeta in Hal.
  rewrite <- HmaxD in Hal.
  pose proof (lookup_inb r Hwf maxD ltac:(lia)) as Hinb'. cbv zeta in Hinb'.
  rewrite (add_sz_exact maxD) in H by lia.
  apply IH in H; [exact H| |lia].
  exists maxD. split; lia.
Qed.

(** C4: on a well-formed row, after every call that returns,
    [MeasureRight] is the maximum of its previous value and
    [maxDamageColExcl], the right edge of the damage: the end of the old
    glyph that holds the last column written (the column [col] itself
    when no column is written).  That edge is at least [col + ncols], and
    the watermark never decreases.  A call at a stored column whose
    columns fit in the row does return. *)
Theorem MeasureRight_after_write (fuel : nat) (r : ROW) (col ncols : Z) (glyph : wstring) :
  til.wf (_cwid r) -> is_size_t col -> 0 <= ncols -> col + ncols < SIZE_MOD ->
  let last := Z.max col (col + ncols - 1) in
  let maxDamageColExcl :=
    last - columnOffsetWithinGlyph (_indicesForCol r last)
    + numberOfColumns (_indicesForCol r last) in
  (forall r' res,
      WriteGlyphAtMeasured fuel r col ncols glyph = Returned (r', res) ->
      MeasureRight r' = Z.max (MeasureRight r) maxDamageColExcl
      /\ col + ncols <= maxDamageColExcl
      /\ MeasureRight r <= MeasureRight r')
  /\ (til.size (_cwid r) = wsize (_data r) ->
      col < til.columns (_cwid r) -> col + ncols <= til.columns (_cwid r) ->
      ncols <= 255 -> 1 <= wsize glyph <= 2 ^ 16 -> (Z.to_nat ncols <= fuel)%nat ->
      exists r' res, WriteGlyphAtMeasured fuel r col ncols glyph = Returned (r', res)).
Proof.
  intros Hwf [Hc0 Hc1] Hn Hsum last maxDamageColExcl.
  pose proof (til_facts.wf_columns_bound _ Hwf) as Hcb.
  change (2 ^ 24) with 16777216 in Hcb.
  pose proof SIZE_MOD_eq as HS.
  split.
  - intros r' res H.
    destruct (WriteGlyphAtMeasured_inv _ _ _ _ _ _ _ H)
      as (len & maxD & data' & cw & Hscan & -> & _).
    pose proof (damage_scan_exit _ _ _ _ _ _ _ Hscan) as Hexit.
    rewrite (add_sz_exact col ncols) in Hscan, Hexit by lia.
    assert (HmaxD : maxD = maxDamageColExcl).
    { destruct (Z.lt_ge_cases col (til.columns (_cwid r))) as [Hin|Hout].
      - (* a stored column *)
        pose proof (lookup_inb r Hwf col ltac:(lia)) as Hinb. cbv zeta in Hinb.
        rewrite (sub_sz_exact col) in Hscan by lia.
        rewrite (add_sz_exact (col - _)) in Hscan by lia.
        assert (Hfit : col + ncols <= til.columns (_cwid r)).
        { destruct (Z.le_gt_cases (col + ncols) (til.columns (_cwid r))) as [Hle|Hgt];
            [assumption|].
          rewrite (WriteGlyphAtMeasured_diverges fuel r col ncols glyph Hwf) in H;
            [discriminate|split; lia|lia|lia|lia]. }
        apply (damage_scan_glyph_end r (col + ncols) last fuel Hwf Hfit
                 ltac:(unfold last; lia) ltac:(unfold last; lia) _ _ _ _) in Hscan;
          [exact Hscan| |unfold last; lia].
        exists col. split; [unfold last; lia|reflexivity].
      - (* past the last stored column the lookup covers no column *)
        revert Hscan.
        rewrite (indicesForCol_oob r Hwf col Hout Hc1).
        cbn [dataLength columnOffsetWithinGlyph numberOfColumns].
        rewrite (sub_sz_exact col 0), Z.sub_0_r by lia.
        rewrite (add_sz_exact col 0), Z.add_0_r by lia.
        destruct (Z.lt_ge_cases col (col + ncols)) as [Hlt|Hge].
        + rewrite damage_scan_stuck; [discriminate| |split; lia|lia].
          now rewrite (indicesForCol_oob r Hwf col Hout Hc1).
        + rewrite damage_scan_done by lia. intros [= _ <-].
          unfold maxDamageColExcl, last.
          replace (Z.max col (col + ncols - 1)) with col by lia.
          rewrite (indicesForCol_oob r Hwf col Hout Hc1).
          cbn [columnOffsetWithinGlyph numberOfColumns]. lia. }
    unfold MeasureRight. cbn [_maxc]. rewrite <- HmaxD. repeat split; lia.
  - intros HI1 Hcol Hfit Hn255 Hg Hfuel.
    destruct (WriteGlyphAtMeasured_returns fuel r col ncols glyph Hwf HI1
                ltac:(lia) ltac:(lia) Hfit Hg Hfuel) as (len & maxD & H).
    eexists. eexists. exact H.
Qed.

Lemma MeasureRight_after_write_witness :
  (forall r' res,
      WriteGlyphAtMeasured 2 two_wide_row 4 2 [han] = Returned (r', res) ->
      MeasureRight r'
      = Z.max (MeasureRight two_wide_row)
          (Z.max 4 (4 + 2 - 1)
           - columnOffsetWithinGlyph (_indicesForCol two_wide_row (Z.max 4 (4 + 2 - 1)))
           + numberOfColumns (_indicesForCol two_wide_row (Z.max 4 (4 + 2 - 1))))
      /\ 4 + 2
         <= Z.max 4 (4 + 2 - 1)
            - columnOffsetWithinGlyph (_indicesForCol two_wide_row (Z.max 4 (4 + 2 - 1)))
            + numberOfColumns (_indicesForCol two_wide_row (Z.max 4 (4 + 2 - 1)))
      /\ MeasureRight two_wide_row <= MeasureRight r')
  /\ (til.size (_cwid two_wide_row) = wsize (_data two_wide_row) ->
      4 < til.columns (_cwid two_wide_row) -> 4 + 2 <= til.columns (_cwid two_wide_row) ->
      2 <= 255 -> 1 <= wsize [han] <= 2 ^ 16 -> (Z.to_nat 2 <= 2)%nat ->
      exists r' res, WriteGlyphAtMeasured 2 two_wide_row 4 2 [han] = Returned (r', res)).
Proof.
  apply (MeasureRight_after_write 2 two_wide_row 4 2 [han]).
  - solve_wf.
  - unfold is_size_t, SIZE_MOD. lia.
  - lia.
  - unfold SIZE_MOD. lia.
Defined.

(** On [two_wide_row] the damage loop runs once and ends at column 7,
    past [col + ncols = 6]: the watermark moves from column 0 to column
    7. *)
Example damage_loop_watermark :
  WriteGlyphAtMeasured 2 two_wide_row 4 2 [han] = Returned (two_wide_row_written, (4, 6))
  /\ damage_scan 2 two_wide_row (4 + 2) 1 5 = Some (2, 7)
  /\ 5 - columnOffsetWithinGlyph (_indicesForCol two_wide_row 5)
     + numberOfColumns (_indicesForCol two_wide_row 5) = 7
  /\ MeasureRight two_wide_row = 0
  /\ MeasureRight two_wide_row_written = 7.
Proof. repeat split. Qed.

(** The watermark of that write is column 5, past [col + ncols = 4]. *)
Example right_damage_watermark :
  damage_scan 0 wide_row (add_sz 3 1) 1 (add_sz (sub_sz 3 0) 2) = Some (1, 5)
  /\ WriteGlyphAtMeasured 0 wide_row 3 1 [120] = Returned (right_damaged_row, (4, 4)).
Proof. split; reflexivity. Qed.

(** ** Exact overwrite *)

(** C2, as stated, fails when [ncols] does not fit the [uint8_t] value of
    a run: on a blank row of 300 columns the call
    [WriteGlyphAtMeasured(0, 256, "x")] is an exact overwrite (the lookup of
    column 0 has offset 0 and the damage loop ends at column 256), and the
    column index receives the run [(0, 1)], not [(256, 1)]. *)
Lemma exact_overwrite_truncates_ncols :
  columnOffsetWithinGlyph (_indicesForCol (blank_row 300) 0) = 0
  /\ damage_scan 256 (blank_row 300) (add_sz 0 256) 1 (add_sz (sub_sz 0 0) 1)
     = Some (256, add_sz 0 256)
  /\ WriteGlyphAtMeasured 256 (blank_row 300) 0 256 [120]
     = Returned (truncated_row, (1, 256))
  /\ til.expand (_cwid truncated_row) = 0 :: repeat 1 44.
Proof. repeat split; vm_compute; reflexivity. Qed.

(** C2, amended: on a row with [len(cwid) = len(data)], when the lookup of
    [col] gives [minDamageCol = col], the damage loop ends with
    [maxDamageColExcl = col + ncols], [ncols <= 255] (the value a run can
    hold) and the new text, of [len(data) - lenCU + g] code units, is
    shorter than [2 ^ 16] code units (the sizes the column index can
    hold), the call returns; the code units [beginCU, beginCU + lenCU) of
    the text are replaced by the glyph, and the same range of the column
    index is replaced by the runs [(ncols, 1); (0, g - 1)], the second one
    left out when [g = 1]; the column index has one entry per code unit
    of the new text. *)
Theorem exact_overwrite (fuel : nat) (r : ROW) (col ncols : Z) (glyph : wstring) (lenCU : Z) :
  til.wf (_cwid r) -> til.size (_cwid r) = wsize (_data r) ->
  is_size_t col -> 1 <= ncols <= 255 -> 1 <= wsize glyph ->
  wsize (_data r) - lenCU + wsize glyph < 2 ^ 16 ->
  let L := _indicesForCol r col in
  let beginCU := dataOffset L in
  let minDamageCol := sub_sz col (columnOffsetWithinGlyph L) in
  minDamageCol = col ->
  damage_scan fuel r (add_sz col ncols) (dataLength L)
    (add_sz minDamageCol (numberOfColumns L)) = Some (lenCU, add_sz col ncols) ->
  let newRuns :=
    til.mk_run ncols 1
      :: (if wsize glyph =? 1 then [] else [til.mk_run 0 (wsize glyph - 1)]) in
  exists r',
    WriteGlyphAtMeasured fuel r col ncols glyph
    = Returned (r', (beginCU + wsize glyph, col + ncols))
    /\ _data r' = splice (_data r) beginCU (beginCU + lenCU) glyph
    /\ _cwid r' = til.replace (_cwid r) beginCU (beginCU + lenCU) newRuns
    /\ til.expand (_cwid r')
       = splice (til.expand (_cwid r)) beginCU (beginCU + lenCU)
           (ncols :: repeat 0 (Z.to_nat (wsize glyph - 1)))
    /\ 0 <= beginCU /\ 1 <= lenCU /\ beginCU + lenCU <= wsize (_data r)
    /\ wsize (_data r') = wsize (_data r) - lenCU + wsize glyph
    /\ til.size (_cwid r') = wsize (_data r').
Proof.
  intros Hwf HI1 [Hc0 Hc1] Hn Hg1 Hnew L beginCU minDamageCol Hmin Hscan newRuns.
  pose proof (til_facts.wf_columns_bound _ Hwf) as Hcb.
  change (2 ^ 24) with 16777216 in Hcb.
  assert (Hcol : col < til.columns (_cwid r)).
  { destruct (Z.le_gt_cases (til.columns (_cwid r)) col) as [Hoob|Hin]; [|assumption].
    exfalso. revert Hscan. subst minDamageCol L.
    rewrite (indicesForCol_oob r Hwf col Hoob Hc1).
    cbn [dataOffset dataLength columnOffsetWithinGlyph numberOfColumns].
    rewrite (sub_sz_exact col 0), Z.sub_0_r by lia.
    rewrite (add_sz_exact col 0), Z.add_0_r by lia.
    destruct (Z.lt_ge_cases col (add_sz col ncols)) as [Hlt|Hge].
    - rewrite damage_scan_stuck; [discriminate| |split; lia|lia].
      now rewrite (indicesForCol_oob r Hwf col Hoob Hc1).
    - rewrite damage_scan_done by lia. intros [= _ Heq].
      unfold add_sz in Heq. unpow.
      destruct (Z.lt_ge_cases (col + ncols) 18446744073709551616) as [Hs|Hs].
      + rewrite Z.mod_small in Heq by lia. lia.
      + replace (col + ncols) with ((col + ncols - 18446744073709551616)
                                    + 1 * 18446744073709551616) in Heq at 1 by lia.
        rewrite Z.mod_add, Z.mod_small in Heq by lia. lia. }
  pose proof (lookup_inb r Hwf col ltac:(lia)) as Hinb. cbv zeta in Hinb. fold L in Hinb.
  subst minDamageCol.
  rewrite (sub_sz_exact col) in Hmin, Hscan by (unpow; lia).
  rewrite (add_sz_exact col ncols) in Hscan by (unpow; lia).
  rewrite (add_sz_exact (col - _)) in Hscan by (unpow; lia).
  pose proof (damage_scan_from_lookup r Hwf fuel col ncols lenCU (col + ncols)
                ltac:(lia) ltac:(lia) Hscan) as Hrange. fold L in Hrange.
  pose proof (til_facts.zlen_expand _ (til_facts.wf_nonneg _ Hwf)) as Hexp.
  assert (Hg : 1 <= wsize glyph <= 2 ^ 16).
  { change (2 ^ 16) with 65536 in *. lia. }
  pose proof (WriteGlyphAtMeasured_result r Hwf HI1 fuel col ncols glyph lenCU
                (col + ncols) ltac:(lia) ltac:(lia) Hg Hscan) as Hres. fold L in Hres.
  exists (overwritten r col ncols glyph lenCU (col + ncols)).
  split; [exact Hres|].
  unfold overwritten. cbv zeta. fold L. fold beginCU.
  cbn [_data _cwid].
  replace (columnOffsetWithinGlyph L) with 0 by lia.
  rewrite Z.sub_diag, damaged_text_exact.
  assert (Hruns : til.expand newRuns = damaged_widths ncols (zlen glyph) 0 0).
  { unfold newRuns, damaged_widths. cbn [Z.to_nat repeat app].
    rewrite app_nil_r.
    destruct (Z.eqb_spec (zlen glyph) 1) as [->|_]; [reflexivity|].
    cbn [til.expand til.value til.length]. change (Z.to_nat 1) with 1%nat.
    cbn [repeat app]. now rewrite app_nil_r. }
  assert (Hwid : damaged_widths ncols (zlen glyph) 0 0
                 = ncols :: repeat 0 (Z.to_nat (zlen glyph - 1))).
  { unfold damaged_widths. cbn [Z.to_nat repeat app]. now rewrite app_nil_r. }
  assert (Hlen : zlen (splice (_data r) beginCU (beginCU + lenCU) glyph)
                 = zlen (_data r) - lenCU + zlen glyph).
  { fold beginCU in Hrange. rewrite zlen_splice by lia. lia. }
  repeat split; try (fold beginCU in Hrange; lia).
  - unfold til.replace. rewrite Hruns. reflexivity.
  - rewrite til_facts.expand_compress, Hwid. reflexivity.
  - rewrite til_facts.size_compress, Hlen.
    fold beginCU in Hrange.
    rewrite zlen_splice by (rewrite ?Hexp; lia).
    rewrite zlen_damaged_widths, Hexp by lia. lia.
Qed.

Lemma exact_overwrite_witness :
  exists r',
    WriteGlyphAtMeasured 1 (blank_row 10) 3 2 [han] = Returned (r', (3 + 1, 3 + 2))
    /\ _data r' = splice (_data (blank_row 10)) 3 (3 + 2) [han]
    /\ _cwid r' = til.replace (_cwid (blank_row 10)) 3 (3 + 2) [til.mk_run 2 1]
    /\ til.expand (_cwid r')
       = splice (til.expand (_cwid (blank_row 10))) 3 (3 + 2) (2 :: repeat 0 (Z.to_nat (1 - 1)))
    /\ 0 <= 3 /\ 1 <= 2 /\ 3 + 2 <= wsize (_data (blank_row 10))
    /\ wsize (_data r') = wsize (_data (blank_row 10)) - 2 + wsize [han]
    /\ til.size (_cwid r') = wsize (_data r').
Proof.
  apply (exact_overwrite 1 (blank_row 10) 3 2 [han] 2).
  - exact blank_row_wf.
  - reflexivity.
  - unfold is_size_t, SIZE_MOD. lia.
  - lia.
  - cbn. lia.
  - vm_compute. reflexivity.
  - reflexivity.
  - reflexivity.
Defined.

(** ** Alignment of text and column index *)




(** ** The returned offset *)

(** C1: writing "x" over the second column of the ideograph of [wide_row]
    damages one column on the left ([leftPad = 1]); the new text holds the
    blank at code unit 3 and "x" at code unit 4, so the offset after the
    written glyph is 5, and the call returns the offset 4. *)
Theorem left_damage_returned_offset :
  columnOffsetWithinGlyph (_indicesForCol wide_row 4) = 1
  /\ WriteGlyphAtMeasured 0 wide_row 4 1 [120] = Returned (left_damaged_row, (4, 5))
  /\ view_text left_damaged_row (mk_view 3 1) = [UNICODE_SPACE]
  /\ view_text left_damaged_row (mk_view 4 1) = [120].
Proof. repeat split. Qed.

(** After a write with damage the glyph lies [leftPad] code units after
    [beginCU], whereas the returned offset is [beginCU + g]. *)
Lemma written_glyph_position (fuel : nat) (r : ROW) (col ncols : Z) (glyph : wstring)
      (len maxD : Z) :
  til.wf (_cwid r) -> til.size (_cwid r) = wsize (_data r) ->
  0 <= col < til.columns (_cwid r) -> 0 <= ncols <= 255 -> 1 <= wsize glyph <= 2 ^ 16 ->
  let L := _indicesForCol r col in
  let leftPad := columnOffsetWithinGlyph L in
  damage_scan fuel r (col + ncols) (dataLength L)
    (col - leftPad + numberOfColumns L) = Some (len, maxD) ->
  exists r',
    WriteGlyphAtMeasured fuel r col ncols glyph
    = Returned (r', (dataOffset L + wsize glyph, col + ncols))
    /\ view_text r' (mk_view (dataOffset L + leftPad) (wsize glyph)) = glyph.
Proof.
  intros Hwf HI1 Hcol Hn Hg L leftPad Hscan.
  pose proof (lookup_inb r Hwf col Hcol) as Hinb. cbv zeta in Hinb. fold L in Hinb.
  pose proof (damage_scan_from_lookup r Hwf fuel col ncols len maxD Hcol Hn Hscan)
    as Hrange. fold L in Hrange.
  exists (overwritten r col ncols glyph len maxD).
  split; [now apply WriteGlyphAtMeasured_result|].
  unfold view_text, overwritten, splice, damaged_text. cbv zeta.
  cbn [_data view_begin view_size]. fold L. fold leftPad.
  assert (Hpre : Z.to_nat (dataOffset L + leftPad)
                 = (List.length (firstn (Z.to_nat (dataOffset L)) (_data r)
                                   ++ repeat UNICODE_SPACE (Z.to_nat leftPad)))%nat).
  { rewrite length_app, length_firstn, repeat_length.
    unfold zlen in HI1. subst leftPad. lia. }
  rewrite <- !app_assoc.
  rewrite (app_assoc (firstn _ _) (repeat _ _)), Hpre.
  rewrite skipn_app, Nat.sub_diag, skipn_all. cbn [skipn app].
  rewrite firstn_app.
  replace (Z.to_nat (zlen glyph)) with (List.length glyph) by (unfold zlen; lia).
  rewrite Nat.sub_diag, firstn_all. cbn [firstn]. apply app_nil_r.
Qed.

(** ** Calls with no column or no code unit *)






(** * The lookup, position by position *)

Ltac finish_lookup :=
  cbn [dataOffset dataLength columnOffsetWithinGlyph numberOfColumns];
  f_equal; lia.

Section PositionWise.
Import til til_facts.

Lemma indicesForCol_lookup_from (r : ROW) (col : Z) :
  _indicesForCol r col = lookup_from (_cwid r) (zlen (_data r)) col 0 0.
Proof. reflexivity. Qed.

Lemma leading_zeros_nonneg (l : list Z) : 0 <= leading_zeros l <= zlen l.
Proof.
  induction l as [|v tl IH]; cbn [leading_zeros].
  - unfold zlen. cbn. lia.
  - rewrite zlen_cons. destruct (v =? 0); lia.
Qed.

Lemma leading_zeros_compress (l : list Z) :
  leading_zeros l
  = match compress l with
    | r :: _ => if value r =? 0 then length r else 0
    | [] => 0
    end.
Proof.
  induction l as [|v tl IH]; [reflexivity|].
  cbn [leading_zeros compress].
  destruct (compress tl) as [|r rs].
  - cbn [value length]. destruct (v =? 0); lia.
  - destruct (Z.eqb_spec (value r) v) as [Hv|Hv]; cbn [value length].
    + subst v. destruct (value r =? 0); lia.
    + destruct (Z.eqb_spec v 0) as [->|Hz]; [|reflexivity].
      destruct (Z.eqb_spec (value r) 0); [contradiction|lia].
Qed.

Lemma widths_sum_bound (l : list Z) :
  byte_values l -> 0 <= widths_sum l <= 255 * zlen l.
Proof.
  induction 1 as [|v tl Hv _ IH]; cbn [widths_sum].
  - unfold zlen. cbn. lia.
  - rewrite zlen_cons. lia.
Qed.

Lemma compress_head_facts (l : list Z) (r : rle_type) (rs : small_rle) :
  byte_values l -> compress l = r :: rs ->
  0 <= value r < 256 /\ 1 <= length r <= zlen l.
Proof.
  intros Hl E.
  pose proof (compress_lengths l) as Hlen. rewrite E in Hlen.
  apply Forall_inv in Hlen.
  pose proof (size_compress l) as Hsz. rewrite E in Hsz. cbn [size] in Hsz.
  assert (Hrs : 0 <= size rs).
  { pose proof (compress_lengths l) as H. rewrite E in H. apply Forall_inv_tail in H.
    clear - H. induction H as [|x xs Hx _ IH]; cbn [size]; lia. }
  split; [|lia].
  destruct l as [|v tl]; [discriminate|].
  cbn [compress] in E. apply Forall_inv in Hl.
  destruct (compress tl) as [|r' rs'].
  - injection E as <- _. exact Hl.
  - destruct (value r' =? v); injection E as <- _; exact Hl.
Qed.

Lemma lookup_from_skip (it : rle_type) (rest : small_rle) (dataSize col cc cw : Z) :
  add_sz cc (value it * length it) <= col ->
  lookup_from (it :: rest) dataSize col cc cw
  = lookup_from rest dataSize col (add_sz cc (value it * length it))
      (add_sz cw (length it)).
Proof.
  intros H. unfold lookup_from. cbn [walk_runs].
  destruct (Z.ltb_spec col (add_sz cc (value it * length it))); [lia|reflexivity].
Qed.

Lemma glyph_shift (tl : list Z) (c cw dataSize v : Z) :
  match
    match glyph_at tl c with
    | Some L =>
        Some (mk_lookup (1 + dataOffset L) (dataLength L)
                (columnOffsetWithinGlyph L) (numberOfColumns L))
    | None => None
    end
  with
  | Some L =>
      mk_lookup (cw + dataOffset L) (dataLength L)
        (columnOffsetWithinGlyph L) (numberOfColumns L)
  | None =>
      mk_lookup (cw + zlen (v :: tl)) (sub_sz dataSize (cw + zlen (v :: tl))) 0 0
  end
  = match glyph_at tl c with
    | Some L =>
        mk_lookup (cw + 1 + dataOffset L) (dataLength L)
          (columnOffsetWithinGlyph L) (numberOfColumns L)
    | None =>
        mk_lookup (cw + 1 + zlen tl) (sub_sz dataSize (cw + 1 + zlen tl)) 0 0
    end.
Proof.
  rewrite zlen_cons.
  destruct (glyph_at tl c) as [L|];
    cbn [dataOffset dataLength columnOffsetWithinGlyph numberOfColumns];
    rewrite ?Z.add_assoc; reflexivity.
Qed.

(** The walk over the canonical runs of [l] finds the glyph that
    [glyph_at] finds in [l]. *)
Lemma lookup_from_compress (l : list Z) (dataSize col cc cw : Z) :
  byte_values l ->
  0 <= cc <= col -> col < SIZE_MOD -> 0 <= cw ->
  cc + 255 * (zlen l + 1) < SIZE_MOD -> cw + zlen l + 1 < SIZE_MOD ->
  lookup_from (compress l) dataSize col cc cw
  = match glyph_at l (col - cc) with
    | Some L =>
        mk_lookup (cw + dataOffset L) (dataLength L)
          (columnOffsetWithinGlyph L) (numberOfColumns L)
    | None => mk_lookup (cw + zlen l) (sub_sz dataSize (cw + zlen l)) 0 0
    end.
Proof.
  intros Hl. revert cc cw. pose proof SIZE_MOD_eq as HS.
  induction Hl as [|v tl Hv Htl IH]; intros cc cw Hcc Hcol Hcw Hcb Hwb.
  - cbn. unfold zlen. cbn. now rewrite Z.add_0_r.
  - rewrite zlen_cons in Hcb, Hwb.
    pose proof (zlen_nonneg tl) as Hn0.
    pose proof (leading_zeros_compress tl) as Hlz.
    pose proof (leading_zeros_nonneg tl) as Hlzb.
    cbn [glyph_at compress].
    destruct (compress tl) as [|r rs] eqn:E.
    + (* [tl] is empty *)
      apply compress_nil_inv in E. subst tl.
      unfold lookup_from. cbn [walk_runs value length glyph_at leading_zeros].
      rewrite Z.mul_1_r, (add_sz_exact cc v) by lia.
      destruct (Z.ltb_spec col (cc + v)) as [Hhit|Hskip];
        destruct (Z.ltb_spec (col - cc) v) as [Hhit'|Hskip']; try lia.
      * cbv zeta. cbn [value length]. rewrite ?Z.mul_1_r, (sub_sz_exact col cc) by lia.
        rewrite Z.div_small, Z.mod_small by lia.
        rewrite (add_sz_exact cw 0), (add_sz_exact (col - cc) v) by lia.
        rewrite narrow_u8_exact by (unpow; lia).
        destruct (Z.leb_spec v (col - cc + v)); [|lia].
        finish_lookup.
      * rewrite (add_sz_exact cw 1) by lia.
        unfold zlen. cbn [List.length Z.of_nat]. reflexivity.
    + destruct (compress_head_facts tl r rs Htl E) as (Hrv & Hrl).
      specialize (IH).
      destruct (Z.eqb_spec (value r) v) as [Hsame|Hdiff].
      * (* the head joins the first run *)
        destruct (Z.eq_dec v 0) as [Hz|Hnz].
        -- rewrite Hz in *. clear Hz. rewrite Hsame in Hlz. cbn [Z.eqb] in Hlz.
           destruct (Z.ltb_spec (col - cc) 0) as [|_]; [lia|].
           rewrite Z.sub_0_r.
           specialize (IH cc (cw + 1) ltac:(lia) Hcol ltac:(lia) ltac:(lia) ltac:(lia)).
           rewrite glyph_shift, <- IH.
           unfold lookup_from. cbn [walk_runs value length]. rewrite Hsame.
           rewrite !Z.mul_0_l, (add_sz_exact cc 0), Z.add_0_r by lia.
           destruct (Z.ltb_spec col cc) as [|_]; [lia|].
           rewrite (add_sz_exact cw), (add_sz_exact (cw + 1)) by lia.
           replace (cw + (length r + 1)) with (cw + 1 + length r) by lia.
           reflexivity.
        -- destruct (Z.ltb_spec (col - cc) v) as [Hhit|Hskip].
           ++ unfold lookup_from. cbn [walk_runs value length].
              assert (Hcov : v < v * (length r + 1)) by nia.
              rewrite (add_sz_exact cc) by nia.
              destruct (Z.ltb_spec col (cc + v * (length r + 1))) as [_|]; [|nia].
              cbv zeta. cbn [value length]. rewrite ?Z.mul_1_r, (sub_sz_exact col cc) by lia.
              rewrite Z.div_small, Z.mod_small by lia.
              rewrite (add_sz_exact cw 0), (add_sz_exact (col - cc) v) by lia.
              rewrite narrow_u8_exact by (unpow; lia).
              destruct (Z.leb_spec (v * (length r + 1)) (col - cc + v)); [nia|].
              rewrite Hlz, Hsame.
              destruct (Z.eqb_spec v 0); [contradiction|].
              finish_lookup.
           ++ specialize (IH (cc + v) (cw + 1) ltac:(lia) Hcol ltac:(lia)
                             ltac:(lia) ltac:(lia)).
              replace (col - (cc + v)) with (col - cc - v) in IH by lia.
              rewrite glyph_shift, <- IH. clear IH.
              unfold lookup_from. cbn [walk_runs value length]. rewrite Hsame.
              assert (Hvl : 0 <= v * length r) by nia.
              rewrite (add_sz_exact cc (v * (length r + 1))) by nia.
              rewrite (add_sz_exact (cc + v) (v * length r)) by nia.
              replace (cc + v + v * length r) with (cc + v * (length r + 1)) by lia.
              destruct (Z.ltb_spec col (cc + v * (length r + 1))) as [Hin|Hout].
              ** cbv zeta. cbn [value length]. rewrite ?Hsame.
                 rewrite (sub_sz_exact col cc), (sub_sz_exact col (cc + v)) by lia.
                 replace (col - cc) with ((col - (cc + v)) + 1 * v) by lia.
                 rewrite Z.div_add, Z.mod_add by lia.
                 assert (Hq : 0 <= (col - (cc + v)) / v < length r).
                 { split; [apply Z.div_pos; lia|apply Z.div_lt_upper_bound; nia]. }
                 rewrite (add_sz_exact cw), (add_sz_exact (cw + 1)) by lia.
                 rewrite !(add_sz_exact _ v) by nia.
                 replace (cw + ((col - (cc + v)) / v + 1))
                   with (cw + 1 + (col - (cc + v)) / v) by lia.
                 destruct (Z.leb_spec (v * (length r + 1)) (col - (cc + v) + 1 * v + v));
                   destruct (Z.leb_spec (v * length r) (col - (cc + v) + v));
                   try lia; reflexivity.
              ** rewrite (add_sz_exact cw), (add_sz_exact (cw + 1)) by lia.
                 replace (cw + (length r + 1)) with (cw + 1 + length r) by lia.
                 reflexivity.
      * (* the head is a run of its own *)
        destruct (Z.ltb_spec (col - cc) v) as [Hhit|Hskip].
        -- unfold lookup_from. cbn [walk_runs value length].
           rewrite Z.mul_1_r, (add_sz_exact cc v) by lia.
           destruct (Z.ltb_spec col (cc + v)) as [_|]; [|lia].
           cbv zeta. cbn [value length]. rewrite ?Z.mul_1_r, (sub_sz_exact col cc) by lia.
           rewrite Z.div_small, Z.mod_small by lia.
           rewrite (add_sz_exact cw 0), (add_sz_exact (col - cc) v) by lia.
           rewrite narrow_u8_exact by (unpow; lia).
           destruct (Z.leb_spec v (col - cc + v)); [|lia].
           rewrite Hlz.
           destruct (value r =? 0); [|finish_lookup].
           rewrite (add_sz_exact 1) by lia. finish_lookup.
        -- specialize (IH (cc + v) (cw + 1) ltac:(lia) Hcol ltac:(lia)
                          ltac:(lia) ltac:(lia)).
           replace (col - (cc + v)) with (col - cc - v) in IH by lia.
           rewrite lookup_from_skip; cbn [value length];
             rewrite Z.mul_1_r, (add_sz_exact cc v) by lia; [|lia].
           rewrite (add_sz_exact cw 1) by lia.
           rewrite IH, glyph_shift. reflexivity.
Qed.

End PositionWise.

(** ** Sequences of column values *)

Section ColumnValues.

Lemma zlen_nil {A : Type} : zlen (@nil A) = 0.
Proof. reflexivity. Qed.

Lemma firstn_app_Z {A : Type} (P S : list A) (k : Z) :
  0 <= k -> firstn (Z.to_nat (zlen P + k)) (P ++ S) = P ++ firstn (Z.to_nat k) S.
Proof.
  intros Hk. unfold zlen. rewrite firstn_app.
  rewrite firstn_all2 by lia. f_equal. f_equal. lia.
Qed.

Lemma skipn_app_Z {A : Type} (P S : list A) (k : Z) :
  0 <= k -> skipn (Z.to_nat (zlen P + k)) (P ++ S) = skipn (Z.to_nat k) S.
Proof.
  intros Hk. unfold zlen. rewrite skipn_app.
  rewrite skipn_all2 by lia. cbn [app]. f_equal. lia.
Qed.

Lemma firstn_zlen {A : Type} (P S : list A) :
  firstn (Z.to_nat (zlen P)) (P ++ S) = P.
Proof.
  rewrite <- (Z.add_0_r (zlen P)), firstn_app_Z by lia. cbn [Z.to_nat firstn].
  apply app_nil_r.
Qed.

Lemma skipn_zlen {A : Type} (P S : list A) :
  skipn (Z.to_nat (zlen P)) (P ++ S) = S.
Proof.
  rewrite <- (Z.add_0_r (zlen P)), skipn_app_Z by lia. reflexivity.
Qed.

Lemma widths_sum_app (l1 l2 : list Z) :
  widths_sum (l1 ++ l2) = widths_sum l1 + widths_sum l2.
Proof. induction l1 as [|v tl IH]; cbn [app widths_sum]; lia. Qed.

Lemma widths_sum_repeat (v n : Z) : 0 <= n -> widths_sum (repeat v (Z.to_nat n)) = v * n.
Proof.
  intros Hn. rewrite <- (Z2Nat.id n) at 2 by assumption.
  induction (Z.to_nat n) as [|k IH]; cbn [repeat widths_sum]; lia.
Qed.

Lemma widths_sum_expand (c : til.small_rle) :
  Forall til.nonneg c -> widths_sum (til.expand c) = til.columns c.
Proof.
  induction 1 as [|r c [Hv Hl] _ IH]; cbn [til.expand til.columns widths_sum];
    [reflexivity|].
  rewrite widths_sum_app, widths_sum_repeat, IH by assumption. reflexivity.
Qed.

Lemma byte_values_expand (c : til.small_rle) :
  Forall til.run_ok c -> byte_values (til.expand c).
Proof.
  induction 1 as [|r c [Hv Hl] _ IH]; cbn [til.expand]; [constructor|].
  apply Forall_app. split; [|exact IH].
  apply Forall_forall. intros x Hx. apply repeat_spec in Hx. subst x.
  change (2 ^ 8) with 256 in Hv. exact Hv.
Qed.

Lemma byte_values_nonneg (l : list Z) : byte_values l -> 0 <= widths_sum l.
Proof. intros H. apply widths_sum_bound in H. lia. Qed.

Lemma leading_zeros_repeat (n : Z) (R : list Z) :
  0 <= n -> leading_zeros (repeat 0 (Z.to_nat n) ++ R) = n + leading_zeros R.
Proof.
  intros Hn. rewrite <- (Z2Nat.id n) at 2 by assumption.
  induction (Z.to_nat n) as [|k IH]; cbn [repeat app leading_zeros Z.eqb]; lia.
Qed.

Lemma leading_zeros_pos (v : Z) (R : list Z) : v <> 0 -> leading_zeros (v :: R) = 0.
Proof.
  intros Hv. cbn [leading_zeros]. destruct (Z.eqb_spec v 0); [contradiction|reflexivity].
Qed.

(** The zeros at the head, and what follows them. *)
Lemma leading_zeros_split (l : list Z) :
  exists R, l = repeat 0 (Z.to_nat (leading_zeros l)) ++ R /\ leading_zeros R = 0.
Proof.
  induction l as [|v tl (R & Hl & HR)].
  - exists []. split; reflexivity.
  - cbn [leading_zeros]. destruct (Z.eqb_spec v 0) as [->|Hv].
    + exists R. split; [|exact HR].
      pose proof (leading_zeros_nonneg tl) as Hn.
      replace (Z.to_nat (1 + leading_zeros tl)) with (S (Z.to_nat (leading_zeros tl))) by lia.
      cbn [repeat app]. now rewrite <- Hl.
    + exists (v :: tl). split; [reflexivity|]. now apply leading_zeros_pos.
Qed.

Lemma leading_zeros_app_stop (l R : list Z) :
  leading_zeros R = 0 -> leading_zeros (l ++ R) = leading_zeros l.
Proof.
  intros HR. induction l as [|v tl IH]; cbn [app leading_zeros]; [exact HR|].
  destruct (v =? 0); lia.
Qed.

(** [glyph_at] past a prefix, and inside a prefix. *)

Lemma glyph_at_cons_skip (v : Z) (tl : list Z) (col : Z) :
  v <= col -> glyph_at (v :: tl) col = shift_lookup 1 (glyph_at tl (col - v)).
Proof.
  intros H. cbn [glyph_at]. destruct (Z.ltb_spec col v); [lia|reflexivity].
Qed.

Lemma shift_lookup_shift (a b : Z) (o : option ColumnLookupResult) :
  shift_lookup a (shift_lookup b o) = shift_lookup (a + b) o.
Proof.
  destruct o as [L|]; [|reflexivity].
  cbn [shift_lookup dataOffset dataLength columnOffsetWithinGlyph numberOfColumns].
  now rewrite Z.add_assoc.
Qed.

Lemma glyph_at_app_ge (A R : list Z) (col : Z) :
  byte_values A -> widths_sum A <= col ->
  glyph_at (A ++ R) col = shift_lookup (zlen A) (glyph_at R (col - widths_sum A)).
Proof.
  intros HA. revert col.
  induction HA as [|v tl Hv Htl IH]; intros col Hcol; cbn [app widths_sum] in *.
  - rewrite Z.sub_0_r. destruct (glyph_at R col) as [[o n f w]|]; reflexivity.
  - pose proof (byte_values_nonneg tl Htl) as H0.
    rewrite glyph_at_cons_skip by lia.
    rewrite IH by lia. rewrite shift_lookup_shift, zlen_cons.
    f_equal. f_equal. lia.
Qed.

Lemma glyph_at_head (v : Z) (tl : list Z) (j : Z) :
  j < v -> glyph_at (v :: tl) j = Some (mk_lookup 0 (1 + leading_zeros tl) j v).
Proof.
  intros H. cbn [glyph_at]. destruct (Z.ltb_spec j v); [reflexivity|lia].
Qed.

(** The glyph whose first code unit follows the prefix [A]. *)
Lemma glyph_at_split (A : list Z) (v : Z) (tl : list Z) (col : Z) :
  byte_values A -> widths_sum A <= col < widths_sum A + v ->
  glyph_at (A ++ v :: tl) col
  = Some (mk_lookup (zlen A) (1 + leading_zeros tl) (col - widths_sum A) v).
Proof.
  intros HA Hcol. rewrite glyph_at_app_ge by (assumption || lia).
  rewrite glyph_at_head by lia.
  cbn [shift_lookup dataOffset dataLength columnOffsetWithinGlyph numberOfColumns].
  now rewrite Z.add_0_r.
Qed.

(** Every glyph found is of this shape. *)
Lemma glyph_at_Some (l : list Z) (col : Z) (L : ColumnLookupResult) :
  byte_values l -> 0 <= col -> glyph_at l col = Some L ->
  exists A tl,
    l = A ++ numberOfColumns L :: tl
    /\ zlen A = dataOffset L
    /\ widths_sum A = col - columnOffsetWithinGlyph L
    /\ 0 <= columnOffsetWithinGlyph L < numberOfColumns L
    /\ dataLength L = 1 + leading_zeros tl.
Proof.
  intros Hl. revert col L.
  induction Hl as [|v tl Hv Htl IH]; intros col L Hcol H; [discriminate|].
  cbn [glyph_at] in H. destruct (Z.ltb_spec col v) as [Hhit|Hskip].
  - injection H as <-. exists [], tl.
    cbn [app widths_sum dataOffset dataLength columnOffsetWithinGlyph numberOfColumns].
    split; [reflexivity|]. split; [reflexivity|]. split; [lia|]. split; [lia|reflexivity].
  - destruct (glyph_at tl (col - v)) as [L'|] eqn:E; [|discriminate].
    assert (HL : L = mk_lookup (1 + dataOffset L') (dataLength L')
                       (columnOffsetWithinGlyph L') (numberOfColumns L')) by congruence.
    clear H. subst L.
    destruct (IH (col - v) L' ltac:(lia) E) as (A & tl' & -> & HA & Hs & Hoff & Hlen).
    exists (v :: A), tl'.
    cbn [app widths_sum dataOffset dataLength columnOffsetWithinGlyph numberOfColumns].
    rewrite zlen_cons.
    split; [reflexivity|]. split; [lia|]. split; [lia|]. split; [lia|assumption].
Qed.

Lemma glyph_at_None (l : list Z) (col : Z) :
  byte_values l -> 0 <= col -> glyph_at l col = None -> widths_sum l <= col.
Proof.
  intros Hl. revert col.
  induction Hl as [|v tl Hv _ IH]; intros col Hcol H; cbn [widths_sum]; [lia|].
  cbn [glyph_at] in H.
  destruct (Z.ltb_spec col v); [discriminate|].
  destruct (glyph_at tl (col - v)) eqn:E; [discriminate|].
  apply IH in E; lia.
Qed.

Lemma glyph_at_Some_lt (l : list Z) (col : Z) (L : ColumnLookupResult) :
  byte_values l -> 0 <= col -> glyph_at l col = Some L -> col < widths_sum l.
Proof.
  intros Hl Hcol H.
  destruct (glyph_at_Some l col L Hl Hcol H) as (A & tl & -> & _ & Hs & Hoff & _).
  rewrite widths_sum_app. cbn [widths_sum].
  apply Forall_app in Hl as [_ Hl]. apply Forall_inv_tail in Hl.
  pose proof (byte_values_nonneg tl Hl). lia.
Qed.

End ColumnValues.

(** ** Canonical rows *)

Section CanonicalRows.
Import til til_facts.

(** On a row in canonical form the lookup is the glyph of the expanded
    column index. *)
Lemma indicesForCol_canonical (r : ROW) (col : Z) :
  wf (_cwid r) -> canonical (_cwid r) -> is_size_t col ->
  _indicesForCol r col
  = match glyph_at (expand (_cwid r)) col with
    | Some L => L
    | None =>
        mk_lookup (size (_cwid r)) (sub_sz (zlen (_data r)) (size (_cwid r))) 0 0
    end.
Proof.
  intros Hwf Hcan [Hc0 Hc1].
  pose proof (cwid_size_bound r Hwf) as Hsb.
  pose proof (zlen_expand _ (wf_nonneg _ Hwf)) as Hexp.
  pose proof (byte_values_expand _ (proj1 Hwf)) as Hbv.
  pose proof SIZE_MOD_eq as HS. change (2 ^ 16) with 65536 in *.
  unfold canonical in Hcan.
  rewrite indicesForCol_lookup_from. rewrite <- Hcan at 1.
  rewrite lookup_from_compress; try assumption; try (rewrite ?Hexp; lia).
  rewrite Z.sub_0_r, Hexp.
  destruct (glyph_at (expand (_cwid r)) col) as [[o n f w]|]; reflexivity.
Qed.

(** The same for the runs of any sequence of column values. *)
Lemma indicesForCol_compress (r : ROW) (l : list Z) (col : Z) :
  _cwid r = compress l -> byte_values l -> zlen l < 2 ^ 16 -> is_size_t col ->
  _indicesForCol r col
  = match glyph_at l col with
    | Some L => L
    | None => mk_lookup (zlen l) (sub_sz (zlen (_data r)) (zlen l)) 0 0
    end.
Proof.
  intros Hc Hbv Hlen [Hc0 Hc1].
  pose proof (zlen_nonneg l) as Hn0.
  pose proof SIZE_MOD_eq as HS. change (2 ^ 16) with 65536 in *.
  rewrite indicesForCol_lookup_from, Hc.
  rewrite lookup_from_compress; try assumption; try lia.
  rewrite Z.sub_0_r.
  destruct (glyph_at l col) as [[o n f w]|]; reflexivity.
Qed.

Lemma compress_run_ok (l : list Z) :
  byte_values l ->
  Forall (fun r => 0 <= value r < 256 /\ 1 <= length r <= zlen l) (compress l).
Proof.
  induction 1 as [|v tl Hv Htl IH]; cbn [compress]; [constructor|].
  rewrite zlen_cons.
  assert (IH' : Forall (fun r => 0 <= value r < 256 /\ 1 <= length r <= 1 + zlen tl)
                  (compress tl)).
  { eapply Forall_impl; [|exact IH]. cbv beta. intros a Ha. lia. }
  pose proof (size_compress tl) as Hsz.
  pose proof (compress_lengths tl) as Hlen.
  destruct (compress tl) as [|r rs].
  - constructor; [|constructor]. cbn [value length]. pose proof (zlen_nonneg tl). lia.
  - destruct (value r =? v).
    + constructor; [|now apply Forall_inv_tail in IH'].
      apply Forall_inv in IH. cbn [value length]. lia.
    + constructor; [|exact IH'].
      cbn [value length]. pose proof (zlen_nonneg tl). lia.
Qed.

Lemma compress_wf (l : list Z) : byte_values l -> zlen l < 2 ^ 16 -> wf (compress l).
Proof.
  intros Hbv Hlen. split; [|now rewrite size_compress].
  eapply Forall_impl; [|exact (compress_run_ok l Hbv)].
  cbv beta. intros a Ha. unfold run_ok. unpow. lia.
Qed.

Lemma compress_canonical (l : list Z) : canonical (compress l).
Proof. unfold canonical. now rewrite expand_compress. Qed.

End CanonicalRows.

(** ** The shape of a write *)

Section WriteShape.
Import til til_facts.

Variable r : ROW.
Hypothesis Hwf : wf (_cwid r).
Hypothesis HI1 : size (_cwid r) = zlen (_data r).

(** A call that returns has left the row [overwritten]. *)
Lemma returned_overwritten (fuel : nat) (col ncols : Z) (glyph : wstring)
      (r' : ROW) (res : Z * Z) :
  0 <= col < columns (_cwid r) -> 0 <= ncols <= 255 -> 1 <= zlen glyph <= 2 ^ 16 ->
  WriteGlyphAtMeasured fuel r col ncols glyph = Returned (r', res) ->
  let L := _indicesForCol r col in
  exists len maxD,
    damage_scan fuel r (col + ncols) (dataLength L)
      (col - columnOffsetWithinGlyph L + numberOfColumns L) = Some (len, maxD)
    /\ r' = overwritten r col ncols glyph len maxD
    /\ res = (dataOffset L + zlen glyph, col + ncols).
Proof.
  intros Hcol Hn Hg H L.
  destruct (WriteGlyphAtMeasured_inv _ _ _ _ _ _ _ H)
    as (len & maxD & data' & cw & Hscan & _).
  pose proof (wf_columns_bound _ Hwf) as Hcb. change (2 ^ 24) with 16777216 in Hcb.
  pose proof (lookup_inb r Hwf col Hcol) as Hinb. cbv zeta in Hinb.
  rewrite (sub_sz_exact col) in Hscan by (unpow; lia).
  rewrite (add_sz_exact col ncols) in Hscan by (unpow; lia).
  rewrite (add_sz_exact (col - _)) in Hscan by (unpow; lia).
  pose proof (WriteGlyphAtMeasured_result r Hwf HI1 fuel col ncols glyph len maxD
                Hcol Hn Hg Hscan) as Hres.
  rewrite H in Hres. injection Hres as -> ->.
  exists len, maxD. repeat split. exact Hscan.
Qed.

Hypothesis Hcan : canonical (_cwid r).

(** On a canonical row the damage loop stops at the first code unit of a
    glyph: the code units it counted are exactly those of the columns it
    passed. *)
Lemma damage_scan_exact (A : list Z) (fuel : nat) (colEnd : Z) :
  forall (M S : list Z) (len maxD len' maxD' : Z),
    expand (_cwid r) = A ++ M ++ S ->
    zlen M = len -> widths_sum (A ++ M) = maxD -> leading_zeros S = 0 ->
    starts_before (expand (_cwid r)) maxD colEnd ->
    damage_scan fuel r colEnd len maxD = Some (len', maxD') ->
    exists M' S',
      expand (_cwid r) = A ++ M' ++ S'
      /\ zlen M' = len' /\ widths_sum (A ++ M') = maxD' /\ leading_zeros S' = 0
      /\ starts_before (expand (_cwid r)) maxD' colEnd.
Proof.
  pose proof (cwid_size_bound r Hwf) as Hsb.
  pose proof (zlen_expand _ (wf_nonneg _ Hwf)) as Hexp.
  pose proof (byte_values_expand _ (proj1 Hwf)) as Hbv.
  pose proof (wf_columns_bound _ Hwf) as Hcb. change (2 ^ 24) with 16777216 in Hcb.
  pose proof (widths_sum_expand _ (wf_nonneg _ Hwf)) as Hsum.
  pose proof SIZE_MOD_eq as HS.
  induction fuel as [|fuel' IH]; intros M S len maxD len' maxD' He HM HW HS0 HQ;
    cbn [damage_scan]; destruct (Z.ltb_spec maxD colEnd) as [Hlt|Hge]; intros H;
    try discriminate;
    try (injection H as <- <-; exists M, S; repeat split; assumption).
  assert (HbAM : byte_values (A ++ M) /\ byte_values S).
  { rewrite He, app_assoc in Hbv. now apply Forall_app in Hbv. }
  destruct HbAM as [HbAM HbS].
  pose proof (byte_values_nonneg _ HbAM) as HAM0.
  pose proof (byte_values_nonneg _ HbS) as HS00.
  assert (HmaxD : 0 <= maxD <= columns (_cwid r)).
  { rewrite <- Hsum, He, app_assoc, widths_sum_app. lia. }
  assert (Hlen : zlen (A ++ M) + zlen S = size (_cwid r)).
  { rewrite <- Hexp, He, app_assoc, (zlen_app (A ++ M)). reflexivity. }
  pose proof (zlen_nonneg A) as HA0. pose proof (zlen_nonneg S) as HSn.
  rewrite zlen_app in Hlen.
  change (2 ^ 16) with 65536 in Hsb.
  assert (HL : _indicesForCol r maxD
               = match shift_lookup (zlen (A ++ M)) (glyph_at S 0) with
                 | Some L => L
                 | None =>
                     mk_lookup (size (_cwid r))
                       (sub_sz (zlen (_data r)) (size (_cwid r))) 0 0
                 end).
  { rewrite (indicesForCol_canonical r maxD Hwf Hcan) by (unfold is_size_t; lia).
    rewrite He, app_assoc, glyph_at_app_ge by (assumption || lia).
    rewrite HW, Z.sub_diag. reflexivity. }
  destruct S as [|v tl].
  - (* nothing is stored past [maxD] *)
    exfalso. revert H. rewrite HL.
    cbn [glyph_at shift_lookup numberOfColumns dataLength].
    rewrite (add_sz_exact maxD 0), Z.add_0_r by lia.
    rewrite damage_scan_stuck; [discriminate| |unfold is_size_t; lia|assumption].
    rewrite HL. reflexivity.
  - cbn [leading_zeros] in HS0.
    destruct (Z.eqb_spec v 0) as [Hz|Hnz].
    { pose proof (leading_zeros_nonneg tl). lia. }
    pose proof (Forall_inv HbS) as Hv. cbv beta in Hv.
    rewrite glyph_at_head in HL by lia.
    cbn [shift_lookup dataOffset dataLength columnOffsetWithinGlyph numberOfColumns] in HL.
    destruct (leading_zeros_split tl) as (R & Htl & HR).
    pose proof (leading_zeros_nonneg tl) as Hlz.
    rewrite zlen_cons in Hlen.
    rewrite HL in H.
    cbn [dataOffset dataLength columnOffsetWithinGlyph numberOfColumns] in H.
    assert (Hlz' : leading_zeros tl <= zlen tl).
    { rewrite Htl at 2. rewrite zlen_app, zlen_repeat by lia.
      pose proof (zlen_nonneg R). lia. }
    pose proof (zlen_nonneg M) as HM0. pose proof (zlen_nonneg tl) as Htl0.
    rewrite (add_sz_exact len), (add_sz_exact maxD) in H by lia.
    apply (IH (M ++ v :: repeat 0 (Z.to_nat (leading_zeros tl))) R) in H;
      [exact H| | | |exact HR|].
    + rewrite He. rewrite <- !app_assoc. cbn [app]. rewrite <- Htl. reflexivity.
    + rewrite zlen_app, zlen_cons, zlen_repeat by lia. lia.
    + rewrite app_assoc, widths_sum_app. cbn [widths_sum].
      rewrite widths_sum_repeat by lia. lia.
    + intros c L Hc HcL.
      destruct (Z.lt_ge_cases c maxD) as [Hlo|Hhi]; [apply (HQ c L); [lia|exact HcL]|].
      rewrite He, app_assoc, glyph_at_split in HcL by (assumption || lia).
      injection HcL as <-. cbn [columnOffsetWithinGlyph]. lia.
Qed.

(** The shape of a write that returns: the column values of the row are
    those of the untouched glyphs [A] on the left, the overwritten glyphs
    [M] and the untouched glyphs [S] on the right. *)
Lemma write_shape (fuel : nat) (col ncols : Z) (glyph : wstring) (r' : ROW) (res : Z * Z) :
  0 <= col < columns (_cwid r) -> 1 <= ncols <= 255 -> 1 <= zlen glyph <= 2 ^ 16 ->
  WriteGlyphAtMeasured fuel r col ncols glyph = Returned (r', res) ->
  let L := _indicesForCol r col in
  exists A M S maxD,
    expand (_cwid r) = A ++ M ++ S
    /\ zlen A = dataOffset L
    /\ widths_sum A = col - columnOffsetWithinGlyph L
    /\ widths_sum (A ++ M) = maxD
    /\ leading_zeros (M ++ S) = 0
    /\ leading_zeros S = 0
    /\ col + ncols <= maxD
    /\ starts_before (expand (_cwid r)) maxD (col + ncols)
    /\ r' = overwritten r col ncols glyph (zlen M) maxD
    /\ res = (dataOffset L + zlen glyph, col + ncols).
Proof.
  intros Hcol Hn Hg H L.
  destruct (returned_overwritten fuel col ncols glyph r' res Hcol ltac:(lia) Hg H)
    as (len & maxD & Hscan & Hr' & Hres).
  fold L in Hscan, Hres.
  pose proof (zlen_expand _ (wf_nonneg _ Hwf)) as Hexp.
  pose proof (byte_values_expand _ (proj1 Hwf)) as Hbv.
  pose proof (widths_sum_expand _ (wf_nonneg _ Hwf)) as Hsum.
  pose proof (wf_columns_bound _ Hwf) as Hcb. change (2 ^ 24) with 16777216 in Hcb.
  pose proof SIZE_MOD_eq as HS.
  assert (HL : glyph_at (expand (_cwid r)) col = Some L).
  { pose proof (indicesForCol_canonical r col Hwf Hcan ltac:(unfold is_size_t; lia)) as HL.
    fold L in HL.
    destruct (glyph_at (expand (_cwid r)) col) as [L0|] eqn:HL0.
    - now rewrite HL.
    - apply glyph_at_None in HL0; [lia|assumption|lia]. }
  destruct (glyph_at_Some _ col _ Hbv (proj1 Hcol) HL) as (A & tl & He & HA & HwA & Hoff & Hdl).
  destruct (leading_zeros_split tl) as (R & Htl & HR).
  pose proof (leading_zeros_nonneg tl) as Hlz.
  assert (HbA : byte_values A).
  { rewrite He in Hbv. now apply Forall_app in Hbv. }
  destruct (damage_scan_exact A fuel (col + ncols)
              (numberOfColumns L :: repeat 0 (Z.to_nat (leading_zeros tl))) R
              (dataLength L) (col - columnOffsetWithinGlyph L + numberOfColumns L)
              len maxD)
    as (M' & S' & He' & HM' & HW' & HS' & HQ'); try assumption.
  - rewrite He. cbn [app]. rewrite <- Htl. reflexivity.
  - rewrite zlen_cons, zlen_repeat by lia. lia.
  - rewrite widths_sum_app. cbn [widths_sum]. rewrite widths_sum_repeat by lia. lia.
  - intros c L' Hc HcL'.
    destruct (Z.lt_ge_cases c (widths_sum A)) as [Hlo|Hhi].
    + destruct (glyph_at_Some _ c _ Hbv (proj1 Hc) HcL') as (_ & _ & _ & _ & _ & Ho & _). lia.
    + rewrite He, glyph_at_split in HcL' by (assumption || lia).
      injection HcL' as <-. cbn [columnOffsetWithinGlyph]. lia.
  - exists A, M', S', maxD. subst len.
    pose proof (damage_scan_exit _ _ _ _ _ _ _ Hscan) as Hexit.
    repeat (split; [assumption || lia|]).
    split; [|split; [assumption|split; [lia|split; [assumption|split; assumption]]]].
    rewrite He in He'. apply app_inv_head in He'. rewrite <- He'.
    apply leading_zeros_pos. lia.
Qed.

(** The fields of [overwritten] in terms of that shape. *)
Lemma overwritten_cwid (col ncols : Z) (glyph : wstring) (A M S : list Z) (maxD : Z) :
  expand (_cwid r) = A ++ M ++ S -> zlen A = dataOffset (_indicesForCol r col) ->
  _cwid (overwritten r col ncols glyph (zlen M) maxD)
  = compress (A ++ damaged_widths ncols (zlen glyph)
                     (columnOffsetWithinGlyph (_indicesForCol r col))
                     (maxD - (col + ncols)) ++ S).
Proof.
  intros He HA. unfold overwritten. cbn [_cwid]. unfold splice.
  rewrite <- HA, He. rewrite firstn_zlen.
  rewrite (app_assoc A M S), <- (zlen_app A M), (skipn_zlen (A ++ M) S). reflexivity.
Qed.

Lemma overwritten_data (col ncols : Z) (glyph : wstring) (A M : list Z) (maxD : Z) :
  zlen A = dataOffset (_indicesForCol r col) ->
  _data (overwritten r col ncols glyph (zlen M) maxD)
  = firstn (Z.to_nat (zlen A)) (_data r)
      ++ damaged_text glyph (columnOffsetWithinGlyph (_indicesForCol r col))
           (maxD - (col + ncols))
      ++ skipn (Z.to_nat (zlen A + zlen M)) (_data r).
Proof. intros HA. unfold overwritten. cbn [_data]. unfold splice. now rewrite <- HA. Qed.

End WriteShape.

(** ** The column index after a write *)

Section RepeatFacts.

Lemma repeat_split_Z {A : Type} (a : A) (n i : Z) :
  0 <= i < n ->
  repeat a (Z.to_nat n) = repeat a (Z.to_nat i) ++ a :: repeat a (Z.to_nat (n - i - 1)).
Proof.
  intros H.
  replace (Z.to_nat n) with (Z.to_nat i + S (Z.to_nat (n - i - 1)))%nat by lia.
  now rewrite repeat_app.
Qed.

Lemma leading_zeros_ones (n : Z) (R : list Z) :
  leading_zeros R = 0 -> leading_zeros (repeat 1 (Z.to_nat n) ++ R) = 0.
Proof.
  intros HR. destruct (Z.to_nat n) as [|k]; cbn [repeat app]; [exact HR|].
  reflexivity.
Qed.

Lemma byte_values_repeat (v n : Z) : 0 <= v < 256 -> byte_values (repeat v (Z.to_nat n)).
Proof.
  intros Hv. unfold byte_values. apply Forall_forall. intros x Hx.
  apply repeat_spec in Hx. now subst x.
Qed.

Lemma byte_values_app (l1 l2 : list Z) :
  byte_values l1 -> byte_values l2 -> byte_values (l1 ++ l2).
Proof. intros H1 H2. apply Forall_app. now split. Qed.

Lemma byte_values_cons (v : Z) (l : list Z) :
  0 <= v < 256 -> byte_values l -> byte_values (v :: l).
Proof. intros Hv Hl. now constructor. Qed.

Lemma widths_sum_damaged (ncols g lp rp : Z) :
  0 <= lp -> 0 <= rp -> 1 <= g ->
  widths_sum (damaged_widths ncols g lp rp) = lp + ncols + rp.
Proof.
  intros Hl Hr Hg. unfold damaged_widths.
  rewrite !widths_sum_app. cbn [widths_sum].
  rewrite !widths_sum_repeat by lia. lia.
Qed.

Lemma byte_values_damaged (ncols g lp rp : Z) :
  0 <= ncols < 256 -> byte_values (damaged_widths ncols g lp rp).
Proof.
  intros Hn. unfold damaged_widths.
  repeat (apply byte_values_app || apply byte_values_cons || apply byte_values_repeat);
    lia.
Qed.

Lemma leading_zeros_damaged (ncols g lp rp : Z) (R : list Z) :
  1 <= ncols -> leading_zeros (damaged_widths ncols g lp rp ++ R) = 0.
Proof.
  intros Hn. unfold damaged_widths. rewrite <- app_assoc.
  apply leading_zeros_ones. cbn [app]. apply leading_zeros_pos. lia.
Qed.

(** A glyph inside a prefix does not depend on what follows the prefix,
    as long as that does not start with trailers. *)
Lemma glyph_at_app_lt (A X : list Z) (c : Z) :
  byte_values A -> 0 <= c < widths_sum A -> leading_zeros X = 0 ->
  glyph_at (A ++ X) c = glyph_at A c.
Proof.
  intros HA. revert c. induction HA as [|v tl Hv Htl IH]; intros c Hc HX.
  - cbn [widths_sum] in Hc. lia.
  - cbn [app glyph_at]. cbn [widths_sum] in Hc.
    destruct (Z.ltb_spec c v) as [Hlt|Hge].
    + now rewrite leading_zeros_app_stop.
    + rewrite IH by (assumption || lia). reflexivity.
Qed.

Lemma glyph_at_lt_Some (A : list Z) (c : Z) :
  byte_values A -> 0 <= c < widths_sum A -> exists L, glyph_at A c = Some L.
Proof.
  intros HA Hc. destruct (glyph_at A c) as [L|] eqn:H; [now exists L|].
  apply glyph_at_None in H; [lia|assumption|lia].
Qed.

End RepeatFacts.

Section AfterWrite.
Import til til_facts.

Variable r' : ROW.
Variables A S : list Z.
Variables ncols g lp rp : Z.

Hypothesis Hc : _cwid r' = compress (A ++ damaged_widths ncols g lp rp ++ S).
Hypothesis HbA : byte_values A.
Hypothesis HbS : byte_values S.
Hypothesis HS0 : leading_zeros S = 0.
Hypothesis Hn : 1 <= ncols <= 255.
Hypothesis Hg : 1 <= g.
Hypothesis Hlp : 0 <= lp.
Hypothesis Hrp : 0 <= rp.
Hypothesis Hsz : zlen (A ++ damaged_widths ncols g lp rp ++ S) < 2 ^ 16.

Lemma after_byte_values : byte_values (A ++ damaged_widths ncols g lp rp ++ S).
Proof.
  apply byte_values_app; [assumption|].
  apply byte_values_app; [apply byte_values_damaged; lia|assumption].
Qed.

Lemma after_size_t (c : Z) :
  0 <= c <= widths_sum A + lp + ncols + rp + widths_sum S -> is_size_t c.
Proof.
  intros Hcc. unfold is_size_t.
  pose proof (widths_sum_bound _ after_byte_values) as Hb.
  rewrite !widths_sum_app, widths_sum_damaged in Hb by lia.
  pose proof SIZE_MOD_eq as HS. change (2 ^ 16) with 65536 in Hsz. lia.
Qed.

(** The columns of the written glyph. *)
Lemma after_glyph (j : Z) :
  0 <= j < ncols ->
  _indicesForCol r' (widths_sum A + lp + j) = mk_lookup (zlen A + lp) g j ncols.
Proof.
  intros Hj.
  pose proof (byte_values_nonneg _ HbA) as HA0.
  pose proof (byte_values_nonneg _ HbS) as HS00.
  rewrite (indicesForCol_compress r' _ _ Hc after_byte_values Hsz)
    by (apply after_size_t; lia).
  unfold damaged_widths. rewrite <- !app_assoc. cbn [app].
  rewrite (app_assoc A).
  rewrite glyph_at_split.
  - rewrite leading_zeros_repeat by lia.
    rewrite leading_zeros_ones by assumption.
    rewrite zlen_app, zlen_repeat, widths_sum_app, widths_sum_repeat by lia.
    f_equal; lia.
  - apply byte_values_app; [assumption|apply byte_values_repeat; lia].
  - rewrite widths_sum_app, widths_sum_repeat by lia. lia.
Qed.

(** The columns repaired on the left of the glyph. *)
Lemma after_left (i : Z) :
  0 <= i < lp ->
  _indicesForCol r' (widths_sum A + i) = mk_lookup (zlen A + i) 1 0 1.
Proof.
  intros Hi.
  pose proof (byte_values_nonneg _ HbA) as HA0.
  pose proof (byte_values_nonneg _ HbS) as HS00.
  rewrite (indicesForCol_compress r' _ _ Hc after_byte_values Hsz)
    by (apply after_size_t; lia).
  unfold damaged_widths. rewrite (repeat_split_Z 1 lp i) by lia.
  rewrite <- !app_assoc. cbn [app]. rewrite (app_assoc A).
  rewrite glyph_at_split.
  - rewrite leading_zeros_ones by (apply leading_zeros_pos; lia).
    rewrite zlen_app, zlen_repeat, widths_sum_app, widths_sum_repeat by lia.
    f_equal; lia.
  - apply byte_values_app; [assumption|apply byte_values_repeat; lia].
  - rewrite widths_sum_app, widths_sum_repeat by lia. lia.
Qed.

(** The columns repaired on the right of the glyph. *)
Lemma after_right (i : Z) :
  0 <= i < rp ->
  _indicesForCol r' (widths_sum A + lp + ncols + i)
  = mk_lookup (zlen A + lp + g + i) 1 0 1.
Proof.
  intros Hi.
  pose proof (byte_values_nonneg _ HbA) as HA0.
  pose proof (byte_values_nonneg _ HbS) as HS00.
  rewrite (indicesForCol_compress r' _ _ Hc after_byte_values Hsz)
    by (apply after_size_t; lia).
  unfold damaged_widths. rewrite (repeat_split_Z 1 rp i) by lia.
  rewrite <- !app_assoc. cbn [app].
  replace (A ++ repeat 1 (Z.to_nat lp) ++ ncols :: repeat 0 (Z.to_nat (g - 1))
             ++ repeat 1 (Z.to_nat i) ++ 1 :: repeat 1 (Z.to_nat (rp - i - 1)) ++ S)
    with ((A ++ repeat 1 (Z.to_nat lp) ++ ncols :: repeat 0 (Z.to_nat (g - 1))
             ++ repeat 1 (Z.to_nat i)) ++ 1 :: repeat 1 (Z.to_nat (rp - i - 1)) ++ S)
    by (rewrite <- !app_assoc; cbn [app]; rewrite <- !app_assoc; reflexivity).
  rewrite glyph_at_split.
  - rewrite leading_zeros_ones by assumption.
    rewrite !zlen_app, zlen_cons, !zlen_app, !zlen_repeat by lia.
    rewrite !widths_sum_app. cbn [widths_sum].
    rewrite !widths_sum_app, !widths_sum_repeat by lia.
    f_equal; lia.
  - repeat (apply byte_values_app || apply byte_values_cons || apply byte_values_repeat);
      (assumption || lia).
  - rewrite !widths_sum_app. cbn [widths_sum].
    rewrite !widths_sum_app, !widths_sum_repeat by lia. lia.
Qed.

(** The columns to the left of the damage. *)
Lemma after_frame_left (c : Z) (L : ColumnLookupResult) :
  0 <= c < widths_sum A -> glyph_at A c = Some L -> _indicesForCol r' c = L.
Proof.
  intros Hcc HL.
  pose proof (byte_values_nonneg _ HbS) as HS00.
  rewrite (indicesForCol_compress r' _ _ Hc after_byte_values Hsz)
    by (apply after_size_t; lia).
  rewrite glyph_at_app_lt, HL; try assumption; [reflexivity|].
  apply leading_zeros_damaged. lia.
Qed.

(** The columns to the right of the damage. *)
Lemma after_frame_right (c : Z) (L : ColumnLookupResult) :
  0 <= c -> glyph_at S c = Some L ->
  _indicesForCol r' (widths_sum A + lp + ncols + rp + c)
  = mk_lookup (zlen A + lp + g + rp + dataOffset L) (dataLength L)
      (columnOffsetWithinGlyph L) (numberOfColumns L).
Proof.
  intros Hcc HL.
  pose proof (byte_values_nonneg _ HbA) as HA0.
  pose proof (glyph_at_Some_lt _ _ _ HbS Hcc HL) as Hlt.
  rewrite (indicesForCol_compress r' _ _ Hc after_byte_values Hsz)
    by (apply after_size_t; lia).
  rewrite app_assoc, glyph_at_app_ge.
  - rewrite widths_sum_app, widths_sum_damaged, zlen_app, zlen_damaged_widths by lia.
    replace (widths_sum A + lp + ncols + rp + c - (widths_sum A + (lp + ncols + rp)))
      with c by lia.
    rewrite HL. cbn [shift_lookup]. f_equal; lia.
  - apply byte_values_app; [assumption|apply byte_values_damaged; lia].
  - rewrite widths_sum_app, widths_sum_damaged by lia. lia.
Qed.

(** The row has as many columns as its parts. *)
Lemma after_columns :
  columns (_cwid r') = widths_sum A + lp + ncols + rp + widths_sum S.
Proof.
  pose proof (compress_wf _ after_byte_values Hsz) as Hwf'.
  rewrite <- Hc in Hwf'.
  rewrite <- (widths_sum_expand _ (wf_nonneg _ Hwf')), Hc, expand_compress.
  rewrite !widths_sum_app, widths_sum_damaged by lia. lia.
Qed.

End AfterWrite.

(** ** The effect of a write *)

Section WriteEffect.
Import til til_facts.

Variable r : ROW.
Hypothesis Hwf : wf (_cwid r).
Hypothesis HI1 : size (_cwid r) = zlen (_data r).
Hypothesis Hcan : canonical (_cwid r).

Lemma write_effect_of_return (fuel : nat) (col ncols : Z) (glyph : wstring)
      (r' : ROW) (res : Z * Z) :
  0 <= col < columns (_cwid r) -> 1 <= ncols <= 255 -> 1 <= zlen glyph <= 2 ^ 16 ->
  WriteGlyphAtMeasured fuel r col ncols glyph = Returned (r', res) ->
  exists A M S maxD,
    write_effect r r' col ncols glyph A M S maxD
    /\ r' = overwritten r col ncols glyph (zlen M) maxD
    /\ res = (dataOffset (_indicesForCol r col) + zlen glyph, col + ncols).
Proof.
  intros Hcol Hn Hg H.
  destruct (write_shape r Hwf HI1 Hcan fuel col ncols glyph r' res Hcol Hn Hg H)
    as (A & M & S & maxD & He & HA & HwA & HwM & Hhead & Htail & Hend & Hst & Hr' & Hres).
  pose proof (zlen_expand _ (wf_nonneg _ Hwf)) as Hexp.
  pose proof (byte_values_expand _ (proj1 Hwf)) as Hbv.
  pose proof (lookup_inb r Hwf col Hcol) as Hinb. cbv zeta in Hinb.
  exists A, M, S, maxD. split; [|split; assumption].
  assert (Hb : byte_values A /\ byte_values M /\ byte_values S).
  { rewrite He in Hbv. apply Forall_app in Hbv. destruct Hbv as [HbA Hbv].
    apply Forall_app in Hbv. now split. }
  assert (Hlen : zlen A + zlen M + zlen S = zlen (_data r)).
  { rewrite <- HI1, <- Hexp, He, !zlen_app. lia. }
  constructor; try assumption; try lia.
  - rewrite Hr'. now apply overwritten_cwid.
  - rewrite Hr'. now apply overwritten_data.
  - rewrite Hr'. reflexivity.
Qed.

End WriteEffect.

(** ** Views into spliced text *)

Section Views.
Context {T : Type}.

Lemma view_mid (P X Q : list T) :
  firstn (Z.to_nat (zlen X)) (skipn (Z.to_nat (zlen P)) (P ++ X ++ Q)) = X.
Proof. now rewrite skipn_zlen, firstn_zlen. Qed.

Lemma view_prefix (P Q : list T) (o n : Z) :
  0 <= o -> 0 <= n -> o + n <= zlen P ->
  firstn (Z.to_nat n) (skipn (Z.to_nat o) (P ++ Q))
  = firstn (Z.to_nat n) (skipn (Z.to_nat o) P).
Proof.
  intros Ho Hn Hle. unfold zlen in Hle.
  rewrite skipn_app, firstn_app, length_skipn.
  replace (Z.to_nat n - (Datatypes.length P - Z.to_nat o))%nat with 0%nat by lia.
  cbn [firstn]. now rewrite app_nil_r.
Qed.

Lemma view_suffix (P Q : list T) (k n : Z) :
  0 <= k ->
  firstn (Z.to_nat n) (skipn (Z.to_nat (zlen P + k)) (P ++ Q))
  = firstn (Z.to_nat n) (skipn (Z.to_nat k) Q).
Proof. intros Hk. now rewrite skipn_app_Z. Qed.

Lemma skipn_add_Z (l : list T) (a k : Z) :
  0 <= a -> 0 <= k ->
  skipn (Z.to_nat (a + k)) l = skipn (Z.to_nat k) (skipn (Z.to_nat a) l).
Proof.
  intros Ha Hk. rewrite skipn_skipn. f_equal. lia.
Qed.

Lemma firstn_skipn_Z (l : list T) (n : Z) :
  0 <= n <= zlen l ->
  l = firstn (Z.to_nat n) l ++ skipn (Z.to_nat n) l
  /\ zlen (firstn (Z.to_nat n) l) = n.
Proof.
  intros Hn. split; [now rewrite firstn_skipn|now apply zlen_firstn].
Qed.

End Views.

Lemma glyph_at_extent (l : list Z) (c : Z) (L : ColumnLookupResult) :
  byte_values l -> 0 <= c -> glyph_at l c = Some L ->
  0 <= dataOffset L /\ 1 <= dataLength L /\ dataOffset L + dataLength L <= zlen l
  /\ 0 <= columnOffsetWithinGlyph L <= c.
Proof.
  intros Hb Hc HL.
  destruct (glyph_at_Some l c L Hb Hc HL) as (A & tl & He & HA & HwA & Hoff & Hdl).
  pose proof (leading_zeros_nonneg tl) as Hlz.
  pose proof (zlen_nonneg A) as HA0.
  assert (HbA : byte_values A) by (rewrite He in Hb; now apply Forall_app in Hb).
  pose proof (byte_values_nonneg _ HbA) as HwA0.
  rewrite He, zlen_app, zlen_cons. lia.
Qed.

(** ** What a write leaves in the row *)

Section EffectFacts.
Import til til_facts.

Variables r r' : ROW.
Variables col ncols : Z.
Variable glyph : wstring.
Variables A M S : list Z.
Variable maxD : Z.

Hypothesis Hwf : wf (_cwid r).
Hypothesis Hcan : canonical (_cwid r).
Hypothesis HE : write_effect r r' col ncols glyph A M S maxD.
Hypothesis Hn : 1 <= ncols <= 255.
Hypothesis Hg : 1 <= zlen glyph.
Hypothesis Hsz : zlen (_data r') < 2 ^ 16.

Local Abbreviation L := (_indicesForCol r col).
Local Abbreviation lp := (columnOffsetWithinGlyph (_indicesForCol r col)).
Local Abbreviation rp := (maxD - (col + ncols)).
Local Abbreviation l' := (A ++ damaged_widths ncols (zlen glyph)
                             (columnOffsetWithinGlyph (_indicesForCol r col))
                             (maxD - (col + ncols)) ++ S).

Lemma effect_size : zlen (_data r') = zlen l'.
Proof.
  destruct HE.
  pose proof (zlen_nonneg A) as HzA0. pose proof (zlen_nonneg M) as HzM0.
  pose proof (zlen_nonneg S) as HzS0.
  rewrite we_data0, !zlen_app, zlen_firstn, zlen_skipn by lia.
  rewrite zlen_damaged_text, zlen_damaged_widths by lia. lia.
Qed.

Lemma effect_size_lt : zlen l' < 2 ^ 16.
Proof. now rewrite <- effect_size. Qed.

Lemma effect_cwid : _cwid r' = compress l'.
Proof. destruct HE. exact we_cwid0. Qed.

Lemma effect_col_nonneg : 0 <= col - lp /\ col - lp <= maxD.
Proof.
  destruct HE as [He [HbA [HbM HbS]] Ho Hl Hp Hr Hend Hh Ht Hst Hlen Hc Hd Hm].
  pose proof (byte_values_nonneg _ HbA). lia.
Qed.

Lemma effect_old_lookup (c : Z) :
  0 <= c < columns (_cwid r) ->
  glyph_at (A ++ M ++ S) c = Some (_indicesForCol r c).
Proof.
  intros Hc. destruct HE.
  pose proof (wf_columns_bound _ Hwf) as Hcb. change (2 ^ 24) with 16777216 in Hcb.
  pose proof SIZE_MOD_eq as HS.
  pose proof (byte_values_expand _ (proj1 Hwf)) as Hbv.
  pose proof (widths_sum_expand _ (wf_nonneg _ Hwf)) as Hsum.
  rewrite (indicesForCol_canonical r c Hwf Hcan) by (unfold is_size_t; lia).
  rewrite <- we_expand0.
  destruct (glyph_at (expand (_cwid r)) c) as [L0|] eqn:H0; [reflexivity|].
  apply glyph_at_None in H0; [lia|assumption|lia].
Qed.

Lemma effect_columns : columns (_cwid r') = columns (_cwid r).
Proof.
  destruct HE as [He [HbA [HbM HbS]] Ho Hl Hp Hr Hend Hh Ht Hst Hlen Hc Hd Hm].
  rewrite (after_columns r' A S ncols (zlen glyph) lp rp Hc HbA HbS Hn Hg Hp
             ltac:(lia) effect_size_lt).
  rewrite <- (widths_sum_expand _ (wf_nonneg _ Hwf)), He, !widths_sum_app.
  rewrite widths_sum_app in Hr. lia.
Qed.

Lemma effect_wf : wf (_cwid r').
Proof.
  destruct HE as [He [HbA [HbM HbS]] Ho Hl Hp Hr Hend Hh Ht Hst Hlen Hc Hd Hm].
  rewrite Hc. apply compress_wf; [|exact effect_size_lt].
  apply after_byte_values; (assumption || lia).
Qed.

Lemma effect_canonical : canonical (_cwid r').
Proof. rewrite effect_cwid. apply compress_canonical. Qed.

Lemma effect_aligned : size (_cwid r') = zlen (_data r').
Proof. now rewrite effect_cwid, size_compress, effect_size. Qed.

(** The written glyph. *)
Lemma effect_glyph (j : Z) :
  0 <= j < ncols ->
  _indicesForCol r' (col + j) = mk_lookup (dataOffset L + lp) (zlen glyph) j ncols.
Proof.
  intros Hj.
  destruct HE as [He [HbA [HbM HbS]] Ho Hl Hp Hr Hend Hh Ht Hst Hlen Hc Hd Hm].
  pose proof (after_glyph r' A S ncols (zlen glyph) lp rp Hc HbA HbS Ht Hn Hg Hp
                ltac:(lia) effect_size_lt j Hj) as H.
  replace (col + j) with (widths_sum A + lp + j) by (rewrite Hl; lia).
  rewrite H, Ho. reflexivity.
Qed.

Lemma effect_glyph_text :
  view_text r' (mk_view (dataOffset L + lp) (zlen glyph)) = glyph.
Proof.
  destruct HE as [He [HbA [HbM HbS]] Ho Hl Hp Hr Hend Hh Ht Hst Hlen Hc Hd Hm].
  pose proof (zlen_nonneg A) as HzA0. pose proof (zlen_nonneg M) as HzM0.
  pose proof (zlen_nonneg S) as HzS0.
  unfold view_text. cbn [view_begin view_size]. rewrite Hd. unfold damaged_text.
  rewrite <- !app_assoc, (app_assoc (firstn _ _)).
  replace (dataOffset L + lp)
    with (zlen (firstn (Z.to_nat (zlen A)) (_data r)
                  ++ repeat UNICODE_SPACE (Z.to_nat lp))).
  - apply view_mid.
  - rewrite zlen_app, zlen_firstn, zlen_repeat by lia. lia.
Qed.

(** The columns repaired on the left. *)
Lemma effect_left (c : Z) :
  col - lp <= c < col ->
  _indicesForCol r' c = mk_lookup (dataOffset L + (c - (col - lp))) 1 0 1
  /\ view_text r' (GlyphAt r' c) = [UNICODE_SPACE].
Proof.
  intros Hcc.
  destruct HE as [He [HbA [HbM HbS]] Ho Hl Hp Hr Hend Hh Ht Hst Hlen Hc Hd Hm].
  pose proof (zlen_nonneg A) as HzA0. pose proof (zlen_nonneg M) as HzM0.
  pose proof (zlen_nonneg S) as HzS0.
  pose proof (after_left r' A S ncols (zlen glyph) lp rp Hc HbA HbS Hn Hg Hp
                ltac:(lia) effect_size_lt (c - (col - lp)) ltac:(lia)) as H.
  rewrite Hl, Ho in H.
  replace (col - columnOffsetWithinGlyph (_indicesForCol r col) + (c - (col - lp)))
    with c in H by lia.
  split; [exact H|].
  unfold GlyphAt. cbv zeta. rewrite H. cbn [dataOffset dataLength].
  unfold view_text. cbn [view_begin view_size]. rewrite Hd. unfold damaged_text.
  rewrite (repeat_split_Z UNICODE_SPACE lp (c - (col - lp))) by lia.
  rewrite <- !app_assoc, (app_assoc (firstn _ _)). cbn [app].
  replace (dataOffset L + (c - (col - lp)))
    with (zlen (firstn (Z.to_nat (zlen A)) (_data r)
                  ++ repeat UNICODE_SPACE (Z.to_nat (c - (col - lp))))).
  - change 1 with (zlen [UNICODE_SPACE]).
    apply (view_mid _ [UNICODE_SPACE]).
  - rewrite zlen_app, zlen_firstn, zlen_repeat by lia. lia.
Qed.

(** The columns repaired on the right. *)
Lemma effect_right (c : Z) :
  col + ncols <= c < maxD ->
  _indicesForCol r' c
  = mk_lookup (dataOffset L + lp + zlen glyph + (c - (col + ncols))) 1 0 1
  /\ view_text r' (GlyphAt r' c) = [UNICODE_SPACE].
Proof.
  intros Hcc.
  destruct HE as [He [HbA [HbM HbS]] Ho Hl Hp Hr Hend Hh Ht Hst Hlen Hc Hd Hm].
  pose proof (zlen_nonneg A) as HzA0. pose proof (zlen_nonneg M) as HzM0.
  pose proof (zlen_nonneg S) as HzS0.
  pose proof (after_right r' A S ncols (zlen glyph) lp rp Hc HbA HbS Ht Hn Hg Hp
                ltac:(lia) effect_size_lt (c - (col + ncols))
                ltac:(lia)) as H.
  rewrite Hl, Ho in H.
  replace (col - columnOffsetWithinGlyph (_indicesForCol r col) + lp + ncols
           + (c - (col + ncols)))
    with c in H by lia.
  split; [exact H|].
  unfold GlyphAt. cbv zeta. rewrite H. cbn [dataOffset dataLength].
  unfold view_text. cbn [view_begin view_size]. rewrite Hd. unfold damaged_text.
  rewrite (repeat_split_Z UNICODE_SPACE rp (c - (col + ncols)))
    by lia.
  rewrite <- !app_assoc. cbn [app].
  replace (firstn (Z.to_nat (zlen A)) (_data r)
             ++ repeat UNICODE_SPACE (Z.to_nat (columnOffsetWithinGlyph (_indicesForCol r col)))
             ++ glyph
             ++ repeat UNICODE_SPACE (Z.to_nat (c - (col + ncols)))
             ++ UNICODE_SPACE
                :: repeat UNICODE_SPACE (Z.to_nat (rp - (c - (col + ncols)) - 1))
             ++ skipn (Z.to_nat (zlen A + zlen M)) (_data r))
    with ((firstn (Z.to_nat (zlen A)) (_data r)
             ++ repeat UNICODE_SPACE (Z.to_nat lp)
             ++ glyph
             ++ repeat UNICODE_SPACE (Z.to_nat (c - (col + ncols))))
            ++ [UNICODE_SPACE]
            ++ repeat UNICODE_SPACE (Z.to_nat (rp - (c - (col + ncols)) - 1))
            ++ skipn (Z.to_nat (zlen A + zlen M)) (_data r))
    by (rewrite <- !app_assoc; reflexivity).
  replace (dataOffset L + lp + zlen glyph + (c - (col + ncols)))
    with (zlen (firstn (Z.to_nat (zlen A)) (_data r)
                  ++ repeat UNICODE_SPACE (Z.to_nat lp)
                  ++ glyph
                  ++ repeat UNICODE_SPACE (Z.to_nat (c - (col + ncols))))).
  - change 1 with (zlen [UNICODE_SPACE]).
    apply (view_mid _ [UNICODE_SPACE]).
  - rewrite !zlen_app, zlen_firstn, !zlen_repeat by lia. lia.
Qed.

(** The columns to the left of the damage keep their glyphs. *)
Lemma effect_frame_left (c : Z) :
  0 <= c < col - lp ->
  _indicesForCol r' c = _indicesForCol r c
  /\ view_text r' (GlyphAt r' c) = view_text r (GlyphAt r c).
Proof.
  intros Hcc.
  pose proof effect_size_lt as Hlt.
  destruct HE as [He [HbA [HbM HbS]] Ho Hl Hp Hr Hend Hh Ht Hst Hlen Hc Hd Hm].
  pose proof (zlen_nonneg A) as HzA0. pose proof (zlen_nonneg M) as HzM0.
  pose proof (zlen_nonneg S) as HzS0.
  pose proof (byte_values_nonneg _ HbM) as HM0.
  pose proof (byte_values_nonneg _ HbS) as HS00.
  pose proof (widths_sum_expand _ (wf_nonneg _ Hwf)) as Hsum.
  rewrite He, !widths_sum_app in Hsum. rewrite widths_sum_app in Hr.
  assert (HcA : 0 <= c < widths_sum A) by lia.
  pose proof (effect_old_lookup c ltac:(lia)) as Hold.
  rewrite glyph_at_app_lt in Hold by assumption.
  pose proof (after_frame_left r' A S ncols (zlen glyph) lp rp Hc HbA HbS Hn Hg Hp
                ltac:(lia) Hlt c _ HcA Hold) as Hnew.
  split; [exact Hnew|].
  unfold GlyphAt. cbv zeta. rewrite Hnew.
  destruct (glyph_at_extent A c _ HbA (proj1 HcA) Hold) as (Ho0 & Hl1 & Hext & _).
  unfold view_text. cbn [view_begin view_size]. rewrite Hd.
  destruct (firstn_skipn_Z (_data r) (zlen A) ltac:(lia)) as [Hsplit HzA].
  rewrite view_prefix by lia.
  rewrite <- (view_prefix (firstn (Z.to_nat (zlen A)) (_data r))
                (skipn (Z.to_nat (zlen A)) (_data r))) by lia.
  rewrite firstn_skipn. reflexivity.
Qed.

(** A column is right of the damage exactly when its glyph starts at or
    after the end of the written columns. *)
Lemma effect_damage_end (c : Z) :
  col + ncols <= c < columns (_cwid r) ->
  c < maxD <-> c - columnOffsetWithinGlyph (_indicesForCol r c) < col + ncols.
Proof.
  intros Hcc.
  pose proof effect_col_nonneg as Hcol0.
  assert (Hp0 : 0 <= lp) by (destruct HE; assumption).
  pose proof (effect_old_lookup c ltac:(lia)) as Hold.
  destruct HE as [He [HbA [HbM HbS]] Ho Hl Hp Hr Hend Hh Ht Hst Hlen Hc Hd Hm].
  split.
  - intros Hlt. apply (Hst c); [lia|now rewrite He].
  - intros Hstart.
    destruct (Z.lt_ge_cases c maxD) as [Hlt|Hge]; [assumption|exfalso].
    rewrite app_assoc, glyph_at_app_ge in Hold
      by (try apply byte_values_app; assumption || lia).
    destruct (glyph_at S (c - widths_sum (A ++ M))) as [LS|] eqn:HLS; [|discriminate].
    cbn [shift_lookup] in Hold.
    destruct (glyph_at_extent S (c - widths_sum (A ++ M)) LS HbS ltac:(lia) HLS) as (_ & _ & _ & Hoff).
    injection Hold as Hold. rewrite <- Hold in Hstart.
    cbn [columnOffsetWithinGlyph] in Hstart. lia.
Qed.

(** The columns to the right of the damage keep their glyphs, moved by the
    change in length of the text. *)
Lemma effect_frame_right (c : Z) :
  maxD <= c < columns (_cwid r) ->
  _indicesForCol r' c
  = mk_lookup (dataOffset (_indicesForCol r c) + (zlen (_data r') - zlen (_data r)))
      (dataLength (_indicesForCol r c))
      (columnOffsetWithinGlyph (_indicesForCol r c))
      (numberOfColumns (_indicesForCol r c))
  /\ view_text r' (GlyphAt r' c) = view_text r (GlyphAt r c).
Proof.
  intros Hcc.
  pose proof effect_size_lt as Hlt.
  pose proof effect_size as Hsize.
  pose proof effect_col_nonneg as Hcol0.
  pose proof (effect_old_lookup c ltac:(lia)) as Hold.
  destruct HE as [He [HbA [HbM HbS]] Ho Hl Hp Hr Hend Hh Ht Hst Hlen Hc Hd Hm].
  pose proof (zlen_nonneg A) as HzA0. pose proof (zlen_nonneg M) as HzM0.
  pose proof (zlen_nonneg S) as HzS0.
  rewrite app_assoc, glyph_at_app_ge in Hold
    by (try apply byte_values_app; assumption || lia).
  destruct (glyph_at S (c - widths_sum (A ++ M))) as [LS|] eqn:HLS; [|discriminate].
  cbn [shift_lookup] in Hold. injection Hold as Hold.
  destruct (glyph_at_extent S (c - widths_sum (A ++ M)) LS HbS ltac:(lia) HLS) as (Ho0 & Hl1 & Hext & _).
  pose proof (after_frame_right r' A S ncols (zlen glyph) lp rp Hc HbA HbS Hn Hg Hp
                ltac:(lia) Hlt (c - widths_sum (A ++ M)) LS
                ltac:(lia) HLS) as Hnew.
  replace (widths_sum A + lp + ncols + rp + (c - widths_sum (A ++ M)))
    with c in Hnew by lia.
  rewrite !zlen_app, zlen_damaged_widths in Hsize by lia.
  assert (Hlook : _indicesForCol r' c
                  = mk_lookup
                      (dataOffset (_indicesForCol r c) + (zlen (_data r') - zlen (_data r)))
                      (dataLength (_indicesForCol r c))
                      (columnOffsetWithinGlyph (_indicesForCol r c))
                      (numberOfColumns (_indicesForCol r c))).
  { rewrite Hnew, <- Hold.
    cbn [dataOffset dataLength columnOffsetWithinGlyph numberOfColumns].
    rewrite zlen_app. f_equal. lia. }
  split; [exact Hlook|].
  unfold GlyphAt. cbv zeta. rewrite Hnew, <- Hold. cbn [dataOffset dataLength].
  unfold view_text. cbn [view_begin view_size].
  rewrite zlen_app.
  transitivity (firstn (Z.to_nat (dataLength LS))
                  (skipn (Z.to_nat (dataOffset LS))
                     (skipn (Z.to_nat (zlen A + zlen M)) (_data r)))).
  - rewrite Hd, app_assoc.
    replace (zlen A + lp + zlen glyph + rp + dataOffset LS)
      with (zlen (firstn (Z.to_nat (zlen A)) (_data r) ++ damaged_text glyph lp rp)
            + dataOffset LS).
    + now rewrite view_suffix by lia.
    + rewrite zlen_app, zlen_firstn, zlen_damaged_text by lia. lia.
  - now rewrite <- skipn_add_Z by lia.
Qed.

End EffectFacts.

(** * Reading back what was written *)

(** X1: round trip.  After a write of [glyph] over [ncols] columns at
    [col] has returned, each of the columns [col], ..., [col + ncols - 1]
    reads the glyph back: [GlyphAt] gives one and the same view, whose text
    is [glyph]; the lookup reports the offset of the column in the glyph
    and the width [ncols]; and [DbcsAttrAt] is [Single] for a glyph of one
    column, else [Leading] on its first column and [Trailing] on the
    others. *)
Theorem write_then_read (fuel : nat) (r r' : ROW) (col ncols : Z) (glyph : wstring)
        (res : Z * Z) (j : Z) :
  til.wf (_cwid r) -> til.size (_cwid r) = zlen (_data r) -> canonical (_cwid r) ->
  0 <= col < til.columns (_cwid r) -> 1 <= ncols <= 255 -> 1 <= zlen glyph <= 2 ^ 16 ->
  WriteGlyphAtMeasured fuel r col ncols glyph = Returned (r', res) ->
  zlen (_data r') < 2 ^ 16 ->
  0 <= j < ncols ->
  view_text r' (GlyphAt r' (col + j)) = glyph
  /\ GlyphAt r' (col + j) = GlyphAt r' col
  /\ columnOffsetWithinGlyph (_indicesForCol r' (col + j)) = j
  /\ numberOfColumns (_indicesForCol r' (col + j)) = ncols
  /\ DbcsAttrAt r' (col + j)
     = (if ncols =? 1 then Single else if j =? 0 then Leading else Trailing).
Proof.
  intros Hwf HI1 Hcan Hcol Hn Hg H Hsz Hj.
  destruct (write_effect_of_return r Hwf HI1 Hcan fuel col ncols glyph r' res Hcol Hn Hg H)
    as (A & M & S & maxD & HE & _ & _).
  pose proof (effect_glyph r r' col ncols glyph A M S maxD HE Hn (proj1 Hg) Hsz j Hj)
    as Hl.
  pose proof (effect_glyph r r' col ncols glyph A M S maxD HE Hn (proj1 Hg) Hsz 0
                ltac:(lia)) as Hl0.
  rewrite Z.add_0_r in Hl0.
  pose proof (effect_glyph_text r r' col ncols glyph A M S maxD HE) as Ht.
  unfold GlyphAt, DbcsAttrAt. cbv zeta. rewrite Hl, Hl0.
  cbn [dataOffset dataLength columnOffsetWithinGlyph numberOfColumns].
  split; [exact Ht|]. split; [reflexivity|]. split; [reflexivity|].
  split; [reflexivity|].
  destruct (Z.eqb_spec ncols 1); [reflexivity|].
  destruct (Z.leb_spec 1 j); destruct (Z.eqb_spec j 0); (reflexivity || lia).
Qed.

Lemma write_then_read_witness :
  view_text wide_row (GlyphAt wide_row (3 + 1)) = [han]
  /\ GlyphAt wide_row (3 + 1) = GlyphAt wide_row 3
  /\ columnOffsetWithinGlyph (_indicesForCol wide_row (3 + 1)) = 1
  /\ numberOfColumns (_indicesForCol wide_row (3 + 1)) = 2
  /\ DbcsAttrAt wide_row (3 + 1)
     = (if 2 =? 1 then Single else if 1 =? 0 then Leading else Trailing).
Proof.
  apply (write_then_read 1 (blank_row 10) wide_row 3 2 [han] (4, 5) 1).
  - exact blank_row_wf.
  - reflexivity.
  - reflexivity.
  - cbn. lia.
  - lia.
  - cbn. lia.
  - reflexivity.
  - cbn. lia.
  - lia.
Defined.

(** X2: damage repair.  A write that covers only part of an old glyph
    leaves a single blank in each column of that glyph that it does not
    cover: the columns of the glyph at [col] that lie left of [col], and
    the columns at or after [col + ncols] whose old glyph started before
    [col + ncols].  Each reads as one code unit U+0020 of one column. *)
Theorem write_blanks_damage (fuel : nat) (r r' : ROW) (col ncols : Z) (glyph : wstring)
        (res : Z * Z) (c : Z) :
  til.wf (_cwid r) -> til.size (_cwid r) = zlen (_data r) -> canonical (_cwid r) ->
  0 <= col < til.columns (_cwid r) -> 1 <= ncols <= 255 -> 1 <= zlen glyph <= 2 ^ 16 ->
  WriteGlyphAtMeasured fuel r col ncols glyph = Returned (r', res) ->
  zlen (_data r') < 2 ^ 16 ->
  col - columnOffsetWithinGlyph (_indicesForCol r col) <= c < col
  \/ (col + ncols <= c < til.columns (_cwid r)
      /\ c - columnOffsetWithinGlyph (_indicesForCol r c) < col + ncols) ->
  view_text r' (GlyphAt r' c) = [UNICODE_SPACE]
  /\ view_size (GlyphAt r' c) = 1
  /\ numberOfColumns (_indicesForCol r' c) = 1
  /\ DbcsAttrAt r' c = Single.
Proof.
  intros Hwf HI1 Hcan Hcol Hn Hg H Hsz Hc.
  destruct (write_effect_of_return r Hwf HI1 Hcan fuel col ncols glyph r' res Hcol Hn Hg H)
    as (A & M & S & maxD & HE & _ & _).
  assert (Hl : exists o, _indicesForCol r' c = mk_lookup o 1 0 1
                         /\ view_text r' (GlyphAt r' c) = [UNICODE_SPACE]).
  { destruct Hc as [Hleft|[Hright Hstart]].
    - destruct (effect_left r r' col ncols glyph A M S maxD HE Hn (proj1 Hg) Hsz c Hleft)
        as [Hl Ht].
      eexists. split; [exact Hl|exact Ht].
    - apply (effect_damage_end r r' col ncols glyph A M S maxD Hwf Hcan HE Hn c Hright)
        in Hstart.
      destruct (effect_right r r' col ncols glyph A M S maxD HE Hn (proj1 Hg) Hsz c
                  ltac:(lia)) as [Hl Ht].
      eexists. split; [exact Hl|exact Ht]. }
  destruct Hl as (o & Hl & Ht).
  split; [exact Ht|].
  unfold GlyphAt, DbcsAttrAt. cbv zeta. rewrite Hl. repeat split.
Qed.

Lemma write_blanks_damage_witness :
  view_text left_damaged_row (GlyphAt left_damaged_row 3) = [UNICODE_SPACE]
  /\ view_size (GlyphAt left_damaged_row 3) = 1
  /\ numberOfColumns (_indicesForCol left_damaged_row 3) = 1
  /\ DbcsAttrAt left_damaged_row 3 = Single.
Proof.
  apply (write_blanks_damage 0 wide_row left_damaged_row 4 1 [120] (4, 5) 3).
  - exact wide_row_wf.
  - reflexivity.
  - reflexivity.
  - cbn. lia.
  - lia.
  - cbn. lia.
  - reflexivity.
  - cbn. lia.
  - left. cbn. lia.
Defined.

(** X3: frame, left.  A write leaves every column to the left of the
    glyph it damages at [col] as it was: same lookup, same text, same
    attribute. *)
Theorem write_frame_left (fuel : nat) (r r' : ROW) (col ncols : Z) (glyph : wstring)
        (res : Z * Z) (c : Z) :
  til.wf (_cwid r) -> til.size (_cwid r) = zlen (_data r) -> canonical (_cwid r) ->
  0 <= col < til.columns (_cwid r) -> 1 <= ncols <= 255 -> 1 <= zlen glyph <= 2 ^ 16 ->
  WriteGlyphAtMeasured fuel r col ncols glyph = Returned (r', res) ->
  zlen (_data r') < 2 ^ 16 ->
  0 <= c < col - columnOffsetWithinGlyph (_indicesForCol r col) ->
  _indicesForCol r' c = _indicesForCol r c
  /\ view_text r' (GlyphAt r' c) = view_text r (GlyphAt r c)
  /\ DbcsAttrAt r' c = DbcsAttrAt r c.
Proof.
  intros Hwf HI1 Hcan Hcol Hn Hg H Hsz Hc.
  destruct (write_effect_of_return r Hwf HI1 Hcan fuel col ncols glyph r' res Hcol Hn Hg H)
    as (A & M & S & maxD & HE & _ & _).
  destruct (effect_frame_left r r' col ncols glyph A M S maxD Hwf Hcan HE Hn (proj1 Hg)
              Hsz c Hc) as [Hl Ht].
  split; [exact Hl|]. split; [exact Ht|].
  unfold DbcsAttrAt. cbv zeta. now rewrite Hl.
Qed.

Lemma write_frame_left_witness :
  _indicesForCol left_damaged_row 1 = _indicesForCol wide_row 1
  /\ view_text left_damaged_row (GlyphAt left_damaged_row 1)
     = view_text wide_row (GlyphAt wide_row 1)
  /\ DbcsAttrAt left_damaged_row 1 = DbcsAttrAt wide_row 1.
Proof.
  apply (write_frame_left 0 wide_row left_damaged_row 4 1 [120] (4, 5) 1).
  - exact wide_row_wf.
  - reflexivity.
  - reflexivity.
  - cbn. lia.
  - lia.
  - cbn. lia.
  - reflexivity.
  - cbn. lia.
  - cbn. lia.
Defined.

(** X4: frame, right.  A write leaves every glyph that starts at or after
    column [col + ncols] as it was: same text, same length, same width and
    attribute; only its place in the text moves, by the change in length
    of the text. *)
Theorem write_frame_right (fuel : nat) (r r' : ROW) (col ncols : Z) (glyph : wstring)
        (res : Z * Z) (c : Z) :
  til.wf (_cwid r) -> til.size (_cwid r) = zlen (_data r) -> canonical (_cwid r) ->
  0 <= col < til.columns (_cwid r) -> 1 <= ncols <= 255 -> 1 <= zlen glyph <= 2 ^ 16 ->
  WriteGlyphAtMeasured fuel r col ncols glyph = Returned (r', res) ->
  zlen (_data r') < 2 ^ 16 ->
  c < til.columns (_cwid r) ->
  col + ncols <= c - columnOffsetWithinGlyph (_indicesForCol r c) ->
  view_text r' (GlyphAt r' c) = view_text r (GlyphAt r c)
  /\ view_begin (GlyphAt r' c)
     = view_begin (GlyphAt r c) + (zlen (_data r') - zlen (_data r))
  /\ view_size (GlyphAt r' c) = view_size (GlyphAt r c)
  /\ columnOffsetWithinGlyph (_indicesForCol r' c)
     = columnOffsetWithinGlyph (_indicesForCol r c)
  /\ numberOfColumns (_indicesForCol r' c) = numberOfColumns (_indicesForCol r c)
  /\ DbcsAttrAt r' c = DbcsAttrAt r c.
Proof.
  intros Hwf HI1 Hcan Hcol Hn Hg H Hsz Hc Hstart.
  destruct (write_effect_of_return r Hwf HI1 Hcan fuel col ncols glyph r' res Hcol Hn Hg H)
    as (A & M & S & maxD & HE & _ & _).
  assert (Hoff : 0 <= columnOffsetWithinGlyph (_indicesForCol r c)).
  { unfold _indicesForCol.
    destruct (walk_runs (_cwid r) c 0 0) as [[cc cw] [|it rest]];
      cbn [columnOffsetWithinGlyph]; [lia|].
    unfold narrow_u8. apply Z.mod_pos_bound. lia. }
  assert (Hge : maxD <= c).
  { destruct (Z.lt_ge_cases c maxD) as [Hlt|Hge]; [|assumption].
    apply (effect_damage_end r r' col ncols glyph A M S maxD Hwf Hcan HE Hn c
             ltac:(lia)) in Hlt. lia. }
  destruct (effect_frame_right r r' col ncols glyph A M S maxD Hwf Hcan HE Hn (proj1 Hg)
              Hsz c ltac:(lia)) as [Hl Ht].
  split; [exact Ht|].
  unfold GlyphAt, DbcsAttrAt. cbv zeta. rewrite Hl. repeat split.
Qed.

Lemma write_frame_right_witness :
  view_text left_damaged_row (GlyphAt left_damaged_row 7)
  = view_text wide_row (GlyphAt wide_row 7)
  /\ view_begin (GlyphAt left_damaged_row 7)
     = view_begin (GlyphAt wide_row 7)
       + (zlen (_data left_damaged_row) - zlen (_data wide_row))
  /\ view_size (GlyphAt left_damaged_row 7) = view_size (GlyphAt wide_row 7)
  /\ columnOffsetWithinGlyph (_indicesForCol left_damaged_row 7)
     = columnOffsetWithinGlyph (_indicesForCol wide_row 7)
  /\ numberOfColumns (_indicesForCol left_damaged_row 7)
     = numberOfColumns (_indicesForCol wide_row 7)
  /\ DbcsAttrAt left_damaged_row 7 = DbcsAttrAt wide_row 7.
Proof.
  apply (write_frame_right 0 wide_row left_damaged_row 4 1 [120] (4, 5) 7).
  - exact wide_row_wf.
  - reflexivity.
  - reflexivity.
  - cbn. lia.
  - lia.
  - cbn. lia.
  - reflexivity.
  - cbn. lia.
  - cbn. lia.
  - cbn. lia.
Defined.

(** * What a write preserves *)

(** X5: the row after a write that returned is again a row the theorems
    above apply to.  Its column index is well formed and in canonical
    form, it has one entry per code unit of the text, and it covers as
    many columns as before: a write replaces columns, it never adds or
    removes one. *)
Theorem write_keeps_row_shape (fuel : nat) (r r' : ROW) (col ncols : Z) (glyph : wstring)
        (res : Z * Z) :
  til.wf (_cwid r) -> til.size (_cwid r) = zlen (_data r) -> canonical (_cwid r) ->
  0 <= col < til.columns (_cwid r) -> 1 <= ncols <= 255 -> 1 <= zlen glyph <= 2 ^ 16 ->
  WriteGlyphAtMeasured fuel r col ncols glyph = Returned (r', res) ->
  zlen (_data r') < 2 ^ 16 ->
  til.wf (_cwid r')
  /\ til.size (_cwid r') = zlen (_data r')
  /\ canonical (_cwid r')
  /\ til.columns (_cwid r') = til.columns (_cwid r)
  /\ _rowWidth r' = _rowWidth r.
Proof.
  intros Hwf HI1 Hcan Hcol Hn Hg H Hsz.
  destruct (write_effect_of_return r Hwf HI1 Hcan fuel col ncols glyph r' res Hcol Hn Hg H)
    as (A & M & S & maxD & HE & Hr' & _).
  split; [exact (effect_wf r r' col ncols glyph A M S maxD HE Hn (proj1 Hg) Hsz)|].
  split; [exact (effect_aligned r r' col ncols glyph A M S maxD HE (proj1 Hg))|].
  split; [exact (effect_canonical r r' col ncols glyph A M S maxD HE)|].
  split; [exact (effect_columns r r' col ncols glyph A M S maxD Hwf HE Hn (proj1 Hg) Hsz)|].
  rewrite Hr'. reflexivity.
Qed.

Lemma write_keeps_row_shape_witness :
  til.wf (_cwid left_damaged_row)
  /\ til.size (_cwid left_damaged_row) = zlen (_data left_damaged_row)
  /\ canonical (_cwid left_damaged_row)
  /\ til.columns (_cwid left_damaged_row) = til.columns (_cwid wide_row)
  /\ _rowWidth left_damaged_row = _rowWidth wide_row.
Proof.
  apply (write_keeps_row_shape 0 wide_row left_damaged_row 4 1 [120] (4, 5)).
  - exact wide_row_wf.
  - reflexivity.
  - reflexivity.
  - cbn. lia.
  - lia.
  - cbn. lia.
  - reflexivity.
  - cbn. lia.
Defined.

(** X6: the watermark stays within the stored columns.  After a write that
    returned, [MeasureRight] is at least [col + ncols], and it is at most
    the number of columns of the row if it was before. *)
Theorem MeasureRight_within_columns (fuel : nat) (r r' : ROW) (col ncols : Z)
        (glyph : wstring) (res : Z * Z) :
  til.wf (_cwid r) -> til.size (_cwid r) = zlen (_data r) -> canonical (_cwid r) ->
  0 <= col < til.columns (_cwid r) -> 1 <= ncols <= 255 -> 1 <= zlen glyph <= 2 ^ 16 ->
  WriteGlyphAtMeasured fuel r col ncols glyph = Returned (r', res) ->
  MeasureRight r <= til.columns (_cwid r) ->
  col + ncols <= MeasureRight r' <= til.columns (_cwid r).
Proof.
  intros Hwf HI1 Hcan Hcol Hn Hg H Hm.
  destruct (write_effect_of_return r Hwf HI1 Hcan fuel col ncols glyph r' res Hcol Hn Hg H)
    as (A & M & S & maxD & HE & _ & _).
  destruct HE as [He [HbA [HbM HbS]] Ho Hl Hp Hr Hend Hh Ht Hst Hlen Hc Hd Hmc].
  pose proof (widths_sum_expand _ (til_facts.wf_nonneg _ Hwf)) as Hsum.
  rewrite He, app_assoc, widths_sum_app in Hsum.
  pose proof (byte_values_nonneg _ HbS) as HS0.
  unfold MeasureRight in *. rewrite Hmc. lia.
Qed.

Lemma MeasureRight_within_columns_witness :
  4 + 1 <= MeasureRight left_damaged_row <= til.columns (_cwid wide_row).
Proof.
  apply (MeasureRight_within_columns 0 wide_row left_damaged_row 4 1 [120] (4, 5)).
  - exact wide_row_wf.
  - reflexivity.
  - reflexivity.
  - cbn. lia.
  - lia.
  - cbn. lia.
  - reflexivity.
  - cbn. lia.
Defined.

(** X7: the returned offset.  The second component of the pair a write
    returns is the column after the glyph.  The first is the offset of the
    damaged glyph plus the length of the written one: it falls short of the
    end of the written glyph in the new text by the number of blanks put
    in front of it, and is that end exactly when the write starts on the
    first column of the old glyph. *)
Theorem returned_offset_and_left_pad (fuel : nat) (r r' : ROW) (col ncols : Z)
        (glyph : wstring) (res : Z * Z) :
  til.wf (_cwid r) -> til.size (_cwid r) = zlen (_data r) -> canonical (_cwid r) ->
  0 <= col < til.columns (_cwid r) -> 1 <= ncols <= 255 -> 1 <= zlen glyph <= 2 ^ 16 ->
  WriteGlyphAtMeasured fuel r col ncols glyph = Returned (r', res) ->
  zlen (_data r') < 2 ^ 16 ->
  fst res + columnOffsetWithinGlyph (_indicesForCol r col)
  = view_begin (GlyphAt r' col) + view_size (GlyphAt r' col)
  /\ snd res = col + ncols.
Proof.
  intros Hwf HI1 Hcan Hcol Hn Hg H Hsz.
  destruct (write_effect_of_return r Hwf HI1 Hcan fuel col ncols glyph r' res Hcol Hn Hg H)
    as (A & M & S & maxD & HE & _ & Hres).
  pose proof (effect_glyph r r' col ncols glyph A M S maxD HE Hn (proj1 Hg) Hsz 0
                ltac:(lia)) as Hl0.
  rewrite Z.add_0_r in Hl0.
  unfold GlyphAt. cbv zeta. rewrite Hl0, Hres.
  cbn [fst snd view_begin view_size dataOffset dataLength]. split; lia.
Qed.

Lemma returned_offset_and_left_pad_witness :
  fst (4, 5) + columnOffsetWithinGlyph (_indicesForCol wide_row 4)
  = view_begin (GlyphAt left_damaged_row 4) + view_size (GlyphAt left_damaged_row 4)
  /\ snd (4, 5) = 4 + 1.
Proof.
  apply (returned_offset_and_left_pad 0 wide_row left_damaged_row 4 1 [120] (4, 5)).
  - exact wide_row_wf.
  - reflexivity.
  - reflexivity.
  - cbn. lia.
  - lia.
  - cbn. lia.
  - reflexivity.
  - cbn. lia.
Defined.

(** * Writing again *)

Lemma splice_same {T : Type} (P X Q : list T) :
  splice (P ++ X ++ Q) (zlen P) (zlen P + zlen X) X = P ++ X ++ Q.
Proof.
  unfold splice. rewrite firstn_zlen.
  rewrite <- (zlen_app P X), (app_assoc P X Q), (skipn_zlen (P ++ X) Q).
  now rewrite <- app_assoc.
Qed.

Lemma damaged_text_bare (glyph : wstring) : damaged_text glyph 0 0 = glyph.
Proof. unfold damaged_text. cbn [Z.to_nat repeat app]. apply app_nil_r. Qed.

Lemma damaged_widths_bare (ncols g : Z) :
  damaged_widths ncols g 0 0 = ncols :: repeat 0 (Z.to_nat (g - 1)).
Proof. unfold damaged_widths. cbn [Z.to_nat repeat app]. now rewrite app_nil_r. Qed.

(** X8: the same write a second time changes nothing.  On the row a write
    of [glyph] at [col] left, the same call returns at once (the damage
    loop does not run, whatever the fuel), takes the exact-overwrite path
    and returns the very same row; the offset it returns is now the end of
    the glyph. *)
Theorem write_twice_same_row (fuel : nat) (r r' : ROW) (col ncols : Z) (glyph : wstring)
        (res : Z * Z) (fuel' : nat) :
  til.wf (_cwid r) -> til.size (_cwid r) = zlen (_data r) -> canonical (_cwid r) ->
  0 <= col < til.columns (_cwid r) -> 1 <= ncols <= 255 -> 1 <= zlen glyph <= 2 ^ 16 ->
  WriteGlyphAtMeasured fuel r col ncols glyph = Returned (r', res) ->
  zlen (_data r') < 2 ^ 16 ->
  WriteGlyphAtMeasured fuel' r' col ncols glyph
  = Returned (r', (view_begin (GlyphAt r' col) + zlen glyph, col + ncols)).
Proof.
  intros Hwf HI1 Hcan Hcol Hn Hg H Hsz.
  destruct (write_effect_of_return r Hwf HI1 Hcan fuel col ncols glyph r' res Hcol Hn Hg H)
    as (A & M & S & maxD & HE & Hr' & _).
  pose proof (effect_wf r r' col ncols glyph A M S maxD HE Hn (proj1 Hg) Hsz) as Hwf'.
  pose proof (effect_aligned r r' col ncols glyph A M S maxD HE (proj1 Hg)) as HI1'.
  pose proof (effect_columns r r' col ncols glyph A M S maxD Hwf HE Hn (proj1 Hg) Hsz)
    as Hcols.
  pose proof (effect_glyph r r' col ncols glyph A M S maxD HE Hn (proj1 Hg) Hsz 0
                ltac:(lia)) as Hl0.
  rewrite Z.add_0_r in Hl0.
  assert (Hscan : damage_scan fuel' r' (col + ncols)
                    (dataLength (_indicesForCol r' col))
                    (col - columnOffsetWithinGlyph (_indicesForCol r' col)
                     + numberOfColumns (_indicesForCol r' col))
                  = Some (zlen glyph, col + ncols)).
  { rewrite Hl0. cbn [dataLength columnOffsetWithinGlyph numberOfColumns].
    rewrite Z.sub_0_r. apply damage_scan_done. lia. }
  rewrite (WriteGlyphAtMeasured_result r' Hwf' HI1' fuel' col ncols glyph (zlen glyph)
             (col + ncols) ltac:(lia) ltac:(lia) Hg Hscan).
  unfold GlyphAt. cbv zeta. cbn [view_begin].
  f_equal. f_equal.
  destruct HE as [He [HbA [HbM HbS]] Ho Hl Hp Hr Hend Hh Ht Hst Hlen Hc Hd Hmc].
  pose proof (zlen_nonneg A) as HzA0. pose proof (zlen_nonneg M) as HzM0.
  pose proof (zlen_nonneg S) as HzS0.
  assert (Hdata : splice (_data r') (dataOffset (_indicesForCol r' col))
                    (dataOffset (_indicesForCol r' col) + zlen glyph)
                    (damaged_text glyph 0 0)
                  = _data r').
  { rewrite damaged_text_bare, Hl0. cbn [dataOffset].
    rewrite Hd. unfold damaged_text.
    rewrite <- !app_assoc, (app_assoc (firstn _ _)).
    replace (dataOffset (_indicesForCol r col)
             + columnOffsetWithinGlyph (_indicesForCol r col))
      with (zlen (firstn (Z.to_nat (zlen A)) (_data r)
                    ++ repeat UNICODE_SPACE
                         (Z.to_nat (columnOffsetWithinGlyph (_indicesForCol r col)))))
      by (rewrite zlen_app, zlen_firstn, zlen_repeat by lia; lia).
    apply splice_same. }
  assert (Hcw : til.compress
                  (splice (til.expand (_cwid r')) (dataOffset (_indicesForCol r' col))
                     (dataOffset (_indicesForCol r' col) + zlen glyph)
                     (damaged_widths ncols (zlen glyph) 0 0))
                = _cwid r').
  { rewrite damaged_widths_bare, Hl0. cbn [dataOffset].
    rewrite Hc at 1. rewrite til_facts.expand_compress. rewrite Hc. f_equal.
    unfold damaged_widths.
    rewrite <- !app_assoc, (app_assoc A).
    replace (dataOffset (_indicesForCol r col)
             + columnOffsetWithinGlyph (_indicesForCol r col))
      with (zlen (A ++ repeat 1
                         (Z.to_nat (columnOffsetWithinGlyph (_indicesForCol r col)))))
      by (rewrite zlen_app, zlen_repeat by lia; lia).
    replace (zlen glyph) with (zlen (ncols :: repeat 0 (Z.to_nat (zlen glyph - 1)))) at 2
      by (rewrite zlen_cons, zlen_repeat by lia; lia).
    cbn [app]. apply (splice_same _ (ncols :: repeat 0 (Z.to_nat (zlen glyph - 1)))). }
  unfold overwritten. cbv zeta.
  rewrite Hl0. cbn [columnOffsetWithinGlyph dataOffset].
  rewrite Hl0 in Hdata, Hcw. cbn [dataOffset] in Hdata, Hcw.
  rewrite Z.sub_diag, Hdata, Hcw.
  replace (Z.max (_maxc r') (col + ncols)) with (_maxc r') by lia.
  destruct r'; reflexivity.
Qed.

Lemma write_twice_same_row_witness :
  WriteGlyphAtMeasured 0 left_damaged_row 4 1 [120]
  = Returned (left_damaged_row,
              (view_begin (GlyphAt left_damaged_row 4) + zlen [120], 4 + 1)).
Proof.
  apply (write_twice_same_row 0 wide_row left_damaged_row 4 1 [120] (4, 5) 0).
  - exact wide_row_wf.
  - reflexivity.
  - reflexivity.
  - cbn. lia.
  - lia.
  - cbn. lia.
  - reflexivity.
  - cbn. lia.
Defined.

(** * Termination and exceptions *)

(** X9: when a write returns.  On a well-formed, aligned row a write at a
    stored column returns, within [ncols] iterations of its damage loop,
    exactly when the written columns fit in the row; when they do not it
    never returns, however long the loop runs. *)
Theorem write_returns_iff_fits (fuel : nat) (r : ROW) (col ncols : Z) (glyph : wstring) :
  til.wf (_cwid r) -> til.size (_cwid r) = zlen (_data r) ->
  0 <= col < til.columns (_cwid r) -> 1 <= ncols <= 255 -> 1 <= zlen glyph <= 2 ^ 16 ->
  (Z.to_nat ncols <= fuel)%nat ->
  ((exists r' res, WriteGlyphAtMeasured fuel r col ncols glyph = Returned (r', res))
   <-> col + ncols <= til.columns (_cwid r))
  /\ (til.columns (_cwid r) < col + ncols ->
      forall fuel', WriteGlyphAtMeasured fuel' r col ncols glyph = OutOfFuel).
Proof.
  intros Hwf HI1 Hcol Hn Hg Hfuel.
  pose proof (til_facts.wf_columns_bound _ Hwf) as Hcb.
  change (2 ^ 24) with 16777216 in Hcb.
  pose proof SIZE_MOD_eq as HS.
  assert (Hdiv : til.columns (_cwid r) < col + ncols ->
                 forall fuel', WriteGlyphAtMeasured fuel' r col ncols glyph = OutOfFuel).
  { intros Hbig fuel'. apply WriteGlyphAtMeasured_diverges; try assumption; try lia.
    unfold is_size_t. lia. }
  split; [|exact Hdiv]. split.
  - intros (r' & res & H).
    destruct (Z.le_gt_cases (col + ncols) (til.columns (_cwid r))) as [Hle|Hgt];
      [assumption|].
    rewrite (Hdiv ltac:(lia) fuel) in H. discriminate.
  - intros Hfit.
    destruct (WriteGlyphAtMeasured_returns fuel r col ncols glyph Hwf HI1 Hcol
                ltac:(lia) Hfit Hg Hfuel) as (len & maxD & H).
    eexists. eexists. exact H.
Qed.

Lemma write_returns_iff_fits_witness :
  ((exists r' res, WriteGlyphAtMeasured 2 (blank_row 10) 9 2 [han] = Returned (r', res))
   <-> 9 + 2 <= til.columns (_cwid (blank_row 10)))
  /\ (til.columns (_cwid (blank_row 10)) < 9 + 2 ->
      forall fuel', WriteGlyphAtMeasured fuel' (blank_row 10) 9 2 [han] = OutOfFuel).
Proof.
  apply (write_returns_iff_fits 2 (blank_row 10) 9 2 [han]).
  - exact blank_row_wf.
  - reflexivity.
  - cbn. lia.
  - lia.
  - cbn. lia.
  - cbn. lia.
Defined.

(** X10: no exception on an aligned row.  When the column index has one
    entry per code unit of the text, a write of a non-empty glyph over at
    least one column raises no [std::out_of_range], at a stored column or
    past the last one: the call returns or its damage loop runs on. *)
Theorem write_never_throws (fuel : nat) (r : ROW) (col ncols : Z) (glyph : wstring) :
  til.wf (_cwid r) -> til.size (_cwid r) = zlen (_data r) ->
  0 <= col -> col + ncols < SIZE_MOD -> 1 <= ncols <= 255 -> 1 <= zlen glyph <= 2 ^ 16 ->
  WriteGlyphAtMeasured fuel r col ncols glyph = OutOfFuel
  \/ exists r' res, WriteGlyphAtMeasured fuel r col ncols glyph = Returned (r', res).
Proof.
  intros Hwf HI1 Hc0 Hc1 Hn Hg.
  pose proof (til_facts.wf_columns_bound _ Hwf) as Hcb.
  change (2 ^ 24) with 16777216 in Hcb.
  pose proof SIZE_MOD_eq as HS.
  destruct (Z.lt_ge_cases col (til.columns (_cwid r))) as [Hin|Hout].
  - pose proof (lookup_inb r Hwf col ltac:(lia)) as Hinb. cbv zeta in Hinb.
    destruct (damage_scan fuel r (col + ncols) (dataLength (_indicesForCol r col))
                (col - columnOffsetWithinGlyph (_indicesForCol r col)
                 + numberOfColumns (_indicesForCol r col)))
      as [[len maxD]|] eqn:Hscan.
    + right. eexists. eexists.
      exact (WriteGlyphAtMeasured_result r Hwf HI1 fuel col ncols glyph len maxD
               ltac:(lia) ltac:(lia) Hg Hscan).
    + left. unfold WriteGlyphAtMeasured. cbv zeta.
      rewrite (sub_sz_exact col), (add_sz_exact col ncols) by lia.
      rewrite (add_sz_exact (col - columnOffsetWithinGlyph (_indicesForCol r col))) by lia.
      rewrite Hscan. reflexivity.
  - left. apply WriteGlyphAtMeasured_diverges; try assumption; try lia.
    unfold is_size_t. lia.
Qed.

Lemma write_never_throws_witness :
  WriteGlyphAtMeasured 0 wide_row 4 1 [120] = OutOfFuel
  \/ exists r' res, WriteGlyphAtMeasured 0 wide_row 4 1 [120] = Returned (r', res).
Proof.
  apply (write_never_throws 0 wide_row 4 1 [120]).
  - exact wide_row_wf.
  - reflexivity.
  - lia.
  - unfold SIZE_MOD. lia.
  - lia.
  - cbn. lia.
Defined.

(** * Views *)

(** X11: a view never leaves the text.  On a well-formed, aligned row the
    view [GlyphAt] returns for any column, stored or not, lies within
    [_data], and it denotes as many code units as its size says; past the
    last stored column it is the empty view at the end of the text. *)
Theorem GlyphAt_within_text (r : ROW) (col : Z) :
  til.wf (_cwid r) -> til.size (_cwid r) = zlen (_data r) -> is_size_t col ->
  0 <= view_begin (GlyphAt r col)
  /\ 0 <= view_size (GlyphAt r col)
  /\ view_begin (GlyphAt r col) + view_size (GlyphAt r col) <= zlen (_data r)
  /\ zlen (view_text r (GlyphAt r col)) = view_size (GlyphAt r col)
  /\ (til.columns (_cwid r) <= col ->
      GlyphAt r col = mk_view (zlen (_data r)) 0).
Proof.
  intros Hwf HI1 [Hc0 Hc1].
  pose proof (zlen_nonneg (_data r)) as Hd0.
  assert (Hb : 0 <= view_begin (GlyphAt r col)
               /\ 0 <= view_size (GlyphAt r col)
               /\ view_begin (GlyphAt r col) + view_size (GlyphAt r col)
                  <= zlen (_data r)
               /\ (til.columns (_cwid r) <= col ->
                   GlyphAt r col = mk_view (zlen (_data r)) 0)).
  { unfold GlyphAt. cbv zeta. cbn [view_begin view_size].
    destruct (Z.lt_ge_cases col (til.columns (_cwid r))) as [Hin|Hout].
    - pose proof (lookup_inb r Hwf col ltac:(lia)) as Hinb. cbv zeta in Hinb.
      repeat split; lia.
    - rewrite (indicesForCol_oob r Hwf col Hout Hc1).
      cbn [dataOffset dataLength]. rewrite HI1.
      unfold sub_sz. rewrite Z.sub_diag, Z.mod_0_l by (unfold SIZE_MOD; lia).
      repeat split; lia. }
  destruct Hb as (Hb0 & Hs0 & Hle & Hpast).
  repeat split; try assumption.
  unfold view_text. rewrite zlen_firstn; [reflexivity|].
  rewrite zlen_skipn by lia. lia.
Qed.

Lemma GlyphAt_within_text_witness :
  0 <= view_begin (GlyphAt wide_row 4)
  /\ 0 <= view_size (GlyphAt wide_row 4)
  /\ view_begin (GlyphAt wide_row 4) + view_size (GlyphAt wide_row 4)
     <= zlen (_data wide_row)
  /\ zlen (view_text wide_row (GlyphAt wide_row 4)) = view_size (GlyphAt wide_row 4)
  /\ (til.columns (_cwid wide_row) <= 4 ->
      GlyphAt wide_row 4 = mk_view (zlen (_data wide_row)) 0).
Proof.
  apply (GlyphAt_within_text wide_row 4).
  - exact wide_row_wf.
  - reflexivity.
  - unfold is_size_t, SIZE_MOD. lia.
Defined.



(** * Attributes *)

(** X13: leading and trailing halves come together.  On a well-formed row
    a stored column that [DbcsAttrAt] calls [Leading] is followed by a
    stored column it calls [Trailing], and a column it calls [Trailing] is
    preceded by one it calls [Leading] or [Trailing]; in both cases the
    two columns belong to the same glyph. *)
Theorem dbcs_halves_adjacent (r : ROW) (col : Z) :
  til.wf (_cwid r) -> 0 <= col < til.columns (_cwid r) ->
  (DbcsAttrAt r col = Leading ->
   col + 1 < til.columns (_cwid r)
   /\ DbcsAttrAt r (col + 1) = Trailing
   /\ view_begin (GlyphAt r (col + 1)) = view_begin (GlyphAt r col))
  /\ (DbcsAttrAt r col = Trailing ->
      1 <= col
      /\ (DbcsAttrAt r (col - 1) = Leading \/ DbcsAttrAt r (col - 1) = Trailing)
      /\ view_begin (GlyphAt r (col - 1)) = view_begin (GlyphAt r col)).
Proof.
  intros Hwf Hcol.
  pose proof (til_facts.wf_columns_bound _ Hwf) as Hcb.
  change (2 ^ 24) with 16777216 in Hcb.
  pose proof SIZE_MOD_eq as HS.
  destruct (columns_split (_cwid r) col (til_facts.wf_nonneg _ Hwf) Hcol)
    as (pre & it & rest & Hc & Hrange).
  assert (Hok : til.run_ok it).
  { pose proof (proj1 Hwf) as Hall. rewrite Hc in Hall.
    apply Forall_app in Hall. destruct Hall as [_ Hall]. now apply Forall_inv in Hall. }
  assert (Hnn : Forall til.nonneg pre).
  { pose proof (til_facts.wf_nonneg _ Hwf) as Hall. rewrite Hc in Hall.
    now apply Forall_app in Hall. }
  pose proof (til_facts.columns_nonneg _ Hnn) as Hp0.
  set (cl := col - til.columns pre) in *.
  assert (Hcl : 0 <= cl < til.value it * til.length it) by (unfold cl; lia).
  destruct (hit_run_facts it cl Hok Hcl) as (Hv & Hq & Hm).
  pose proof (Z.div_mod cl (til.value it) ltac:(lia)) as Hdm.
  assert (Hhere : _indicesForCol r col
                  = mk_lookup (til.size pre + cl / til.value it)
                      (trailer_extent it rest cl) (cl mod til.value it) (til.value it)).
  { apply (indicesForCol_hit r Hwf pre it rest col Hc). lia. }
  unfold DbcsAttrAt, GlyphAt. cbv zeta. rewrite Hhere.
  cbn [dataOffset dataLength columnOffsetWithinGlyph numberOfColumns view_begin].
  destruct (Z.eqb_spec (til.value it) 1) as [Hone|Hwide].
  { split; discriminate. }
  destruct (Z.leb_spec 1 (cl mod til.value it)) as [Htr|Hld].
  - (* a trailing column *)
    split; [discriminate|]. intros _.
    assert (Hcl1 : (cl - 1) / til.value it = cl / til.value it
                   /\ (cl - 1) mod til.value it = cl mod til.value it - 1).
    { symmetry in Hdm.
      assert (Heq : cl - 1 = til.value it * (cl / til.value it)
                             + (cl mod til.value it - 1)) by lia.
      destruct (Z.div_mod_unique (til.value it) ((cl - 1) / til.value it)
                  (cl / til.value it) ((cl - 1) mod til.value it)
                  (cl mod til.value it - 1)) as [Hq' Hr'].
      - left. apply Z.mod_pos_bound. lia.
      - left. lia.
      - rewrite <- Z.div_mod by lia. exact Heq.
      - split; assumption. }
    destruct Hcl1 as [Hq1 Hm1].
    assert (Hprev : _indicesForCol r (col - 1)
                    = mk_lookup (til.size pre + (cl - 1) / til.value it)
                        (trailer_extent it rest (cl - 1))
                        ((cl - 1) mod til.value it) (til.value it)).
    { replace (cl - 1) with (col - 1 - til.columns pre) by (unfold cl; lia).
      apply (indicesForCol_hit r Hwf pre it rest (col - 1) Hc). unfold cl in *. lia. }
    rewrite Hprev.
    cbn [dataOffset dataLength columnOffsetWithinGlyph numberOfColumns].
    rewrite Hq1, Hm1.
    split; [unfold cl in *; lia|]. split; [|reflexivity].
    destruct (Z.eqb_spec (til.value it) 1); [contradiction|].
    destruct (Z.leb_spec 1 (cl mod til.value it - 1)); [now right|].
    destruct (Z.eqb_spec (cl mod til.value it - 1) 0); [now left|lia].
  - (* a leading column *)
    split; [|destruct (cl mod til.value it =? 0); discriminate]. intros _.
    assert (Hm0 : cl mod til.value it = 0) by lia.
    assert (Hcl1 : (cl + 1) / til.value it = cl / til.value it
                   /\ (cl + 1) mod til.value it = 1).
    { symmetry in Hdm.
      assert (Heq : cl + 1 = til.value it * (cl / til.value it) + 1) by lia.
      destruct (Z.div_mod_unique (til.value it) ((cl + 1) / til.value it)
                  (cl / til.value it) ((cl + 1) mod til.value it) 1) as [Hq' Hr'].
      - left. apply Z.mod_pos_bound. lia.
      - left. lia.
      - rewrite <- Z.div_mod by lia. exact Heq.
      - split; assumption. }
    destruct Hcl1 as [Hq1 Hm1].
    assert (Hfit : cl + 1 < til.value it * til.length it) by nia.
    assert (Hnext : _indicesForCol r (col + 1)
                    = mk_lookup (til.size pre + (cl + 1) / til.value it)
                        (trailer_extent it rest (cl + 1))
                        ((cl + 1) mod til.value it) (til.value it)).
    { replace (cl + 1) with (col + 1 - til.columns pre) by (unfold cl; lia).
      apply (indicesForCol_hit r Hwf pre it rest (col + 1) Hc). unfold cl in *. lia. }
    rewrite Hnext.
    cbn [dataOffset dataLength columnOffsetWithinGlyph numberOfColumns].
    rewrite Hq1, Hm1.
    split.
    + pose proof (til_facts.columns_app pre (it :: rest)) as Happ.
      rewrite <- Hc in Happ. cbn [til.columns] in Happ.
      assert (Hrest : 0 <= til.columns rest).
      { apply til_facts.columns_nonneg.
        pose proof (til_facts.wf_nonneg _ Hwf) as Hall. rewrite Hc in Hall.
        apply Forall_app in Hall. destruct Hall as [_ Hall].
        now apply Forall_inv_tail in Hall. }
      unfold cl in *. lia.
    + split; [|reflexivity].
      destruct (Z.eqb_spec (til.value it) 1); [contradiction|reflexivity].
Qed.

Lemma dbcs_halves_adjacent_witness :
  (DbcsAttrAt wide_row 3 = Leading ->
   3 + 1 < til.columns (_cwid wide_row)
   /\ DbcsAttrAt wide_row (3 + 1) = Trailing
   /\ view_begin (GlyphAt wide_row (3 + 1)) = view_begin (GlyphAt wide_row 3))
  /\ (DbcsAttrAt wide_row 3 = Trailing ->
      1 <= 3
      /\ (DbcsAttrAt wide_row (3 - 1) = Leading \/ DbcsAttrAt wide_row (3 - 1) = Trailing)
      /\ view_begin (GlyphAt wide_row (3 - 1)) = view_begin (GlyphAt wide_row 3)).
Proof.
  apply (dbcs_halves_adjacent wide_row 3).
  - exact wide_row_wf.
  - cbn. lia.
Defined.

(** * Composition *)

Lemma view_text_front (r : ROW) (v : wstring_view) (ch : wchar_t) (rest : wstring) :
  0 <= view_begin v -> view_text r v = ch :: rest -> 1 <= view_size v ->
  view_front r v = Returned ch.
Proof.
  intros Hb Ht Hs. unfold view_front, view_text in *.
  destruct (Z.eqb_spec (view_size v) 0) as [Hz|_]; [lia|].
  destruct (Z.ltb_spec (view_begin v) 0) as [Hneg|_]; [lia|].
  cbn [orb].
  assert (Hn : nth_error (_data r) (Z.to_nat (view_begin v)) = Some ch).
  { rewrite <- (Nat.add_0_r (Z.to_nat (view_begin v))), <- nth_error_skipn.
    destruct (skipn (Z.to_nat (view_begin v)) (_data r)) as [|x t].
    - rewrite firstn_nil in Ht. discriminate.
    - destruct (Z.to_nat (view_size v)) as [|k]; [discriminate|].
      cbn [firstn] in Ht. injection Ht as -> _. reflexivity. }
  now rewrite Hn.
Qed.

(** X14: a write, then the delimiter class.  After a write of a glyph whose
    first code unit is [ch], [DelimiterClassAt] on any of the written
    columns that lies within the row width classifies [ch]: a control
    character when [ch <= U+0020], else a delimiter when [ch] occurs in
    the delimiter set, else a regular character. *)
Theorem DelimiterClassAt_after_write (fuel : nat) (r r' : ROW) (col ncols : Z)
        (ch : wchar_t) (rest : wstring) (res : Z * Z) (j : Z) (wordDelimiters : wstring) :
  til.wf (_cwid r) -> til.size (_cwid r) = zlen (_data r) -> canonical (_cwid r) ->
  0 <= col < til.columns (_cwid r) -> 1 <= ncols <= 255 ->
  zlen (ch :: rest) <= 2 ^ 16 ->
  WriteGlyphAtMeasured fuel r col ncols (ch :: rest) = Returned (r', res) ->
  zlen (_data r') < 2 ^ 16 ->
  0 <= j < ncols -> col + j < _rowWidth r ->
  DelimiterClassAt r' (col + j) wordDelimiters
  = Returned (if ch <=? UNICODE_SPACE then ControlChar
              else match wstring_find wordDelimiters ch with
                   | Some _ => DelimiterChar
                   | None => RegularChar
                   end).
Proof.
  intros Hwf HI1 Hcan Hcol Hn Hg H Hsz Hj Hw.
  assert (Hg1 : 1 <= zlen (ch :: rest) <= 2 ^ 16).
  { split; [|assumption]. rewrite zlen_cons. pose proof (zlen_nonneg rest). lia. }
  destruct (write_effect_of_return r Hwf HI1 Hcan fuel col ncols (ch :: rest) r' res
              Hcol Hn Hg1 H) as (A & M & S & maxD & HE & Hr' & _).
  pose proof (effect_glyph r r' col ncols (ch :: rest) A M S maxD HE Hn (proj1 Hg1) Hsz
                j Hj) as Hl.
  pose proof (effect_glyph_text r r' col ncols (ch :: rest) A M S maxD HE) as Ht.
  assert (Hwidth : _rowWidth r' = _rowWidth r) by (rewrite Hr'; reflexivity).
  pose proof (lookup_inb r Hwf col Hcol) as Hinb. cbv zeta in Hinb.
  unfold DelimiterClassAt. rewrite Hwidth.
  destruct (Z.leb_spec (_rowWidth r) (col + j)) as [Hbad|_]; [lia|].
  unfold GlyphAt. cbv zeta. rewrite Hl. cbn [dataOffset dataLength].
  rewrite (view_text_front r' _ ch rest); cbn [view_begin view_size];
    [|lia|exact Ht|lia].
  cbn [bind].
  destruct (ch <=? UNICODE_SPACE); [reflexivity|].
  destruct (wstring_find wordDelimiters ch); reflexivity.
Qed.

Lemma DelimiterClassAt_after_write_witness :
  DelimiterClassAt left_damaged_row (4 + 0) [45; 120]
  = Returned (if 120 <=? UNICODE_SPACE then ControlChar
              else match wstring_find [45; 120] 120 with
                   | Some _ => DelimiterChar
                   | None => RegularChar
                   end).
Proof.
  apply (DelimiterClassAt_after_write 0 wide_row left_damaged_row 4 1 120 [] (4, 5) 0
           [45; 120]).
  - exact wide_row_wf.
  - reflexivity.
  - reflexivity.
  - cbn. lia.
  - lia.
  - cbn. lia.
  - reflexivity.
  - cbn. lia.
  - lia.
  - cbn. lia.
Defined.



(** * The lookup divides by a width that is not zero *)

(** X16: [_indicesForCol] divides by the value of the run at which its
    first loop stops, and takes a remainder by it.  On a well-formed row
    that value is never zero: the loop walks past every run of trailers,
    so neither operation is undefined. *)
Theorem indicesForCol_divisor_positive (r : ROW) (col : Z) :
  til.wf (_cwid r) -> is_size_t col ->
  match walk_runs (_cwid r) col 0 0 with
  | (_, _, it :: _) => 1 <= til.value it
  | (_, _, []) => til.columns (_cwid r) <= col
  end.
Proof.
  intros Hwf [Hc0 Hc1].
  pose proof (til_facts.wf_columns_bound _ Hwf) as Hcb.
  change (2 ^ 24) with 16777216 in Hcb.
  pose proof (cwid_size_bound r Hwf) as Hsb. change (2 ^ 16) with 65536 in Hsb.
  pose proof SIZE_MOD_eq as HS.
  destruct (walk_runs_inv (_cwid r) col 0 0 (til_facts.wf_nonneg _ Hwf)
              ltac:(lia) ltac:(lia) Hc1 ltac:(lia) ltac:(lia))
    as (pre & suffix & Hc & Hwalk & Hle & Hhit).
  rewrite Hwalk.
  destruct suffix as [|it rest].
  - rewrite Hc, app_nil_r. lia.
  - assert (Hok : til.run_ok it).
    { pose proof (proj1 Hwf) as Hall. rewrite Hc in Hall.
      apply Forall_app in Hall. destruct Hall as [_ Hall]. now apply Forall_inv in Hall. }
    unfold til.run_ok in Hok. nia.
Qed.

Lemma indicesForCol_divisor_positive_witness :
  match walk_runs (_cwid combining_row) 1 0 0 with
  | (_, _, it :: _) => 1 <= til.value it
  | (_, _, []) => til.columns (_cwid combining_row) <= 1
  end.
Proof.
  apply (indicesForCol_divisor_positive combining_row 1).
  - solve_wf.
  - unfold is_size_t, SIZE_MOD. lia.
Defined.

(** * Order *)

(** X17: the lookup keeps the order of the columns.  On a well-formed row
    a column further right never has its glyph earlier in the text: the
    start of the view grows, weakly, with the column, also past the last
    stored column. *)
Theorem GlyphAt_monotone (r : ROW) (col col' : Z) :
  til.wf (_cwid r) -> 0 <= col <= col' -> col' < SIZE_MOD ->
  view_begin (GlyphAt r col) <= view_begin (GlyphAt r col').
Proof.
  intros Hwf Hle Hlt.
  pose proof (til_facts.wf_columns_bound _ Hwf) as Hcb.
  change (2 ^ 24) with 16777216 in Hcb.
  unfold GlyphAt. cbv zeta. cbn [view_begin].
  destruct (Z.lt_ge_cases col (til.columns (_cwid r))) as [Hin|Hout].
  - pose proof (lookup_inb r Hwf col ltac:(lia)) as Hinb. cbv zeta in Hinb.
    destruct (Z.lt_ge_cases col'
                (col - columnOffsetWithinGlyph (_indicesForCol r col)
                 + numberOfColumns (_indicesForCol r col))) as [Hsame|Hpast].
    + (* both columns in one glyph *)
      destruct (columns_split (_cwid r) col (til_facts.wf_nonneg _ Hwf) ltac:(lia))
        as (pre & it & rest & Hc & Hrange).
      assert (Hok : til.run_ok it).
      { pose proof (proj1 Hwf) as Hall. rewrite Hc in Hall.
        apply Forall_app in Hall. destruct Hall as [_ Hall].
        now apply Forall_inv in Hall. }
      set (cl := col - til.columns pre) in *.
      assert (Hcl : 0 <= cl < til.value it * til.length it) by (unfold cl; lia).
      destruct (hit_run_facts it cl Hok Hcl) as (Hv & Hq & Hm).
      pose proof (Z.div_mod cl (til.value it) ltac:(lia)) as Hdm.
      assert (Hhere : _indicesForCol r col
                      = mk_lookup (til.size pre + cl / til.value it)
                          (trailer_extent it rest cl) (cl mod til.value it)
                          (til.value it)).
      { apply (indicesForCol_hit r Hwf pre it rest col Hc). lia. }
      rewrite Hhere in Hsame |- *.
      cbn [dataOffset columnOffsetWithinGlyph numberOfColumns] in Hsame |- *.
      set (d := col' - col) in *.
      assert (Hd : 0 <= d /\ cl mod til.value it + d < til.value it) by (unfold d; lia).
      assert (Hq' : (cl + d) / til.value it = cl / til.value it).
      { assert (Heq : cl + d = til.value it * (cl / til.value it)
                               + (cl mod til.value it + d)) by lia.
        destruct (Z.div_mod_unique (til.value it) ((cl + d) / til.value it)
                    (cl / til.value it) ((cl + d) mod til.value it)
                    (cl mod til.value it + d)) as [Hq1 _].
        - left. apply Z.mod_pos_bound. lia.
        - left. lia.
        - rewrite <- Z.div_mod by lia. exact Heq.
        - exact Hq1. }
      assert (Hfit : cl + d < til.value it * til.length it) by nia.
      assert (Hthere : _indicesForCol r col'
                       = mk_lookup (til.size pre + (cl + d) / til.value it)
                           (trailer_extent it rest (cl + d))
                           ((cl + d) mod til.value it) (til.value it)).
      { replace (cl + d) with (col' - til.columns pre) by (unfold cl, d; lia).
        apply (indicesForCol_hit r Hwf pre it rest col' Hc). unfold cl, d in *. lia. }
      rewrite Hthere. cbn [dataOffset]. lia.
    + (* the second column lies past the glyph of the first *)
      pose proof (lookup_next r Hwf col col' ltac:(lia)) as Hnext.
      cbv zeta in Hnext. specialize (Hnext Hpast Hlt). lia.
  - rewrite (indicesForCol_oob r Hwf col Hout ltac:(lia)).
    rewrite (indicesForCol_oob r Hwf col' ltac:(lia) Hlt).
    cbn [dataOffset]. lia.
Qed.

Lemma GlyphAt_monotone_witness :
  view_begin (GlyphAt combining_row 0) <= view_begin (GlyphAt combining_row 1).
Proof.
  apply (GlyphAt_monotone combining_row 0 1).
  - solve_wf.
  - lia.
  - unfold SIZE_MOD. lia.
Defined.

(** * vtpipeterm: the input batch *)

Section ConsoleFacts.
Import vtpipeterm.

Variable World : Type.
Variable GetConsoleScreenBufferInfoEx : World -> option SMALL_RECT * World.
Variable ConptyResizePseudoConsole : COORD -> World -> Z * World.

Lemma zlen_store (buffer : list Z) (write c : Z) (buffer' : list Z) :
  store buffer write c = Some buffer' ->
  zlen buffer' = zlen buffer
  /\ firstn (Z.to_nat (write + 1)) buffer' = firstn (Z.to_nat write) buffer ++ [c].
Proof.
  unfold store.
  destruct (Z.leb_spec 0 write) as [H0|]; [|discriminate].
  destruct (Z.ltb_spec write (zlen buffer)) as [H1|]; [|discriminate].
  cbn [andb]. intros H. injection H as <-.
  assert (Hf : zlen (firstn (Z.to_nat write) buffer) = write) by (apply zlen_firstn; lia).
  split.
  - rewrite zlen_app, zlen_cons, Hf.
    replace (Z.to_nat write + 1)%nat with (Z.to_nat (write + 1)) by lia.
    rewrite zlen_skipn by lia. lia.
  - replace (firstn (Z.to_nat write) buffer
               ++ c :: skipn (Z.to_nat write + 1) buffer)
      with ((firstn (Z.to_nat write) buffer ++ [c])
              ++ skipn (Z.to_nat write + 1) buffer)
      by (rewrite <- app_assoc; reflexivity).
    replace (write + 1) with (zlen (firstn (Z.to_nat write) buffer ++ [c]))
      by (rewrite zlen_app, Hf; reflexivity).
    apply firstn_zlen.
Qed.

Lemma zlen_key_down_chars (records : list INPUT_RECORD) :
  0 <= zlen (key_down_chars records) <= zlen records.
Proof.
  induction records as [|[[|] c|d|] rest IH]; cbn [key_down_chars];
    rewrite ?zlen_cons; try lia.
  unfold zlen. cbn. lia.
Qed.

(** The loop over the records stays inside the buffer and collects the
    characters of the key-down events. *)
Lemma scan_records_spec (records : list INPUT_RECORD) :
  forall (write : Z) (buffer : list Z) (viewportSize : COORD) (w : World),
    0 <= write -> write + zlen records <= zlen buffer ->
    match scan_records World GetConsoleScreenBufferInfoEx ConptyResizePseudoConsole
            records write buffer viewportSize w with
    | (Done (write', buffer', _), _) =>
        write' = write + zlen (key_down_chars records)
        /\ zlen buffer' = zlen buffer
        /\ firstn (Z.to_nat write') buffer'
           = firstn (Z.to_nat write) buffer ++ key_down_chars records
    | (Throws, _) => True
    | (OutOfBounds, _) => False
    end.
Proof.
  induction records as [|rec rest IH]; intros write buffer viewportSize w Hw Hfit.
  - cbn [scan_records key_down_chars]. rewrite zlen_nil, Z.add_0_r, app_nil_r.
    repeat split.
  - rewrite zlen_cons in Hfit. pose proof (zlen_nonneg rest) as Hr0.
    destruct rec as [[|] c|dwSize|]; cbn [scan_records key_down_chars].
    + (* key down *)
      destruct (store buffer write c) as [buffer'|] eqn:Hst.
      * destruct (zlen_store _ _ _ _ Hst) as [Hlen Hfirst].
        specialize (IH (write + 1) buffer' viewportSize w ltac:(lia) ltac:(lia)).
        destruct (scan_records World GetConsoleScreenBufferInfoEx
                    ConptyResizePseudoConsole rest (write + 1) buffer' viewportSize w)
          as [[[[write' buffer''] vs']| |] w'']; try exact IH.
        destruct IH as (Hw' & Hlen' & Hf').
        rewrite zlen_cons. split; [lia|]. split; [lia|].
        rewrite Hf', Hfirst, <- app_assoc. reflexivity.
      * unfold store in Hst.
        destruct (Z.leb_spec 0 write); [|lia].
        destruct (Z.ltb_spec write (zlen buffer)); [discriminate|lia].
    + (* key up *)
      apply IH; lia.
    + (* the window was resized *)
      unfold getViewportSize.
      destruct (GetConsoleScreenBufferInfoEx w) as [[csbiex|] w1]; [|exact I].
      destruct (COORD_differ viewportSize _).
      * destruct (ConptyResizePseudoConsole dwSize w1) as [hr w2].
        destruct (hr <? 0); [exact I|]. apply IH; lia.
      * apply IH; lia.
    + apply IH; lia.
Qed.

End ConsoleFacts.

(** X18: the input buffer is not overrun.  [inputConptyBuffer] has as many
    elements as [records]; as long as the console reports no more records
    than it was asked for, no store of the loop over the records falls
    outside the buffer, whatever the records are. *)
Theorem input_buffer_not_overrun (World : Type)
        (GetConsoleScreenBufferInfoEx : World -> option vtpipeterm.SMALL_RECT * World)
        (ConptyResizePseudoConsole : vtpipeterm.COORD -> World -> Z * World)
        (ReadConsoleInputExA : Z -> World -> bool * list vtpipeterm.INPUT_RECORD * World)
        (WriteFile : list Z -> World -> bool * Z * World)
        (viewportSize : vtpipeterm.COORD) (inputConptyBuffer : list Z) (w : World) :
  zlen inputConptyBuffer = vtpipeterm.ARRAYSIZE_records ->
  zlen (snd (fst (ReadConsoleInputExA vtpipeterm.ARRAYSIZE_records w)))
  <= vtpipeterm.ARRAYSIZE_records ->
  match fst (vtpipeterm.on_input World GetConsoleScreenBufferInfoEx
               ConptyResizePseudoConsole ReadConsoleInputExA WriteFile
               viewportSize inputConptyBuffer w) with
  | vtpipeterm.Undefined_store => False
  | _ => True
  end.
Proof.
  intros Hbuf Hread. unfold vtpipeterm.on_input.
  destruct (ReadConsoleInputExA vtpipeterm.ARRAYSIZE_records w) as [[ok records] w1].
  cbn [fst snd] in Hread. cbv zeta.
  destruct (negb ok || (zlen records =? 0)); [exact I|].
  pose proof (scan_records_spec World GetConsoleScreenBufferInfoEx
                ConptyResizePseudoConsole records 0 inputConptyBuffer viewportSize w1
                ltac:(lia) ltac:(lia)) as Hscan.
  destruct (vtpipeterm.scan_records World GetConsoleScreenBufferInfoEx
              ConptyResizePseudoConsole records 0 inputConptyBuffer viewportSize w1)
    as [[[[write buffer] vs']| |] w2]; [|exact I|contradiction].
  destruct (write =? 0); [exact I|].
  destruct (WriteFile (firstn (Z.to_nat write) buffer) w2) as [[ok' written] w3].
  destruct (negb ok' || negb (written =? zlen records)); exact I.
Qed.

Lemma input_buffer_not_overrun_witness :
  match fst (vtpipeterm.on_input unit
               (fun w => (Some (vtpipeterm.mk_rect 0 0 79 24), w))
               (fun _ w => (0, w))
               (fun n w => (true, [vtpipeterm.KEY_EVENT true 97;
                                   vtpipeterm.KEY_EVENT false 97], w))
               (fun bytes w => (true, zlen bytes, w))
               (80, 25) (repeat 0 4096) tt) with
  | vtpipeterm.Undefined_store => False
  | _ => True
  end.
Proof.
  apply (input_buffer_not_overrun unit
           (fun w => (Some (vtpipeterm.mk_rect 0 0 79 24), w))
           (fun _ w => (0, w))
           (fun n w => (true, [vtpipeterm.KEY_EVENT true 97;
                               vtpipeterm.KEY_EVENT false 97], w))
           (fun bytes w => (true, zlen bytes, w))
           (80, 25) (repeat 0 4096) tt).
  - vm_compute. reflexivity.
  - vm_compute. discriminate.
Defined.

(** X19: what goes to the pipe.  When the loop over a batch of records
    ends without an exception, [write] is the number of key-down events of
    the batch and the first [write] bytes of [inputConptyBuffer], the bytes
    handed to [WriteFile], are the characters of those events in the order
    of the records; key-up, resize and other events contribute nothing. *)
Theorem key_down_chars_forwarded (World : Type)
        (GetConsoleScreenBufferInfoEx : World -> option vtpipeterm.SMALL_RECT * World)
        (ConptyResizePseudoConsole : vtpipeterm.COORD -> World -> Z * World)
        (records : list vtpipeterm.INPUT_RECORD)
        (viewportSize viewportSize' : vtpipeterm.COORD)
        (inputConptyBuffer buffer' : list Z) (write : Z) (w w' : World) :
  zlen inputConptyBuffer = vtpipeterm.ARRAYSIZE_records ->
  zlen records <= vtpipeterm.ARRAYSIZE_records ->
  vtpipeterm.scan_records World GetConsoleScreenBufferInfoEx ConptyResizePseudoConsole
    records 0 inputConptyBuffer viewportSize w
  = (vtpipeterm.Done (write, buffer', viewportSize'), w') ->
  write = zlen (vtpipeterm.key_down_chars records)
  /\ firstn (Z.to_nat write) buffer' = vtpipeterm.key_down_chars records
  /\ zlen buffer' = vtpipeterm.ARRAYSIZE_records.
Proof.
  intros Hbuf Hread Hscan.
  pose proof (scan_records_spec World GetConsoleScreenBufferInfoEx
                ConptyResizePseudoConsole records 0 inputConptyBuffer viewportSize w
                ltac:(lia) ltac:(lia)) as Hspec.
  rewrite Hscan in Hspec. destruct Hspec as (Hw & Hlen & Hf).
  split; [lia|]. split; [|lia].
  rewrite Hf. reflexivity.
Qed.

Lemma key_down_chars_forwarded_witness :
  2 = zlen (vtpipeterm.key_down_chars
              [vtpipeterm.KEY_EVENT true 104; vtpipeterm.KEY_EVENT false 104;
               vtpipeterm.WINDOW_BUFFER_SIZE_EVENT (80, 25);
               vtpipeterm.KEY_EVENT true 105])
  /\ firstn (Z.to_nat 2) (104 :: 105 :: repeat 0 4094)
     = vtpipeterm.key_down_chars
         [vtpipeterm.KEY_EVENT true 104; vtpipeterm.KEY_EVENT false 104;
          vtpipeterm.WINDOW_BUFFER_SIZE_EVENT (80, 25);
          vtpipeterm.KEY_EVENT true 105]
  /\ zlen (104 :: 105 :: repeat 0 4094) = vtpipeterm.ARRAYSIZE_records.
Proof.
  apply (key_down_chars_forwarded unit
           (fun w => (Some (vtpipeterm.mk_rect 0 0 79 24), w))
           (fun _ w => (0, w))
           [vtpipeterm.KEY_EVENT true 104; vtpipeterm.KEY_EVENT false 104;
            vtpipeterm.WINDOW_BUFFER_SIZE_EVENT (80, 25);
            vtpipeterm.KEY_EVENT true 105]
           (80, 25) (80, 25) (repeat 0 4096) (104 :: 105 :: repeat 0 4094) 2 tt tt).
  - vm_compute. reflexivity.
  - vm_compute. discriminate.
  - vm_compute. reflexivity.
Defined.

(** X20: a mixed batch ends the loop.  After a successful write the arm
    compares the count written with [read], the number of records, not
    with [write], the number of bytes it asked to write.  So when a batch
    holds a key-down event and also a record that is not one (a key-up, a
    resize), and [WriteFile] reports no more bytes than it was given, the
    arm does not go back to the wait: [run] returns or throws, even when
    every byte was written. *)
Theorem mixed_batch_ends_run (World : Type)
        (GetConsoleScreenBufferInfoEx : World -> option vtpipeterm.SMALL_RECT * World)
        (ConptyResizePseudoConsole : vtpipeterm.COORD -> World -> Z * World)
        (ReadConsoleInputExA : Z -> World -> bool * list vtpipeterm.INPUT_RECORD * World)
        (WriteFile : list Z -> World -> bool * Z * World)
        (viewportSize : vtpipeterm.COORD) (inputConptyBuffer : list Z) (w : World) :
  let records := snd (fst (ReadConsoleInputExA vtpipeterm.ARRAYSIZE_records w)) in
  zlen inputConptyBuffer = vtpipeterm.ARRAYSIZE_records ->
  zlen records <= vtpipeterm.ARRAYSIZE_records ->
  (forall bytes w0, snd (fst (WriteFile bytes w0)) <= zlen bytes) ->
  0 < zlen (vtpipeterm.key_down_chars records) < zlen records ->
  fst (vtpipeterm.on_input World GetConsoleScreenBufferInfoEx
         ConptyResizePseudoConsole ReadConsoleInputExA WriteFile
         viewportSize inputConptyBuffer w) = vtpipeterm.Return
  \/ fst (vtpipeterm.on_input World GetConsoleScreenBufferInfoEx
            ConptyResizePseudoConsole ReadConsoleInputExA WriteFile
            viewportSize inputConptyBuffer w) = vtpipeterm.Throw.
Proof.
  intros records Hbuf Hread Hwrite Hmixed. subst records.
  unfold vtpipeterm.on_input.
  destruct (ReadConsoleInputExA vtpipeterm.ARRAYSIZE_records w) as [[ok records] w1].
  cbn [fst snd] in Hread, Hmixed. cbv zeta.
  destruct (negb ok || (zlen records =? 0)); [now left|].
  pose proof (scan_records_spec World GetConsoleScreenBufferInfoEx
                ConptyResizePseudoConsole records 0 inputConptyBuffer viewportSize w1
                ltac:(lia) ltac:(lia)) as Hscan.
  destruct (vtpipeterm.scan_records World GetConsoleScreenBufferInfoEx
              ConptyResizePseudoConsole records 0 inputConptyBuffer viewportSize w1)
    as [[[[write buffer] vs']| |] w2]; [|now right|contradiction].
  destruct Hscan as (Hw & Hlen & Hf).
  destruct (Z.eqb_spec write 0) as [Hz|_]; [lia|].
  specialize (Hwrite (firstn (Z.to_nat write) buffer) w2).
  destruct (WriteFile (firstn (Z.to_nat write) buffer) w2) as [[ok' written] w3].
  cbn [fst snd] in Hwrite.
  rewrite zlen_firstn in Hwrite by lia.
  destruct (Z.eqb_spec written (zlen records)) as [Heq|_]; [lia|].
  rewrite orb_true_r. now left.
Qed.

Lemma mixed_batch_ends_run_witness :
  fst (vtpipeterm.on_input unit
         (fun w => (Some (vtpipeterm.mk_rect 0 0 79 24), w))
         (fun _ w => (0, w))
         (fun n w => (true, [vtpipeterm.KEY_EVENT true 97;
                             vtpipeterm.KEY_EVENT false 97], w))
         (fun bytes w => (true, zlen bytes, w))
         (80, 25) (repeat 0 4096) tt) = vtpipeterm.Return
  \/ fst (vtpipeterm.on_input unit
            (fun w => (Some (vtpipeterm.mk_rect 0 0 79 24), w))
            (fun _ w => (0, w))
            (fun n w => (true, [vtpipeterm.KEY_EVENT true 97;
                                vtpipeterm.KEY_EVENT false 97], w))
            (fun bytes w => (true, zlen bytes, w))
            (80, 25) (repeat 0 4096) tt) = vtpipeterm.Throw.
Proof.
  apply (mixed_batch_ends_run unit
           (fun w => (Some (vtpipeterm.mk_rect 0 0 79 24), w))
           (fun _ w => (0, w))
           (fun n w => (true, [vtpipeterm.KEY_EVENT true 97;
                               vtpipeterm.KEY_EVENT false 97], w))
           (fun bytes w => (true, zlen bytes, w))
           (80, 25) (repeat 0 4096) tt).
  - vm_compute. reflexivity.
  - vm_compute. discriminate.
  - intros bytes w0. cbn [fst snd]. lia.
  - vm_compute. split; reflexivity.
Defined.
